(** * y-webrtc: chunk codec and signaling adapters

    A shallow embedding of the transport layer of y-webrtc:

    - [ChunkCodec]: fragmentation of a payload into frames and the
      per-peer reassembly table;
    - the signaling adapters of [src/signaling-adapters.js]
      ([DefaultSignalingAdapter], [LaravelEchoAdapter]) with their hook
      tables, and the factory [createSignalingAdapter];
    - the [DefaultSignalingAdapter] of the earlier revision of that
      module, which has no hooks, for comparison.

    Adapter methods are JavaScript [async] functions that mutate [this],
    call user hooks, call a backend library and may throw.  They are
    embedded in a small monad that threads the adapter object, collects
    the calls that leave the adapter (hooks, backend, emitted events) in a
    trace and propagates exceptions. *)

From Stdlib Require Import ZArith Lia.
From stdpp Require Import base option list strings gmap.

Set Default Proof Using "Type".
#[local] Set Warnings "-register-all".

(* ===================================================================== *)
(** * Definitions                                                          *)
(* ===================================================================== *)

(** ** Chunk codec *)

Module ChunkCodec.

Abbreviation bytes := (list Byte.byte).

(** Modelled from the spec: the functions [createChunks] and
    [reassembleChunk] and the buffer table [chunkBuffers] live in
    [src/y-webrtc.js], which is not part of the sources at hand; only
    their description is.  The definitions below follow section 3
    (Frame, ReassemblyBuffer) and section 4.1 (fragment, reassemble,
    purge) of the specification. *)
Inductive Frame : Type :=
| Plain (payload : bytes)
| Chunk (chunkId : string) (index total : nat) (payload : bytes).

(** Modelled from the spec: a reassembly buffer is "an ordered slot
    array of length [total], each slot [Option<bytes>]"; the table is
    "keyed by [(peerId, chunkId)]". *)
Abbreviation Slots := (list (option bytes)).
Abbreviation Buffers := (gmap (string * string) (list (option bytes))).

(** Modelled from the spec: the state of the receiver.  Besides the
    buffers it keeps the keys "whose buffer was already deleted
    (completed or purged)": section 4.1 treats a [Chunk] frame for such a
    key as stale, and a frame for a key that was never seen as the first
    frame of a message ("look up or create"), so the two have to be told
    apart. *)
Record Table : Type := {
  buffers : Buffers;
  deleted : gset (string * string)
}.

(** The table of a receiver that has seen nothing yet. *)
Definition empty : Table := {| buffers := ∅; deleted := ∅ |}.

(** The threshold of the implementation ("CHUNK_SIZE: Set to
    [10 * 1000] bytes" in the implementation notes). *)
Definition CHUNK_SIZE : nat := 10 * 1000.

(** Modelled from the spec: [total = ceil(len(payload)/limit)], for a
    [limit] of at least one byte.  (The specification gives no meaning to
    a limit of 0, and the implementation's limit is [CHUNK_SIZE]; nothing
    below is stated at 0.) *)
Definition ceil_div (n limit : nat) : nat := (n + limit - 1) / limit.

(** Modelled from the spec: "if [len(payload) <= limit], returns a single
    [Plain(payload)] ...  Otherwise generates a fresh random chunkId,
    computes [total = ceil(len(payload)/limit)], and returns [total]
    [Chunk] frames, each carrying a contiguous slice of at most [limit]
    bytes in index order [0..total-1]".  The random chunk id is an
    argument. *)
Definition fragment (chunkId : string) (payload : bytes) (limit : nat)
  : list Frame :=
  if decide (length payload ≤ limit) then [Plain payload]
  else
    let total := ceil_div (length payload) limit in
    (λ i, Chunk chunkId i total (take limit (drop (i * limit) payload)))
      <$> seq 0 total.

(** Modelled from the spec: "generates a fresh random chunkId": an id
    under which the receiver holds no buffer for the peer and has deleted
    none. *)
Definition fresh (peerId chunkId : string) (table : Table) : Prop :=
  buffers table !! (peerId, chunkId) = None ∧ (peerId, chunkId) ∉ deleted table.

(** Modelled from the spec: "once every slot is filled" of [reassemble].
    The parts in slot order, or [None] when a slot is still empty. *)
Definition filled (slots : Slots) : option (list bytes) := mapM id slots.

(** Modelled from the spec: "a [Plain] frame returns its payload
    immediately ... with no buffer interaction.  A [Chunk] frame: look up
    or create the [(peerId, chunkId)] buffer (sized by this frame's
    [total]); write [payload] into slot [index], overwriting any prior
    value at that slot; if any slot remains empty, return "incomplete";
    once every slot is filled, concatenate slots [0..total-1] in order,
    delete the buffer entry, and return the concatenated bytes.  A
    [Chunk] frame referencing a [(peerId, chunkId)] whose buffer was
    already deleted (completed or purged) is treated as stale: silently
    ignored, returns "incomplete," never raises an error."  An index
    outside the buffer is the "unexpected index" of section 7, "resolved
    by treating the frame as a no-op".  The result [None] is
    "incomplete"; there is no other way for the function to end. *)
Definition reassemble (peerId : string) (frame : Frame) (table : Table)
  : option bytes * Table :=
  match frame with
  | Plain payload => (Some payload, table)
  | Chunk chunkId index total payload =>
      let key := (peerId, chunkId) in
      if decide (key ∈ deleted table) then (None, table)
      else
        let slots := default (replicate total None) (buffers table !! key) in
        if decide (index < length slots) then
          let slots' := <[index := Some payload]> slots in
          match filled slots' with
          | Some parts =>
              (Some (concat parts),
               {| buffers := delete key (buffers table);
                  deleted := {[key]} ∪ deleted table |})
          | None =>
              (None,
               {| buffers := <[key := slots']> (buffers table);
                  deleted := deleted table |})
          end
        else (None, table)
  end.

(** Modelled from the spec: "Peer-scoped purge(peerId): deletes every
    buffer associated with that peer." *)
Definition purge (peerId : string) (table : Table) : Table :=
  {| buffers := filter (λ kv, kv.1.1 ≠ peerId) (buffers table);
     deleted := dom (filter (λ kv, kv.1.1 = peerId) (buffers table)) ∪ deleted table |}.

(** Modelled from the spec: "feeding frames in original order to one
    peer" (section 8).  The answers in order, and the table left behind. *)
Fixpoint feed (peerId : string) (frames : list Frame) (table : Table)
  : list (option bytes) * Table :=
  match frames with
  | [] => ([], table)
  | f :: fs =>
      let '(r, table1) := reassemble peerId f table in
      let '(rs, table2) := feed peerId fs table1 in
      (r :: rs, table2)
  end.

(** Modelled from the spec: what "[reassemble(fragment(m, L))] yields",
    the last answer of [feed]. *)
Definition receive (peerId : string) (frames : list Frame) (table : Table)
  : option bytes :=
  mjoin (last (feed peerId frames table).1).

(** The buffer a chunk frame works on: the one in the table, or a fresh
    one of [total] empty slots. *)
Definition slots_of (peerId chunkId : string) (total : nat) (table : Table) : Slots :=
  default (replicate total None) (buffers table !! (peerId, chunkId)).

(** What happens to a receiver: a frame arrives from a peer, or a peer is
    torn down. *)
Inductive Op : Type :=
| Receive (peerId : string) (frame : Frame)
| Purge (peerId : string).

Definition apply (table : Table) (op : Op) : Table :=
  match op with
  | Receive peerId frame => (reassemble peerId frame table).2
  | Purge peerId => purge peerId table
  end.

Definition run (ops : list Op) (table : Table) : Table := foldl apply table ops.

(** [op], applied to [table], deletes the buffer of [key]: it is a chunk
    frame for the key that completes its message, or the purge of the
    key's peer while the key has a buffer. *)
Definition deletes (op : Op) (table : Table) (key : string * string) : Prop :=
  match op with
  | Receive peerId (Chunk chunkId index total payload) =>
      key = (peerId, chunkId)
      ∧ is_Some (reassemble peerId (Chunk chunkId index total payload) table).1
  | Receive _ (Plain _) => False
  | Purge peerId => key.1 = peerId ∧ is_Some (buffers table !! key)
  end.

End ChunkCodec.

(** ** JavaScript values, exceptions and the outside world *)

(** The values that cross the adapter boundary: hook arguments and
    results, published data, thrown errors.  Numbers are kept to the
    integers. *)
Inductive JsVal : Type :=
| JUndefined
| JNull
| JBool (b : bool)
| JNum (n : Z)
| JStr (s : string)
| JArr (items : list JsVal)
| JObj (props : list (string * JsVal)).

(** [!!v] *)
Definition js_truthy (v : JsVal) : bool :=
  match v with
  | JUndefined | JNull => false
  | JBool b => b
  | JNum n => negb (n =? 0)%Z
  | JStr s => negb (String.eqb s "")
  | JArr _ | JObj _ => true
  end.

(** [typeof v] *)
Definition typeof (v : JsVal) : string :=
  match v with
  | JUndefined => "undefined"
  | JNull | JArr _ | JObj _ => "object"
  | JBool _ => "boolean"
  | JNum _ => "number"
  | JStr _ => "string"
  end.

(** Property lookup in a property list: the first binding of the key. *)
Fixpoint prop_get (k : string) (props : list (string * JsVal)) : option JsVal :=
  match props with
  | [] => None
  | (k', v) :: rest => if String.eqb k' k then Some v else prop_get k rest
  end.

(** [k in v], for a [v] whose [typeof] is "object" and is not null.  It is
    applied to the keys "topic" and "data" only, which no array carries
    (an array's keys are its indices and "length"). *)
Definition js_in (k : string) (v : JsVal) : bool :=
  match v with
  | JObj props => bool_decide (is_Some (prop_get k props))
  | _ => false
  end.

(** [v.k] (or [v[k]]) for a [v] that is neither [null] nor [undefined]:
    [undefined] when the property is missing.  It is applied to the keys
    "type", "topic" and "data" only, which no array and no primitive value
    carries.  Reading a property of [null] or [undefined] throws; the
    handlers that read a property of what they are given
    ([on_message], [listen]) test for that first. *)
Definition js_get (k : string) (v : JsVal) : JsVal :=
  match v with
  | JObj props => default JUndefined (prop_get k props)
  | _ => JUndefined
  end.

(** [v] is [null] or [undefined]. *)
Definition nullish (v : JsVal) : bool :=
  match v with
  | JNull | JUndefined => true
  | _ => false
  end.

(** [new Error(message)] and the [TypeError] of a call on, or a property
    read of, [null]. *)
Definition js_Error (message : string) : JsVal :=
  JObj [("name", JStr "Error"); ("message", JStr message)].
Definition js_TypeError : JsVal :=
  JObj [("name", JStr "TypeError")].

(** How a call ends: with a value, or with a thrown value (for an [async]
    function: a promise fulfilled or rejected). *)
Inductive Outcome (A : Type) : Type :=
| Return (a : A)
| Throw (e : JsVal).
Arguments Return {A} a.
Arguments Throw {A} e.

(** Messages handed to [ws.send]. *)
Inductive WsMessage : Type :=
| MsgSubscribe (topics : list string)
| MsgUnsubscribe (topics : list string)
| MsgPublish (topic data : JsVal).

(** Calls that leave the adapter, in the order they are made. *)
Inductive Event : Type :=
| HookCall (hookName : string) (args : list JsVal)
| WsNew (url : string)
| WsDisconnect (url : string)
| WsSend (url : string) (msg : WsMessage)
| EchoPrivate (channelName : string)
| EchoLeave (channelName : string)
| Whisper (channelName eventName : string) (data : JsVal)
| Emit (name : string) (args : list JsVal)
| ConsoleError (channelName : string) (error : JsVal)
| ObservableDestroy.

(** A hook is user code: it sees its arguments and, being a closure with a
    memory of its own, everything that happened before; it returns a value
    or throws.  (A hook that returns a promise is represented by the
    outcome of that promise.)  [this.hooks[hookName]] is [None] when the
    entry is missing or is not a function. *)
Definition Hook : Type := list Event → list JsVal → Outcome JsVal.
Definition HookTable : Type := string → option Hook.

Definition no_hooks : HookTable := λ _, None.

(** The backend calls that [connect] and [disconnect] guard with
    [try]/[catch] may throw: building a websocket client, closing it,
    leaving an Echo channel.  [None] means the call returns.  The calls the
    source makes with no failure path ([send], [private], [whisper],
    [emit]) return normally. *)
Record Backend : Type := {
  ws_new_throws : list Event → string → option JsVal;
  ws_disconnect_throws : list Event → string → option JsVal;
  echo_leave_throws : list Event → string → option JsVal
}.

Definition reliable : Backend :=
  {| ws_new_throws := λ _ _, None;
     ws_disconnect_throws := λ _ _, None;
     echo_leave_throws := λ _ _, None |}.

(** ** The monad of adapter methods *)

(** A method body reads the calls made so far, updates [this] (of type
    [S]), ends with an [Outcome] and reports the calls it made itself. *)
Definition M (S A : Type) : Type :=
  list Event → S → Outcome A * S * list Event.

Definition ret {S A} (a : A) : M S A := λ _ this, (Return a, this, []).

Definition bind {S A B} (m : M S A) (k : A → M S B) : M S B :=
  λ past this,
    match m past this with
    | (Return a, this1, t1) =>
        let '(r, this2, t2) := k a (past ++ t1) this1 in (r, this2, t1 ++ t2)
    | (Throw e, this1, t1) => (Throw e, this1, t1)
    end.

Definition throw {S A} (e : JsVal) : M S A := λ _ this, (Throw e, this, []).

(** [try { m } catch (error) { handler error }] *)
Definition try_catch {S A} (m : M S A) (handler : JsVal → M S A) : M S A :=
  λ past this,
    match m past this with
    | (Return a, this1, t1) => (Return a, this1, t1)
    | (Throw e, this1, t1) =>
        let '(r, this2, t2) := handler e (past ++ t1) this1 in (r, this2, t1 ++ t2)
    end.

(** A call whose promise nobody awaits: its outcome is kept as a value. *)
Definition attempt {S A} (m : M S A) : M S (Outcome A) :=
  λ past this, let '(r, this1, t1) := m past this in (Return r, this1, t1).

Definition lift {S A} (r : Outcome A) : M S A := λ _ this, (r, this, []).
Definition get {S} : M S S := λ _ this, (Return this, this, []).
Definition put {S} (this : S) : M S unit := λ _ _, (Return tt, this, []).
Definition modify {S} (f : S → S) : M S unit := λ _ this, (Return tt, f this, []).
Definition history {S} : M S (list Event) := λ past this, (Return past, this, []).
Definition log {S} (ev : Event) : M S unit := λ _ this, (Return tt, this, [ev]).

(** A backend call that may throw: it is made (and recorded) either way. *)
Definition call {S} (ev : Event) (throws : list Event → option JsVal) : M S unit :=
  λ past this,
    match throws past with
    | Some e => (Throw e, this, [ev])
    | None => (Return tt, this, [ev])
    end.

Declare Scope js_scope.
Delimit Scope js_scope with js.
Notation "'let*' x ':=' m 'in' k" := (bind m (λ x, k))
  (at level 10, x name, m at level 100, k at level 200) : js_scope.
Notation "m ';;' k" := (bind m (λ _, k))
  (at level 100, k at level 200, right associativity) : js_scope.
Open Scope js_scope.

(** [xs.forEach(x => body x)] *)
Fixpoint for_each {S A} (xs : list A) (body : A → M S unit) : M S unit :=
  match xs with
  | [] => ret tt
  | x :: rest => body x;; for_each rest body
  end.

(** The three components of a run. *)
Definition outcome {A S} (r : Outcome A * S * list Event) : Outcome A := r.1.1.
Definition final {A S} (r : Outcome A * S * list Event) : S := r.1.2.
Definition calls {A S} (r : Outcome A * S * list Event) : list Event := r.2.

(** ** SignalingAdapter (base class) *)

(** What every adapter object carries: the fields of the base class. *)
Class SignalingAdapter (S : Type) : Type := {
  connected : S → bool;
  hooks : S → HookTable
}.

(** [_callHook(hookName, ...args)]: the hook runs only if the table holds
    a function under that name. *)
Definition _callHook {S} `{SignalingAdapter S}
    (hookName : string) (args : list JsVal) : M S JsVal :=
  let* this := get in
  match hooks this hookName with
  | Some hook =>
      log (HookCall hookName args);;
      let* past := history in
      lift (hook past args)
  | None => ret JUndefined
  end.

(** The topics array as a hook argument. *)
Definition js_topics (topics : list string) : JsVal := JArr (JStr <$> topics).

(** The test both [publish] methods apply to the result of
    [onBeforePublish]:
    [result && typeof result === 'object' && 'topic' in result && 'data' in result]. *)
Definition replaces (result : JsVal) : bool :=
  js_truthy result && String.eqb (typeof result) "object"
  && js_in "topic" result && js_in "data" result.

(** ** A JavaScript [Map] with string keys

    The entries in insertion order, one per key: [forEach] visits them in
    that order, [set] on a key already present keeps its place. *)

Module JsMap.

Definition t (V : Type) : Type := list (string * V).

Fixpoint get {V} (k : string) (m : t V) : option V :=
  match m with
  | [] => None
  | (k', v) :: rest => if decide (k' = k) then Some v else get k rest
  end.

Definition has {V} (k : string) (m : t V) : bool :=
  bool_decide (is_Some (get k m)).

Fixpoint set {V} (k : string) (v : V) (m : t V) : t V :=
  match m with
  | [] => [(k, v)]
  | (k', v') :: rest =>
      if decide (k' = k) then (k, v) :: rest else (k', v') :: set k v rest
  end.

Definition delete {V} (k : string) (m : t V) : t V :=
  filter (λ kv, kv.1 ≠ k) m.

Definition keys {V} (m : t V) : list string := m.*1.

End JsMap.

(** ** DefaultSignalingAdapter *)

Module DefaultSignalingAdapter.

(** [ws.WebsocketClient]: the client object, known by the url it was
    built for. *)
Record WebsocketClient : Type := { ws_url : string }.

(** A call started without [await] runs up to its first [await] and leaves
    the rest behind.  [disconnect] is called that way by [connect] and by
    [destroy]: its first [await] is [_callHook('onBeforeDisconnect')], so
    the hook has been invoked and what remains is the rest of the method,
    to be resumed with the outcome of the hook. *)
Inductive Task : Type :=
| DisconnectRest (before : Outcome JsVal).

(** The object: the fields set by the two constructors, and the
    continuations left behind by calls that were not awaited. *)
Record t : Type := {
  this_connected : bool;
  this_hooks : HookTable;
  ws : option WebsocketClient;
  url : string;
  suspended : list Task
}.

#[global] Instance adapter : SignalingAdapter t :=
  {| connected := this_connected; hooks := this_hooks |}.

Definition set_connected (b : bool) (this : t) : t :=
  {| this_connected := b; this_hooks := this_hooks this; ws := ws this;
     url := url this; suspended := suspended this |}.
Definition set_ws (w : option WebsocketClient) (this : t) : t :=
  {| this_connected := this_connected this; this_hooks := this_hooks this; ws := w;
     url := url this; suspended := suspended this |}.
Definition set_url (u : string) (this : t) : t :=
  {| this_connected := this_connected this; this_hooks := this_hooks this; ws := ws this;
     url := u; suspended := suspended this |}.
Definition set_suspended (ts : list Task) (this : t) : t :=
  {| this_connected := this_connected this; this_hooks := this_hooks this; ws := ws this;
     url := url this; suspended := ts |}.

(** [constructor (hooks = {})] *)
Definition new (hooks : HookTable) : t :=
  {| this_connected := false; this_hooks := hooks; ws := None; url := "";
     suspended := [] |}.

Section Methods.

(** The backend the adapter talks to. *)
Variable backend : Backend.

(** The state a completed [disconnect] leaves. *)
Definition torn_down (this : t) : Prop :=
  ws this = None ∧ this_connected this = false.

(** What reaches the backend when [msg] is sent under the guard
    [this.ws && this.connected]. *)
Definition sent (this : t) (msg : WsMessage) : list Event :=
  match ws this with
  | Some w => if this_connected this then [WsSend (ws_url w) msg] else []
  | None => []
  end.

(** [this.ws.send(msg)]; a [TypeError] when [this.ws] is [null]. *)
Definition ws_send (msg : WsMessage) : M t unit :=
  let* this := get in
  match ws this with
  | Some w => log (WsSend (ws_url w) msg)
  | None => throw js_TypeError
  end.

(** [_handleMessage(message)]: the hook is called without [await]. *)
Definition _handleMessage (message : JsVal) : M t unit :=
  attempt (_callHook "onMessage" [message]);;
  log (Emit "message" [message]).

(** [_doConnect(url)]: builds the client and registers the three
    handlers below on it. *)
Definition _doConnect (url : string) : M t unit :=
  call (WsNew url) (λ past, ws_new_throws backend past url);;
  modify (set_ws (Some {| ws_url := url |})).

(** [this.ws.on('connect', ...)] *)
Definition on_connect : M t unit :=
  modify (set_connected true);;
  log (Emit "connect" []).

(** [this.ws.on('disconnect', ...)] *)
Definition on_disconnect : M t unit :=
  modify (set_connected false);;
  log (Emit "disconnect" []).

(** [this.ws.on('message', ...)]: [message.type] throws a [TypeError]
    when the message is [null] or [undefined]. *)
Definition on_message (message : JsVal) : M t unit :=
  if nullish message then throw js_TypeError
  else
    match js_get "type" message with
    | JStr "publish" =>
        _handleMessage
          (JObj [("topic", js_get "topic" message); ("data", js_get "data" message)])
    | _ => ret tt
    end.

(** What [disconnect] does between its two hooks (lines 195-199). *)
Definition disconnect_effect : M t unit :=
  let* this := get in
  match ws this with
  | Some w =>
      call (WsDisconnect (ws_url w)) (λ past, ws_disconnect_throws backend past (ws_url w));;
      modify (set_ws None)
  | None => ret tt
  end;;
  modify (set_connected false).

(** [disconnect], after its first [await]. *)
Definition disconnect_rest : M t unit :=
  disconnect_effect;;
  _callHook "onAfterDisconnect" [];;
  ret tt.

(** The [catch] block of [disconnect]. *)
Definition disconnect_catch (error : JsVal) : M t unit :=
  _callHook "onDisconnectError" [error];;
  throw error.

(** [async disconnect ()], awaited by its caller. *)
Definition disconnect : M t unit :=
  try_catch
    (_callHook "onBeforeDisconnect" [];;
     disconnect_rest)
    disconnect_catch.

(** [this.disconnect()] with no [await]: the hook runs now (a throw of
    the hook rejects a promise, it does not reach the caller), the rest
    is left suspended.  It resumes once the promise of the hook has
    settled: at the next [await] of the caller when the hook is missing
    or returns at once, later when the hook takes its time.  The
    embedding does not fix that moment: the rest stays suspended until
    [settle] below runs it.  The calls of a method are those it makes
    itself; the calls of a rest it left suspended are calls of
    [settle]. *)
Definition disconnect_unawaited : M t unit :=
  let* before := attempt (_callHook "onBeforeDisconnect" []) in
  let* this := get in
  put (set_suspended (suspended this ++ [DisconnectRest before]) this).

(** A suspended call resumes inside its [try] block. *)
Definition resume (task : Task) : M t unit :=
  match task with
  | DisconnectRest before =>
      try_catch (lift before;; disconnect_rest) disconnect_catch
  end.

(** The suspended calls run to their end, oldest first; nobody awaits
    them, so a rejection goes nowhere. *)
Definition settle : M t unit :=
  let* this := get in
  put (set_suspended [] this);;
  for_each (suspended this) (λ task, attempt (resume task);; ret tt).

(** What [connect] does between its two hooks (lines 139-144). *)
Definition connect_effect (url : string) : M t unit :=
  let* this := get in
  match ws this with
  | Some _ => disconnect_unawaited
  | None => ret tt
  end;;
  modify (set_url url);;
  _doConnect url.

(** The [catch] block of [connect]. *)
Definition connect_catch (error : JsVal) : M t unit :=
  _callHook "onConnectError" [error];;
  throw error.

(** [async connect (url)] *)
Definition connect (url : string) : M t unit :=
  try_catch
    (_callHook "onBeforeConnect" [JStr url];;
     connect_effect url;;
     _callHook "onAfterConnect" [JStr url];;
     ret tt)
    connect_catch.

(** [_doSubscribe(topics)] *)
Definition _doSubscribe (topics : list string) : M t unit :=
  ws_send (MsgSubscribe topics).

(** [async subscribe (topics)] *)
Definition subscribe (topics : list string) : M t unit :=
  _callHook "onBeforeSubscribe" [js_topics topics];;
  let* this := get in
  (if bool_decide (is_Some (ws this)) && connected this
   then _doSubscribe topics else ret tt);;
  _callHook "onAfterSubscribe" [js_topics topics];;
  ret tt.

(** [_doUnsubscribe(topics)] *)
Definition _doUnsubscribe (topics : list string) : M t unit :=
  ws_send (MsgUnsubscribe topics).

(** [async unsubscribe (topics)] *)
Definition unsubscribe (topics : list string) : M t unit :=
  _callHook "onBeforeUnsubscribe" [js_topics topics];;
  let* this := get in
  (if bool_decide (is_Some (ws this)) && connected this
   then _doUnsubscribe topics else ret tt);;
  _callHook "onAfterUnsubscribe" [js_topics topics];;
  ret tt.

(** [_doPublish(topic, data)] *)
Definition _doPublish (topic data : JsVal) : M t unit :=
  ws_send (MsgPublish topic data).

(** [async publish (topic, data)] *)
Definition publish (topic data : JsVal) : M t unit :=
  let* result := _callHook "onBeforePublish" [topic; data] in
  let topic := if replaces result then js_get "topic" result else topic in
  let data := if replaces result then js_get "data" result else data in
  let* this := get in
  (if bool_decide (is_Some (ws this)) && connected this
   then _doPublish topic data else ret tt);;
  _callHook "onAfterPublish" [topic; data];;
  ret tt.

(** [destroy ()]: [disconnect] is not awaited; [super.destroy()] drops
    the event listeners. *)
Definition destroy : M t unit :=
  disconnect_unawaited;;
  log ObservableDestroy.

End Methods.

End DefaultSignalingAdapter.

(** ** LaravelEchoAdapter *)

Module LaravelEchoAdapter.

(** The Echo instance handed to the constructor, and the channel objects
    it returns from [echo.private(channelName)]. *)
Inductive Echo : Type := EchoInstance.
Record Channel : Type := { channel_name : string }.

(** What calls that were not awaited leave behind: the rest of a
    [disconnect] started by [destroy], and the callback [connect] hands to
    [setTimeout]. *)
Inductive Task : Type :=
| DisconnectRest (before : Outcome JsVal)
| EmitConnect.

Record t : Type := {
  this_connected : bool;
  this_hooks : HookTable;
  echo : option Echo;
  channels : JsMap.t Channel;
  readyChannels : gset string;
  messageQueue : gmap string (list JsVal);
  shouldConnect : bool;
  suspended : list Task
}.

#[global] Instance adapter : SignalingAdapter t :=
  {| connected := this_connected; hooks := this_hooks |}.

Definition set_connected (b : bool) (this : t) : t :=
  {| this_connected := b; this_hooks := this_hooks this; echo := echo this;
     channels := channels this; readyChannels := readyChannels this;
     messageQueue := messageQueue this; shouldConnect := shouldConnect this;
     suspended := suspended this |}.
Definition set_channels (cs : JsMap.t Channel) (this : t) : t :=
  {| this_connected := this_connected this; this_hooks := this_hooks this; echo := echo this;
     channels := cs; readyChannels := readyChannels this;
     messageQueue := messageQueue this; shouldConnect := shouldConnect this;
     suspended := suspended this |}.
Definition set_readyChannels (rs : gset string) (this : t) : t :=
  {| this_connected := this_connected this; this_hooks := this_hooks this; echo := echo this;
     channels := channels this; readyChannels := rs;
     messageQueue := messageQueue this; shouldConnect := shouldConnect this;
     suspended := suspended this |}.
Definition set_messageQueue (q : gmap string (list JsVal)) (this : t) : t :=
  {| this_connected := this_connected this; this_hooks := this_hooks this; echo := echo this;
     channels := channels this; readyChannels := readyChannels this;
     messageQueue := q; shouldConnect := shouldConnect this;
     suspended := suspended this |}.
Definition set_shouldConnect (b : bool) (this : t) : t :=
  {| this_connected := this_connected this; this_hooks := this_hooks this; echo := echo this;
     channels := channels this; readyChannels := readyChannels this;
     messageQueue := messageQueue this; shouldConnect := b;
     suspended := suspended this |}.
Definition set_suspended (ts : list Task) (this : t) : t :=
  {| this_connected := this_connected this; this_hooks := this_hooks this; echo := echo this;
     channels := channels this; readyChannels := readyChannels this;
     messageQueue := messageQueue this; shouldConnect := shouldConnect this;
     suspended := ts |}.

(** [constructor (echoInstance, hooks = {})]; a falsy [echoInstance] is
    [None]. *)
Definition new (echoInstance : option Echo) (hooks : HookTable) : t :=
  {| this_connected := false; this_hooks := hooks; echo := echoInstance;
     channels := []; readyChannels := ∅; messageQueue := ∅;
     shouldConnect := false; suspended := [] |}.

(** The object once [disconnect] has cleared its tables. *)
Definition cleared (this : t) : t :=
  {| this_connected := false; this_hooks := this_hooks this; echo := echo this;
     channels := []; readyChannels := ∅; messageQueue := ∅;
     shouldConnect := false; suspended := suspended this |}.

(** The state a completed [disconnect] leaves. *)
Definition torn_down (this : t) : Prop := cleared this = this.

(** The object once [_doUnsubscribe] has dropped a topic. *)
Definition removed (topic : string) (this : t) : t :=
  set_messageQueue (delete topic (messageQueue this))
    (set_readyChannels (readyChannels this ∖ {[topic]})
       (set_channels (JsMap.delete topic (channels this)) this)).

(** [_getChannelName(topic)] *)
Definition _getChannelName (topic : string) : string := "y-webrtc." +:+ topic.

(** The object once [subscribe] has dealt with a topic: a topic that has
    a channel is skipped, another one gets the channel [_doSubscribe]
    opens. *)
Definition open_topic (this : t) (topic : string) : t :=
  if JsMap.has topic (channels this) then this
  else set_channels
         (JsMap.set topic {| channel_name := _getChannelName topic |} (channels this)) this.

Section Methods.

Variable backend : Backend.

(** [this.echo.leave(channelName)]; a [TypeError] when [this.echo] is
    [null]. *)
Definition echo_leave (channelName : string) : M t unit :=
  let* this := get in
  match echo this with
  | Some _ => call (EchoLeave channelName) (λ past, echo_leave_throws backend past channelName)
  | None => throw js_TypeError
  end.

(** [this.echo.private(channelName)] *)
Definition echo_private (channelName : string) : M t Channel :=
  let* this := get in
  match echo this with
  | Some _ => log (EchoPrivate channelName);; ret {| channel_name := channelName |}
  | None => throw js_TypeError
  end.

(** [channel.whisper('signaling', data)] *)
Definition whisper (channel : Channel) (data : JsVal) : M t unit :=
  log (Whisper (channel_name channel) "signaling" data).

(** [_handleMessage(message)]: the hook is called without [await]. *)
Definition _handleMessage (message : JsVal) : M t unit :=
  attempt (_callHook "onMessage" [message]);;
  log (Emit "message" [message]).

(** What [disconnect] does between its two hooks (lines 351-360). *)
Definition disconnect_effect : M t unit :=
  modify (set_shouldConnect false);;
  modify (set_connected false);;
  let* this := get in
  for_each (channels this) (λ entry, echo_leave (_getChannelName entry.1));;
  modify (set_channels []);;
  modify (set_readyChannels ∅);;
  modify (set_messageQueue ∅);;
  log (Emit "disconnect" []).

(** [disconnect], after its first [await]. *)
Definition disconnect_rest : M t unit :=
  disconnect_effect;;
  _callHook "onAfterDisconnect" [];;
  ret tt.

(** The [catch] block of [disconnect]. *)
Definition disconnect_catch (error : JsVal) : M t unit :=
  _callHook "onDisconnectError" [error];;
  throw error.

(** [async disconnect ()], awaited by its caller. *)
Definition disconnect : M t unit :=
  try_catch
    (_callHook "onBeforeDisconnect" [];;
     disconnect_rest)
    disconnect_catch.

(** [this.disconnect()] with no [await]. *)
Definition disconnect_unawaited : M t unit :=
  let* before := attempt (_callHook "onBeforeDisconnect" []) in
  let* this := get in
  put (set_suspended (suspended this ++ [DisconnectRest before]) this).

Definition resume (task : Task) : M t unit :=
  match task with
  | DisconnectRest before =>
      try_catch (lift before;; disconnect_rest) disconnect_catch
  | EmitConnect => log (Emit "connect" [])
  end.

(** The suspended calls and timers run, oldest first.  (In the source a
    suspended [disconnect] and the timer of [connect] may also run the
    other way round, the timer being due only after the promise jobs
    that are ready.) *)
Definition settle : M t unit :=
  let* this := get in
  put (set_suspended [] this);;
  for_each (suspended this) (λ task, attempt (resume task);; ret tt).

(** What [connect] does between its two hooks (lines 332-338): the
    callback given to [setTimeout] is left for later. *)
Definition connect_effect : M t unit :=
  modify (set_shouldConnect true);;
  modify (set_connected true);;
  let* this := get in
  put (set_suspended (suspended this ++ [EmitConnect]) this).

(** The [catch] block of [connect]. *)
Definition connect_catch (error : JsVal) : M t unit :=
  _callHook "onConnectError" [error];;
  throw error.

(** [async connect (url)] *)
Definition connect (url : string) : M t unit :=
  try_catch
    (_callHook "onBeforeConnect" [JStr url];;
     connect_effect;;
     _callHook "onAfterConnect" [JStr url];;
     ret tt)
    connect_catch.

(** The callback [_doSubscribe] hands to [channel.subscribed]: it runs
    when the backend acknowledges the subscription of [channel]. *)
Definition subscribed (topic : string) (channel : Channel) : M t unit :=
  let* this := get in
  put (set_readyChannels ({[topic]} ∪ readyChannels this) this);;
  let queuedMessages := default [] (messageQueue this !! topic) in
  for_each queuedMessages (λ data, whisper channel data);;
  let* this := get in
  put (set_messageQueue (delete topic (messageQueue this)) this).

(** The callback handed to [channel.error]. *)
Definition subscription_error (topic : string) (error : JsVal) : M t unit :=
  log (ConsoleError (_getChannelName topic) error).

(** The callbacks handed to [channel.listen('.signaling', ...)] and to
    [channel.listenForWhisper('signaling', ...)].  The first reads
    [event.data], which throws a [TypeError] when the event is [null] or
    [undefined]. *)
Definition listen (topic : string) (event : JsVal) : M t unit :=
  if nullish event then throw js_TypeError
  else _handleMessage (JObj [("topic", JStr topic); ("data", js_get "data" event)]).
Definition listenForWhisper (topic : string) (event : JsVal) : M t unit :=
  _handleMessage (JObj [("topic", JStr topic); ("data", event)]).

(** [_doSubscribe(topic)]: opens the channel, registers the four
    callbacks above on it and records it. *)
Definition _doSubscribe (topic : string) : M t unit :=
  let channelName := _getChannelName topic in
  let* channel := echo_private channelName in
  let* this := get in
  put (set_channels (JsMap.set topic channel (channels this)) this).

(** [async subscribe (topics)] *)
Definition subscribe (topics : list string) : M t unit :=
  _callHook "onBeforeSubscribe" [js_topics topics];;
  let* this := get in
  if negb (shouldConnect this) || negb (bool_decide (is_Some (echo this))) then
    _callHook "onAfterSubscribe" [js_topics topics];;
    ret tt
  else
    for_each topics (λ topic,
      let* this := get in
      if JsMap.has topic (channels this) then ret tt
      else _doSubscribe topic);;
    _callHook "onAfterSubscribe" [js_topics topics];;
    ret tt.

(** [_doUnsubscribe(topic)] *)
Definition _doUnsubscribe (topic : string) : M t unit :=
  let* this := get in
  match JsMap.get topic (channels this) with
  | Some channel =>
      echo_leave (_getChannelName topic);;
      let* this := get in
      put (set_channels (JsMap.delete topic (channels this)) this);;
      let* this := get in
      put (set_readyChannels (readyChannels this ∖ {[topic]}) this);;
      let* this := get in
      put (set_messageQueue (delete topic (messageQueue this)) this)
  | None => ret tt
  end.

(** [async unsubscribe (topics)] *)
Definition unsubscribe (topics : list string) : M t unit :=
  _callHook "onBeforeUnsubscribe" [js_topics topics];;
  for_each topics (λ topic, _doUnsubscribe topic);;
  _callHook "onAfterUnsubscribe" [js_topics topics];;
  ret tt.

(** [_doPublish(topic, data)].  The keys of [channels] are the strings
    given to [subscribe], so a [topic] that is not a string finds no
    channel. *)
Definition _doPublish (topic data : JsVal) : M t unit :=
  let* this := get in
  match topic with
  | JStr topic =>
      match JsMap.get topic (channels this) with
      | None => ret tt
      | Some channel =>
          if bool_decide (topic ∈ readyChannels this) then
            whisper channel data
          else
            (if negb (bool_decide (is_Some (messageQueue this !! topic))) then
               put (set_messageQueue (<[topic := []]> (messageQueue this)) this)
             else ret tt);;
            let* this := get in
            put (set_messageQueue
                   (alter (λ queue, queue ++ [data]) topic (messageQueue this)) this)
      end
  | _ => ret tt
  end.

(** [async publish (topic, data)] *)
Definition publish (topic data : JsVal) : M t unit :=
  let* result := _callHook "onBeforePublish" [topic; data] in
  let topic := if replaces result then js_get "topic" result else topic in
  let data := if replaces result then js_get "data" result else data in
  _doPublish topic data;;
  _callHook "onAfterPublish" [topic; data];;
  ret tt.

(** [destroy ()] *)
Definition destroy : M t unit :=
  disconnect_unawaited;;
  log ObservableDestroy.

End Methods.

End LaravelEchoAdapter.

(** ** createSignalingAdapter *)

(** An object for which [instanceof SignalingAdapter] holds: one of the
    two adapters of this module, or an instance of another subclass (of
    which only the base-class fields are known). *)
Inductive Instance : Type :=
| IsDefault (a : DefaultSignalingAdapter.t)
| IsEcho (a : LaravelEchoAdapter.t)
| IsOther (connected : bool) (hooks : HookTable).

(** A configuration object [{ type, url?, echo?, hooks? }].  A field
    that is missing reads as [undefined]; [echo] and [hooks] are only
    tested for truthiness, [None] stands for a missing or falsy one. *)
Record ConfigObject : Type := {
  type : JsVal;
  cfg_url : JsVal;
  cfg_echo : option LaravelEchoAdapter.Echo;
  cfg_hooks : option HookTable
}.

(** The argument of the factory, by the tests the factory applies to it:
    [instanceof SignalingAdapter], [typeof config === 'string'],
    [typeof config === 'object' && config !== null], anything else. *)
Inductive Config : Type :=
| CInstance (a : Instance)
| CString (s : string)
| CObject (o : ConfigObject)
| CUndefined
| CNull
| CBoolean (b : bool)
| CNumber (n : Z).

(** [createSignalingAdapter(config)].  The function is not [async]: its
    [throw] reaches the caller at once. *)
Definition createSignalingAdapter (config : Config) : Outcome Instance :=
  match config with
  | CInstance a => Return a
  | CString _ => Return (IsDefault (DefaultSignalingAdapter.new no_hooks))
  | CObject o =>
      let hooks := default no_hooks (cfg_hooks o) in
      match type o with
      | JStr "echo" =>
          match cfg_echo o with
          | None => Throw (js_Error "Laravel Echo instance is required for LaravelEchoAdapter")
          | Some e => Return (IsEcho (LaravelEchoAdapter.new (Some e) hooks))
          end
      | _ => Return (IsDefault (DefaultSignalingAdapter.new hooks))
      end
  | _ => Return (IsDefault (DefaultSignalingAdapter.new no_hooks))
  end.

(** ** Vocabulary of the properties *)

(** What [_callHook] amounts to: the outcome of the hook and the call it
    adds to the trace. *)
Definition hook_run (table : HookTable) (hookName : string) (args : list JsVal)
    (past : list Event) : Outcome JsVal * list Event :=
  match table hookName with
  | Some hook => (hook (past ++ [HookCall hookName args]) args, [HookCall hookName args])
  | None => (Return JUndefined, [])
  end.

Definition is_hook_call (ev : Event) : Prop :=
  match ev with HookCall _ _ => True | _ => False end.

(** [e] is thrown by some hook of the table. *)
Definition thrown_by_hook (table : HookTable) (e : JsVal) : Prop :=
  ∃ hookName hook past args, table hookName = Some hook ∧ hook past args = Throw e.

(** The contract of a method built as
    [try { before hook; effect; after hook } catch (e) { error hook; throw e }],
    for a run [op past this]:
    - the before hook, when there is one, is the first call made, and when
      it throws nothing of the effect happens;
    - the after hook is called exactly when there is one and the
      operation (before hook, then effect) did not fail;
    - a run whose [try] block does not fail is that block;
    - when the [try] block fails with [e0], the error hook is called with
      [e0] and the method fails: with [e0] when the error hook returns
      (or is missing), with the error hook's own exception when it
      throws. *)
Definition hook_contract {S} `{SignalingAdapter S}
    (before after onError : string) (args : list JsVal)
    (effect op : M S unit) : Prop :=
  ∀ past this,
    let run := op past this in
    let operation := (_callHook before args;; effect) past this in
    let body := (_callHook before args;; effect;; _callHook after args;; ret tt) past this in
    (is_Some (hooks this before) → ∃ rest, calls run = HookCall before args :: rest)
    ∧ (∀ e, (hook_run (hooks this) before args past).1 = Throw e →
         operation = (Throw e, this, [HookCall before args]))
    ∧ (HookCall after args ∈ calls run
       ↔ is_Some (hooks this after) ∧ outcome operation = Return tt)
    ∧ (outcome body = Return tt → run = body)
    ∧ (∀ e0, outcome body = Throw e0 →
         final run = final body
         ∧ calls run
           = calls body ++ (hook_run (hooks this) onError [e0] (past ++ calls body)).2
         ∧ outcome run
           = match (hook_run (hooks this) onError [e0] (past ++ calls body)).1 with
             | Return _ => Throw e0
             | Throw e' => Throw e'
             end).

(** A computation keeps the property [I] of the object, makes only calls
    that satisfy [E] and throws only exceptions that satisfy [X]. *)
Definition sound {S A} (I : S → Prop) (E : Event → Prop) (X : JsVal → Prop)
    (m : M S A) : Prop :=
  ∀ past this, I this →
    I (final (m past this))
    ∧ Forall E (calls (m past this))
    ∧ ∀ e, outcome (m past this) = Throw e → X e.

(** The pair a [publish] works with, in the words of the specification:
    "if the [onBeforePublish] hook returns an object with both a [topic]
    field and a [data] field, that pair replaces the original
    [(topic, data)] ...; for any other hook return value the original
    [(topic, data)] is used unchanged". *)
Definition published_pair (result topic data : JsVal) : JsVal * JsVal :=
  match result with
  | JObj props =>
      match prop_get "topic" props, prop_get "data" props with
      | Some topic', Some data' => (topic', data')
      | _, _ => (topic, data)
      end
  | _ => (topic, data)
  end.

(** The run, from [past] on the object [this], of a method that is made
    of its two hooks and of calls in between that neither fail nor change
    the object:
    - the [before] hook is called with [bargs]; when it throws, the run
      throws what it threw and that call is the only one made;
    - when it returns [result], the calls [mid result] are made, then the
      [after] hook is called with [aargs result]; the run returns when
      that hook returns and throws what it throws otherwise;
    - the object is left as it was.
    (A hook the table does not hold is not called and counts as
    returning [undefined], see [hook_run].) *)
Definition hooks_around {S} `{SignalingAdapter S}
    (before : string) (bargs : list JsVal) (mid : JsVal → list Event)
    (after : string) (aargs : JsVal → list JsVal)
    (past : list Event) (this : S) : Outcome unit * S * list Event :=
  let hb := hook_run (hooks this) before bargs past in
  match hb.1 with
  | Return result =>
      let ha := hook_run (hooks this) after (aargs result) (past ++ hb.2 ++ mid result) in
      (match ha.1 with Return _ => Return tt | Throw e => Throw e end,
       this, hb.2 ++ mid result ++ ha.2)
  | Throw e => (Throw e, this, hb.2)
  end.

(** The same inside [try { ... } catch (e) { error hook; throw e }], for
    hooks without arguments: a run of [hooks_around] that returns is the
    whole run; when it throws [e0], the [onError] hook is called with
    [e0] after it, and the run throws [e0] when that hook returns and
    what that hook throws otherwise. *)
Definition hooks_guarded {S} `{SignalingAdapter S}
    (before after onError : string) (mid : list Event)
    (past : list Event) (this : S) : Outcome unit * S * list Event :=
  let r := hooks_around before [] (λ _, mid) after (λ _, []) past this in
  match outcome r with
  | Return _ => r
  | Throw e0 =>
      let he := hook_run (hooks this) onError [e0] (past ++ calls r) in
      (match he.1 with Return _ => Throw e0 | Throw e' => Throw e' end,
       this, calls r ++ he.2)
  end.

(** The pair [publish] hands on, as the arguments of [onAfterPublish]. *)
Definition pair_args (topic data result : JsVal) : list JsVal :=
  [(published_pair result topic data).1; (published_pair result topic data).2].



(** A run that only talks to hooks: the object is left as it was, every
    call made is a hook call, and an exception, if any, was thrown by a
    hook of the table. *)
Definition quiet {S A} `{SignalingAdapter S} (this : S)
    (run : Outcome A * S * list Event) : Prop :=
  final run = this
  ∧ Forall is_hook_call (calls run)
  ∧ ∀ e, outcome run = Throw e → thrown_by_hook (hooks this) e.

(** *** Histories of an Echo adapter *)

(** What can happen to a [LaravelEchoAdapter]: a call of one of its
    methods, one of the callbacks it registered on a channel being run
    by the backend (for any topic and channel: the backend is not assumed
    to call back only for channels that are still open), or the
    suspended calls and timers being run. *)
Inductive Step : Type :=
| Connect (url : string)
| Disconnect
| Subscribe (topics : list string)
| Unsubscribe (topics : list string)
| Publish (topic data : JsVal)
| Subscribed (topic : string) (channel : LaravelEchoAdapter.Channel)
| SubscriptionError (topic : string) (error : JsVal)
| Listen (topic : string) (event : JsVal)
| ListenForWhisper (topic : string) (event : JsVal)
| Destroy
| Settle.

Definition step (backend : Backend) (s : Step) : M LaravelEchoAdapter.t unit :=
  match s with
  | Connect url => LaravelEchoAdapter.connect url
  | Disconnect => LaravelEchoAdapter.disconnect backend
  | Subscribe topics => LaravelEchoAdapter.subscribe topics
  | Unsubscribe topics => LaravelEchoAdapter.unsubscribe backend topics
  | Publish topic data => LaravelEchoAdapter.publish topic data
  | Subscribed topic channel => LaravelEchoAdapter.subscribed topic channel
  | SubscriptionError topic error => LaravelEchoAdapter.subscription_error topic error
  | Listen topic event => LaravelEchoAdapter.listen topic event
  | ListenForWhisper topic event => LaravelEchoAdapter.listenForWhisper topic event
  | Destroy => LaravelEchoAdapter.destroy
  | Settle => LaravelEchoAdapter.settle backend
  end.

(** The steps one after the other; a step that throws leaves the object
    as the exception found it. *)
Fixpoint run (backend : Backend) (steps : list Step) (past : list Event)
    (this : LaravelEchoAdapter.t) : LaravelEchoAdapter.t * list Event :=
  match steps with
  | [] => (this, past)
  | s :: rest =>
      let r := step backend s past this in
      run backend rest (past ++ calls r) (final r)
  end.

(** Every topic with an entry in [messageQueue] is a key of [channels]
    and is not in [readyChannels]. *)
Definition queue_invariant (this : LaravelEchoAdapter.t) : Prop :=
  ∀ topic,
    is_Some (LaravelEchoAdapter.messageQueue this !! topic) →
    topic ∈ JsMap.keys (LaravelEchoAdapter.channels this)
    ∧ topic ∉ LaravelEchoAdapter.readyChannels this.

(** A computation that keeps the queue invariant. *)
Abbreviation keeps := (sound queue_invariant (λ _, True) (λ _, True)).

(** The calls of a [disconnect] that finds nothing to leave: hooks, and
    the 'disconnect' event. *)
Abbreviation goodbye := (λ ev, is_hook_call ev ∨ ev = Emit "disconnect" []).

(** ** Hook tables used in examples *)

(** The table [{ name1: hook1, ... }]. *)
Fixpoint table_of (entries : list (string * Hook)) : HookTable :=
  match entries with
  | [] => no_hooks
  | (name, hook) :: rest =>
      λ hookName, if String.eqb name hookName then Some hook else table_of rest hookName
  end.

(** A hook that returns [v], a hook that throws [e]. *)
Definition returning (v : JsVal) : Hook := λ _ _, Return v.
Definition throwing (e : JsVal) : Hook := λ _ _, Throw e.

(** A connection attempt is vetoed by [onBeforeConnect], and the error
    hook fails too. *)
Definition failing_error_hook : HookTable :=
  table_of [("onBeforeConnect", throwing (JStr "connect refused"));
            ("onConnectError", throwing (JStr "error hook failed"))].

(** A subscription is vetoed by its hook. *)
Definition vetoing_subscribe : HookTable :=
  table_of [("onBeforeSubscribe", throwing (JStr "not now"))].

(** A publish hook that redirects every message. *)
Definition redirecting : HookTable :=
  table_of [("onBeforePublish",
             returning (JObj [("topic", JStr "lobby"); ("data", JStr "hello")]));
            ("onAfterPublish", returning JUndefined)].

(** An adapter whose websocket is there and connected. *)
Definition online (hooks : HookTable) : DefaultSignalingAdapter.t :=
  DefaultSignalingAdapter.set_connected true
    (DefaultSignalingAdapter.set_ws
       (Some {| DefaultSignalingAdapter.ws_url := "wss://signaling" |})
       (DefaultSignalingAdapter.new hooks)).

(** An Echo adapter that is connected and has opened the channel of the
    topic "room", not yet acknowledged. *)
Definition waiting (hooks : HookTable) : LaravelEchoAdapter.t :=
  LaravelEchoAdapter.set_channels
    [("room", {| LaravelEchoAdapter.channel_name := "y-webrtc.room" |})]
    (LaravelEchoAdapter.set_connected true
       (LaravelEchoAdapter.set_shouldConnect true
          (LaravelEchoAdapter.new (Some LaravelEchoAdapter.EchoInstance) hooks))).

(** The four shapes of configuration the factory documents, two of them
    for the Echo backend: with and without the Echo instance. *)
Definition echo_config_complete : ConfigObject :=
  {| type := JStr "echo"; cfg_url := JUndefined;
     cfg_echo := Some LaravelEchoAdapter.EchoInstance; cfg_hooks := None |}.
Definition echo_config_incomplete : ConfigObject :=
  {| type := JStr "echo"; cfg_url := JUndefined; cfg_echo := None; cfg_hooks := None |}.
Definition default_config : ConfigObject :=
  {| type := JStr "default"; cfg_url := JStr "wss://signaling"; cfg_echo := None;
     cfg_hooks := Some redirecting |}.

(** A hook that refuses every disconnection, and a hook that releases a
    resource and fails when it is asked to release it again. *)
Definition refusing_disconnect : HookTable :=
  table_of [("onBeforeDisconnect", throwing (JStr "busy"))].

Definition is_call (hookName : string) (ev : Event) : bool :=
  match ev with
  | HookCall name _ => String.eqb name hookName
  | _ => false
  end.

Definition once_only (hookName : string) : Hook :=
  λ past _,
    if (1 <? length (List.filter (is_call hookName) past))%nat
    then Throw (JStr "already released")
    else Return JUndefined.

Definition releasing : HookTable :=
  table_of [("onAfterDisconnect", once_only "onAfterDisconnect")].

(** ** The default adapter before hooks

    The earlier revision of the module has no hooks and no [async]
    method: [DefaultSignalingAdapter] there is the class below, whose
    methods run to their end when they are called. *)

Module LegacyDefaultSignalingAdapter.

Record t : Type := {
  connected : bool;
  ws : option DefaultSignalingAdapter.WebsocketClient;
  url : string
}.

Definition set_connected (b : bool) (this : t) : t :=
  {| connected := b; ws := ws this; url := url this |}.
Definition set_ws (w : option DefaultSignalingAdapter.WebsocketClient) (this : t) : t :=
  {| connected := connected this; ws := w; url := url this |}.
Definition set_url (u : string) (this : t) : t :=
  {| connected := connected this; ws := ws this; url := u |}.

(** [constructor ()] *)
Definition new : t := {| connected := false; ws := None; url := "" |}.

Section Methods.

Variable backend : Backend.

(** [this.ws.send(msg)] *)
Definition ws_send (msg : WsMessage) : M t unit :=
  let* this := get in
  match ws this with
  | Some w => log (WsSend (DefaultSignalingAdapter.ws_url w) msg)
  | None => throw js_TypeError
  end.

(** [disconnect ()] *)
Definition disconnect : M t unit :=
  let* this := get in
  match ws this with
  | Some w =>
      call (WsDisconnect (DefaultSignalingAdapter.ws_url w))
        (λ past, ws_disconnect_throws backend past (DefaultSignalingAdapter.ws_url w));;
      modify (set_ws None)
  | None => ret tt
  end;;
  modify (set_connected false).

(** [connect (url)]: builds the client and registers the three handlers
    below on it. *)
Definition connect (url : string) : M t unit :=
  let* this := get in
  match ws this with
  | Some _ => disconnect
  | None => ret tt
  end;;
  modify (set_url url);;
  call (WsNew url) (λ past, ws_new_throws backend past url);;
  modify (set_ws (Some {| DefaultSignalingAdapter.ws_url := url |})).

(** [this.ws.on('connect', ...)] *)
Definition on_connect : M t unit :=
  modify (set_connected true);;
  log (Emit "connect" []).

(** [this.ws.on('disconnect', ...)] *)
Definition on_disconnect : M t unit :=
  modify (set_connected false);;
  log (Emit "disconnect" []).

(** [this.ws.on('message', ...)] *)
Definition on_message (message : JsVal) : M t unit :=
  if nullish message then throw js_TypeError
  else
    match js_get "type" message with
    | JStr "publish" =>
        log (Emit "message"
               [JObj [("topic", js_get "topic" message); ("data", js_get "data" message)]])
    | _ => ret tt
    end.

(** [subscribe (topics)] *)
Definition subscribe (topics : list string) : M t unit :=
  let* this := get in
  if bool_decide (is_Some (ws this)) && connected this
  then ws_send (MsgSubscribe topics) else ret tt.

(** [unsubscribe (topics)] *)
Definition unsubscribe (topics : list string) : M t unit :=
  let* this := get in
  if bool_decide (is_Some (ws this)) && connected this
  then ws_send (MsgUnsubscribe topics) else ret tt.

(** [publish (topic, data)] *)
Definition publish (topic data : JsVal) : M t unit :=
  let* this := get in
  if bool_decide (is_Some (ws this)) && connected this
  then ws_send (MsgPublish topic data) else ret tt.

(** [destroy ()] *)
Definition destroy : M t unit :=
  disconnect;;
  log ObservableDestroy.

End Methods.

End LegacyDefaultSignalingAdapter.

(** What the two revisions of the default adapter have in common: the
    fields of the earlier one. *)
Definition legacy_fields (this : DefaultSignalingAdapter.t) : LegacyDefaultSignalingAdapter.t :=
  {| LegacyDefaultSignalingAdapter.connected := connected this;
     LegacyDefaultSignalingAdapter.ws := DefaultSignalingAdapter.ws this;
     LegacyDefaultSignalingAdapter.url := DefaultSignalingAdapter.url this |}.

(** A run of a method of the current revision and a run of the method of
    the earlier one end the same way, make the same calls and leave the
    same fields. *)
Definition same_behaviour {A}
    (current : Outcome A * DefaultSignalingAdapter.t * list Event)
    (earlier : Outcome A * LegacyDefaultSignalingAdapter.t * list Event) : Prop :=
  outcome current = outcome earlier
  ∧ calls current = calls earlier
  ∧ legacy_fields (final current) = final earlier.

(** ** Vocabulary of the further properties *)

(** A backend on which no websocket client can be built. *)
Definition unreachable : Backend :=
  {| ws_new_throws := λ _ _, Some (js_Error "unreachable");
     ws_disconnect_throws := λ _ _, None;
     echo_leave_throws := λ _ _, None |}.

(** A backend on which no websocket client can be closed. *)
Definition jammed : Backend :=
  {| ws_new_throws := λ _ _, None;
     ws_disconnect_throws := λ _ _, Some (js_Error "cannot close");
     echo_leave_throws := λ _ _, None |}.

(** A backend on which no Echo channel can be left. *)
Definition stuck : Backend :=
  {| ws_new_throws := λ _ _, None;
     ws_disconnect_throws := λ _ _, None;
     echo_leave_throws := λ _ _, Some (js_Error "cannot leave") |}.

(** Every channel of the table bears the name of its topic. *)
Definition channels_named (this : LaravelEchoAdapter.t) : Prop :=
  ∀ topic channel,
    JsMap.get topic (LaravelEchoAdapter.channels this) = Some channel →
    LaravelEchoAdapter.channel_name channel = LaravelEchoAdapter._getChannelName topic.

(** *** Histories of a default adapter *)

(** What can happen to a [DefaultSignalingAdapter]: a call of one of its
    methods, one of the three handlers [_doConnect] registered on the
    websocket client being run by that client, or the suspended calls
    being run. *)
Module DefaultHistory.

Inductive Step : Type :=
| Connect (url : string)
| Disconnect
| Subscribe (topics : list string)
| Unsubscribe (topics : list string)
| Publish (topic data : JsVal)
| OnConnect
| OnDisconnect
| OnMessage (message : JsVal)
| Destroy
| Settle.

Definition step (backend : Backend) (s : Step) : M DefaultSignalingAdapter.t unit :=
  match s with
  | Connect url => DefaultSignalingAdapter.connect backend url
  | Disconnect => DefaultSignalingAdapter.disconnect backend
  | Subscribe topics => DefaultSignalingAdapter.subscribe topics
  | Unsubscribe topics => DefaultSignalingAdapter.unsubscribe topics
  | Publish topic data => DefaultSignalingAdapter.publish topic data
  | OnConnect => DefaultSignalingAdapter.on_connect
  | OnDisconnect => DefaultSignalingAdapter.on_disconnect
  | OnMessage message => DefaultSignalingAdapter.on_message message
  | Destroy => DefaultSignalingAdapter.destroy
  | Settle => DefaultSignalingAdapter.settle backend
  end.

(** The steps one after the other; a step that throws leaves the object
    as the exception found it. *)
Fixpoint run (backend : Backend) (steps : list Step) (past : list Event)
    (this : DefaultSignalingAdapter.t) : DefaultSignalingAdapter.t * list Event :=
  match steps with
  | [] => (this, past)
  | s :: rest =>
      let r := step backend s past this in
      run backend rest (past ++ calls r) (final r)
  end.

End DefaultHistory.

(** A message handed to a websocket client. *)
Definition is_send (ev : Event) : Prop :=
  match ev with WsSend _ _ => True | _ => False end.

(** A computation that leaves a disconnected adapter disconnected and
    sends nothing. *)
Abbreviation silent :=
  (sound (λ this : DefaultSignalingAdapter.t, connected this = false)
     (λ ev, ¬ is_send ev) (λ _, True)).

(** *** Where a failing call failed *)

(** The call [last], made after the calls [past], threw [e]: it is the
    call of a hook of the table that throws [e] there, or a call of
    [echo.leave] that the backend fails with [e]. *)
Definition threw (backend : Backend) (table : HookTable) (past : list Event)
    (last : Event) (e : JsVal) : Prop :=
  match last with
  | HookCall hookName args => (hook_run table hookName args past).1 = Throw e
  | EchoLeave channelName => echo_leave_throws backend past channelName = Some e
  | _ => False
  end.

(** A run that made the calls [trace] after [past] and threw [e] stopped
    at the call that threw: the last call it made threw [e]. *)
Definition stopped_at (backend : Backend) (table : HookTable) (past trace : list Event)
    (e : JsVal) : Prop :=
  ∃ before last,
    trace = before ++ [last] ∧ threw backend table (past ++ before) last e.

(** The same for a method whose body is in
    [try { ... } catch (e) { error hook; throw e }]: the body made the
    calls [body] and stopped at a call that threw [e0]; the [onError]
    hook was then called with [e0], and the method threw [e0] when that
    hook returned and what that hook threw otherwise. *)
Definition caught_at (backend : Backend) (table : HookTable) (onError : string)
    (past trace : list Event) (e : JsVal) : Prop :=
  ∃ e0 body,
    stopped_at backend table past body e0
    ∧ trace = body ++ (hook_run table onError [e0] (past ++ body)).2
    ∧ e = match (hook_run table onError [e0] (past ++ body)).1 with
          | Return _ => e0
          | Throw e' => e'
          end.

(** A computation that keeps the property [I] of the object and, when it
    throws, stopped at the call that threw. *)
Definition blames {S A} (backend : Backend) (table : HookTable) (I : S → Prop)
    (m : M S A) : Prop :=
  ∀ past this, I this →
    I (final (m past this))
    ∧ ∀ e, outcome (m past this) = Throw e →
        stopped_at backend table past (calls (m past this)) e.

(** *** Topics opened and left *)

(** The topics [subscribe] opens a channel for, given the topics that
    have one: the topics of the list that have none, each at its first
    occurrence. *)
Fixpoint to_open (known topics : list string) : list string :=
  match topics with
  | [] => []
  | topic :: rest =>
      if bool_decide (topic ∈ known) then to_open known rest
      else topic :: to_open (topic :: known) rest
  end.

(** The topics [unsubscribe] leaves the channel of, given the topics that
    have one: the topics of the list that have one, each at its first
    occurrence. *)
Fixpoint to_leave (known topics : list string) : list string :=
  match topics with
  | [] => []
  | topic :: rest =>
      if bool_decide (topic ∈ known)
      then topic :: to_leave (filter (λ known_topic, known_topic ≠ topic) known) rest
      else to_leave known rest
  end.

(** The object once [unsubscribe] has dealt with a topic. *)
Definition close_topic (this : LaravelEchoAdapter.t) (topic : string) : LaravelEchoAdapter.t :=
  if JsMap.has topic (LaravelEchoAdapter.channels this)
  then LaravelEchoAdapter.removed topic this
  else this.

(* ===================================================================== *)
(** * Properties                                                           *)
(* ===================================================================== *)

(** ** Chunk codec *)

Section ChunkCodecFacts.

Import ChunkCodec.

Implicit Types (m payload : bytes) (table : Table) (slots : Slots).

Example fragment_small :
  fragment "c" [Byte.x01; Byte.x02] 2 = [Plain [Byte.x01; Byte.x02]].
Proof. reflexivity. Qed.

Example fragment_three :
  fragment "c" [Byte.x01; Byte.x02; Byte.x03] 2
  = [Chunk "c" 0 2 [Byte.x01; Byte.x02]; Chunk "c" 1 2 [Byte.x03]].
Proof. reflexivity. Qed.

Example receive_three :
  receive "p" (fragment "c" [Byte.x01; Byte.x02; Byte.x03] 2) empty
  = Some [Byte.x01; Byte.x02; Byte.x03].
Proof. vm_compute. reflexivity. Qed.

(** *** Slots *)

Lemma filled_all (parts : list bytes) : filled (Some <$> parts) = Some parts.
Proof. unfold filled. by apply mapM_fmap_Some. Qed.

Lemma filled_hole (xs ys : Slots) : filled (xs ++ None :: ys) = None.
Proof.
  unfold filled. apply mapM_None, Exists_exists.
  exists None. split; [|done]. set_solver.
Qed.

(** A chunk frame that fills the last hole completes the message: the
    buffer is deleted, and recorded as deleted. *)
Lemma reassemble_last peerId chunkId total (done : list bytes) payload table :
  (peerId, chunkId) ∉ deleted table →
  slots_of peerId chunkId total table = (Some <$> done) ++ [None] →
  reassemble peerId (Chunk chunkId (length done) total payload) table
  = (Some (concat (done ++ [payload])),
     {| buffers := delete (peerId, chunkId) (buffers table);
        deleted := {[(peerId, chunkId)]} ∪ deleted table |}).
Proof.
  unfold slots_of. intros Hlive Hs. unfold reassemble.
  rewrite decide_False by done. cbv zeta. rewrite Hs.
  rewrite decide_True by (rewrite length_app, length_fmap; simpl; lia).
  replace (<[length done:=Some payload]> ((Some <$> done) ++ [None]))
    with (Some <$> (done ++ [payload])).
  - by rewrite filled_all.
  - rewrite fmap_app. simpl.
    rewrite <- (length_fmap Some done).
    by rewrite insert_app_r_alt, Nat.sub_diag by lia.
Qed.

(** A chunk frame that leaves a hole is stored and answered by
    "incomplete". *)
Lemma reassemble_more peerId chunkId total (done : list bytes) payload n table :
  (peerId, chunkId) ∉ deleted table →
  slots_of peerId chunkId total table = (Some <$> done) ++ replicate (S (S n)) None →
  reassemble peerId (Chunk chunkId (length done) total payload) table
  = (None,
     {| buffers := <[(peerId, chunkId) :=
                       (Some <$> (done ++ [payload])) ++ replicate (S n) None]> (buffers table);
        deleted := deleted table |}).
Proof.
  unfold slots_of. intros Hlive Hs. unfold reassemble.
  rewrite decide_False by done. cbv zeta. rewrite Hs.
  rewrite decide_True by (rewrite length_app, length_fmap; simpl; lia).
  replace (<[length done:=Some payload]> ((Some <$> done) ++ replicate (S (S n)) None))
    with ((Some <$> (done ++ [payload])) ++ None :: replicate n None).
  - by rewrite filled_hole.
  - rewrite fmap_app, <- app_assoc. simpl.
    rewrite <- (length_fmap Some done).
    by rewrite insert_app_r_alt, Nat.sub_diag by lia.
Qed.

(** *** Slices *)

Lemma concat_slices (m : bytes) limit n :
  concat ((λ i, take limit (drop (i * limit) m)) <$> seq 0 n) = take (n * limit) m.
Proof.
  induction n as [|n IH]; [done|].
  rewrite seq_S, fmap_app, concat_app, IH. simpl.
  rewrite app_nil_r, take_take_drop. f_equal. lia.
Qed.

Lemma ceil_div_covers n limit : 0 < limit → n ≤ ceil_div n limit * limit.
Proof.
  intros Hl. unfold ceil_div.
  pose proof (Nat.div_mod (n + limit - 1) limit ltac:(lia)) as Hd.
  pose proof (Nat.mod_upper_bound (n + limit - 1) limit ltac:(lia)) as Hm.
  nia.
Qed.

Lemma ceil_div_pos n limit : 0 < limit → 0 < n → 0 < ceil_div n limit.
Proof.
  intros Hl Hn. unfold ceil_div.
  apply Nat.div_str_pos. lia.
Qed.

(** *** Feeding the frames of one message *)

Lemma feed_chunks peerId chunkId (part : nat → bytes) total n : ∀ k table,
  k + S n = total →
  (peerId, chunkId) ∉ deleted table →
  slots_of peerId chunkId total table = (Some <$> (part <$> seq 0 k)) ++ replicate (S n) None →
  feed peerId ((λ i, Chunk chunkId i total (part i)) <$> seq k (S n)) table
  = (replicate n None ++ [Some (concat (part <$> seq 0 total))],
     {| buffers := delete (peerId, chunkId) (buffers table);
        deleted := {[(peerId, chunkId)]} ∪ deleted table |}).
Proof.
  induction n as [|n IH]; intros k table Hk Hlive Hs.
  - cbn [fmap list_fmap seq feed].
    pose proof (reassemble_last peerId chunkId total (part <$> seq 0 k) (part k) table
                  Hlive Hs) as Hr.
    rewrite length_fmap, length_seq in Hr. rewrite Hr.
    replace total with (S k) by lia. by rewrite seq_S, fmap_app.
  - replace (seq k (S (S n))) with (k :: seq (S k) (S n)) by done.
    rewrite fmap_cons. cbn [feed].
    pose proof (reassemble_more peerId chunkId total (part <$> seq 0 k) (part k) n table
                  Hlive Hs) as Hr.
    rewrite length_fmap, length_seq in Hr. rewrite Hr.
    rewrite (IH (S k)).
    + cbn [buffers deleted]. by rewrite delete_insert_eq.
    + lia.
    + done.
    + unfold slots_of. cbn [buffers]. rewrite lookup_insert_eq. cbn [default].
      by rewrite seq_S, !fmap_app.
Qed.

(** Feeding the frames of [fragment] in their order: "incomplete" for
    every frame but the last, the payload for the last; the buffers are
    back to what they were, and the chunk id, when one was used, is
    recorded as done with. *)
Lemma feed_fragment peerId chunkId (m : bytes) limit table :
  0 < limit →
  fresh peerId chunkId table →
  feed peerId (fragment chunkId m limit) table
  = (replicate (length (fragment chunkId m limit) - 1) None ++ [Some m],
     if decide (length m ≤ limit) then table
     else {| buffers := buffers table;
             deleted := {[(peerId, chunkId)]} ∪ deleted table |}).
Proof.
  intros Hpos [Hnone Hlive].
  unfold fragment. case_decide as Hlen; [done|].
  pose proof (ceil_div_pos (length m) limit Hpos ltac:(lia)) as Htotal.
  pose proof (ceil_div_covers (length m) limit Hpos) as Hcover.
  destruct (ceil_div (length m) limit) as [|n] eqn:Hn; [lia|].
  rewrite (feed_chunks peerId chunkId _ (S n) n 0 table); [|done|done|].
  - rewrite length_fmap, length_seq, concat_slices, delete_id by done.
    rewrite take_ge by lia. do 2 f_equal. simpl. by rewrite Nat.sub_0_r.
  - unfold slots_of. by rewrite Hnone.
Qed.

(** C1: for every byte string [m] and every threshold [limit] of at
    least one byte, fragmenting [m] (under the fresh chunk id that
    [fragment] generates) and feeding the frames in their order to
    [reassemble] under one peer id yields exactly [m]: the answer is
    "incomplete" to every frame but the last and [m] to the last one, and
    no buffer is left behind.  The single [Plain] frame of a payload
    within the limit is the case of one frame. *)
Theorem fragment_reassemble_roundtrip peerId chunkId (m : bytes) limit table :
  0 < limit →
  fresh peerId chunkId table →
  let frames := fragment chunkId m limit in
  (feed peerId frames table).1 = replicate (length frames - 1) None ++ [Some m]
  ∧ receive peerId frames table = Some m
  ∧ buffers (feed peerId frames table).2 = buffers table.
Proof.
  intros Hlimit Hfresh. cbv zeta.
  pose proof (feed_fragment peerId chunkId m limit table Hlimit Hfresh) as Hfeed.
  unfold receive. rewrite Hfeed. cbn [fst snd].
  split_and!; [done|by rewrite last_snoc|by case_decide].
Qed.

(** At the threshold the implementation uses, the round trip holds for
    every payload. *)
Corollary roundtrip_at_chunk_size peerId chunkId (m : bytes) table :
  fresh peerId chunkId table →
  receive peerId (fragment chunkId m CHUNK_SIZE) table = Some m.
Proof.
  intros Hfresh. unfold receive.
  rewrite (feed_fragment peerId chunkId m CHUNK_SIZE table); [|unfold CHUNK_SIZE; lia|done].
  cbn [fst]. by rewrite last_snoc.
Qed.

(** The frames of a payload of 25,000 bytes at that threshold: three
    chunks of 10,000, 10,000 and 5,000 bytes, numbered 0, 1, 2 of 3. *)
Example fragment_25000 :
  (λ frame, match frame with
            | Plain payload => (0, 0, length payload)
            | Chunk _ index total payload => (index, total, length payload)
            end) <$> fragment "id" (replicate (25 * 1000) Byte.x00) CHUNK_SIZE
  = [(0, 3, 10 * 1000); (1, 3, 10 * 1000); (2, 3, 5 * 1000)].
Proof. vm_compute. reflexivity. Qed.

Lemma fragment_reassemble_roundtrip_witness :
  let frames := fragment "id" [Byte.x01; Byte.x02; Byte.x03] 2 in
  (feed "peer" frames empty).1
  = replicate (length frames - 1) None ++ [Some [Byte.x01; Byte.x02; Byte.x03]]
  ∧ receive "peer" frames empty = Some [Byte.x01; Byte.x02; Byte.x03]
  ∧ buffers (feed "peer" frames empty).2 = buffers empty.
Proof.
  apply (fragment_reassemble_roundtrip "peer" "id" [Byte.x01; Byte.x02; Byte.x03] 2 empty).
  - lia.
  - split; [reflexivity|]. exact (not_elem_of_empty (C := gset (string * string)) ("peer", "id")).
Defined.

(** *** Buffers that are gone *)

(** A key recorded as deleted stays so. *)
Lemma reassemble_deleted_grows peerId frame table key :
  key ∈ deleted table → key ∈ deleted (reassemble peerId frame table).2.
Proof.
  intros Hin. destruct frame as [payload|chunkId index total payload]; [done|].
  unfold reassemble. repeat case_decide; try done.
  destruct (filled _); cbn [snd deleted]; set_solver.
Qed.

Lemma apply_deleted_grows op table key :
  key ∈ deleted table → key ∈ deleted (apply table op).
Proof.
  destruct op as [peerId frame|peerId]; cbn [apply].
  - apply reassemble_deleted_grows.
  - cbn [purge deleted]. set_solver.
Qed.

Lemma run_deleted_grows ops : ∀ table key,
  key ∈ deleted table → key ∈ deleted (run ops table).
Proof.
  induction ops as [|op ops IH]; intros table key Hin; [done|].
  apply (IH (apply table op)). by apply apply_deleted_grows.
Qed.

(** The two ways the specification deletes a buffer both record the key. *)
Lemma deletes_deleted op table key :
  deletes op table key → key ∈ deleted (apply table op).
Proof.
  destruct op as [peerId [payload|chunkId index total payload]|peerId]; cbn [deletes apply].
  - done.
  - intros [-> Hdone]. revert Hdone. unfold reassemble.
    repeat case_decide; cbn [fst]; try by intros [? [=]].
    destruct (filled _); cbn [fst snd deleted]; [set_solver|by intros [? [=]]].
  - intros [Hpeer [slots Hslots]]. cbn [purge deleted].
    apply elem_of_union_l, elem_of_dom. exists slots.
    by apply map_lookup_filter_Some.
Qed.

(** No key recorded as deleted has a buffer. *)
Lemma apply_no_buffer op table :
  (∀ key, key ∈ deleted table → buffers table !! key = None) →
  ∀ key, key ∈ deleted (apply table op) → buffers (apply table op) !! key = None.
Proof.
  intros Hnone key.
  destruct op as [peerId [payload|chunkId index total payload]|peerId]; cbn [apply].
  - apply Hnone.
  - unfold reassemble. case_decide as Hstale; [apply Hnone|]. cbv zeta.
    case_decide; [|apply Hnone].
    destruct (filled _); cbn [snd buffers deleted]; intros Hin.
    + apply lookup_delete_None.
      apply elem_of_union in Hin as [->%elem_of_singleton|Hin]; [by left|].
      right. by apply Hnone.
    + rewrite lookup_insert_ne; [by apply Hnone|]. by intros <-.
  - cbn [purge buffers deleted]. intros Hin.
    apply map_lookup_filter_None.
    apply elem_of_union in Hin as [Hin|Hin]; [|left; by apply Hnone].
    apply elem_of_dom in Hin as [slots [_ Hpeer]%map_lookup_filter_Some].
    right. intros slots' _. simpl in *. tauto.
Qed.

Lemma run_no_buffer ops : ∀ table,
  (∀ key, key ∈ deleted table → buffers table !! key = None) →
  ∀ key, key ∈ deleted (run ops table) → buffers (run ops table) !! key = None.
Proof.
  induction ops as [|op ops IH]; intros table Hnone; [done|].
  apply (IH (apply table op)). by apply apply_no_buffer.
Qed.

Lemma run_app ops1 ops2 table : run (ops1 ++ ops2) table = run ops2 (run ops1 table).
Proof. unfold run. by rewrite foldl_app. Qed.

(** C2: a receiver starts with the empty table and sees frames arrive and
    peers torn down, in any order.  Once the buffer of a peer id and
    chunk id has been deleted, by a completed reassembly or by the purge
    of the peer, then whatever happens afterwards, a further [Chunk]
    frame for that peer id and chunk id is answered by "incomplete"
    (there being no error to raise) and leaves the table as it is; the
    table holds no buffer for the key. *)
Theorem stale_chunk_ignored (before after : list Op) (op : Op)
    peerId chunkId index total payload :
  deletes op (run before empty) (peerId, chunkId) →
  let table := run (before ++ op :: after) empty in
  reassemble peerId (Chunk chunkId index total payload) table = (None, table)
  ∧ buffers table !! (peerId, chunkId) = None.
Proof.
  intros Hdeletes. cbv zeta.
  assert ((peerId, chunkId) ∈ deleted (run (before ++ op :: after) empty)) as Hin.
  { rewrite run_app. cbn [run foldl]. apply run_deleted_grows.
    by apply deletes_deleted. }
  split.
  - unfold reassemble. by rewrite decide_True.
  - apply (run_no_buffer (before ++ op :: after) empty); [|done].
    intros key Hkey. cbn [empty deleted] in Hkey. set_solver.
Qed.

(** The scenario of the specification's "disconnect purge": a peer is torn
    down with one message partially reassembled, then the remaining chunk
    of that message arrives. *)
Lemma stale_chunk_ignored_witness :
  let table :=
    run ([Receive "peer" (Chunk "id" 0 2 [Byte.x01])] ++ Purge "peer" :: []) empty in
  reassemble "peer" (Chunk "id" 1 2 [Byte.x02]) table = (None, table)
  ∧ buffers table !! ("peer", "id") = None.
Proof.
  apply (stale_chunk_ignored [Receive "peer" (Chunk "id" 0 2 [Byte.x01])] [] (Purge "peer")
           "peer" "id" 1 2 [Byte.x02]).
  split; [reflexivity|]. vm_compute. eauto.
Defined.

(** The same after a completed reassembly: a duplicate of the last chunk
    is answered by "incomplete" and opens no buffer. *)
Example duplicate_chunk_ignored :
  let frames := fragment "id" [Byte.x01; Byte.x02; Byte.x03] 2 in
  let table := (feed "peer" frames empty).2 in
  buffers table = ∅
  ∧ (reassemble "peer" (Chunk "id" 1 2 [Byte.x03]) table).1 = None
  ∧ buffers (reassemble "peer" (Chunk "id" 1 2 [Byte.x03]) table).2 = ∅.
Proof. vm_compute. done. Qed.

(** A chunk id that was never seen is not stale: its first frame opens a
    buffer. *)
Example first_chunk_opens_buffer :
  (reassemble "peer" (Chunk "id" 1 2 [Byte.x02]) empty).1 = None
  ∧ buffers (reassemble "peer" (Chunk "id" 1 2 [Byte.x02]) empty).2 !! ("peer", "id")
    = Some [None; Some [Byte.x02]].
Proof. vm_compute. done. Qed.

End ChunkCodecFacts.

(** ** The monad *)

Section MonadFacts.

Context {S : Type} `{SignalingAdapter S}.

Lemma callHook_run hookName args past (this : S) :
  _callHook hookName args past this
  = ((hook_run (hooks this) hookName args past).1, this,
     (hook_run (hooks this) hookName args past).2).
Proof.
  unfold _callHook, hook_run, bind, get, log, history, lift.
  destruct (hooks this hookName) as [hook|]; simpl; [|done].
  rewrite !app_nil_r. by destruct (hook _ _).
Qed.

Lemma hook_run_calls table hookName args past :
  Forall is_hook_call (hook_run table hookName args past).2.
Proof. unfold hook_run. destruct (table hookName); simpl; by repeat constructor. Qed.

Lemma hook_run_thrown table hookName args past e :
  (hook_run table hookName args past).1 = Throw e → thrown_by_hook table e.
Proof.
  unfold hook_run. destruct (table hookName) as [hook|] eqn:Hh; simpl; [|done].
  intros Hr. by exists hookName, hook, (past ++ [HookCall hookName args]), args.
Qed.

Lemma hook_run_elem table hookName args past ev :
  ev ∈ (hook_run table hookName args past).2 →
  ev = HookCall hookName args ∧ is_Some (table hookName).
Proof.
  unfold hook_run. destruct (table hookName); simpl; [|set_solver].
  intros ->%list_elem_of_singleton. eauto.
Qed.

Lemma hook_run_some table hookName args past :
  is_Some (table hookName) →
  (hook_run table hookName args past).2 = [HookCall hookName args].
Proof. unfold hook_run. by intros [hook ->]. Qed.

(** Every method written as [try { before; effect; after } catch { error
    hook; rethrow }] obeys the contract, provided its effect leaves the
    hook table alone and does not itself call the after hook. *)
Lemma catch_rethrow_run onError e past (this : S) :
  (_callHook onError [e];; throw e) past this
  = (match (hook_run (hooks this) onError [e] past).1 with
     | Return _ => Throw e
     | Throw e' => Throw e'
     end, this, (hook_run (hooks this) onError [e] past).2) :> Outcome unit * S * list Event.
Proof.
  unfold bind, throw. rewrite callHook_run.
  destruct (hook_run (hooks this) onError [e] past) as [[v|e'] t]; simpl; [|done].
  by rewrite app_nil_r.
Qed.

Lemma bind_run {A B} (m : M S A) (k : A → M S B) past this :
  bind m k past this
  = match m past this with
    | (Return a, this1, t1) =>
        let '(r, this2, t2) := k a (past ++ t1) this1 in (r, this2, t1 ++ t2)
    | (Throw e, this1, t1) => (Throw e, this1, t1)
    end.
Proof. done. Qed.

Lemma bind_get {B} (k : S → M S B) past this : bind get k past this = k this past this.
Proof.
  unfold bind, get. simpl. rewrite app_nil_r.
  by destruct (k this past this) as [[r this1] t1].
Qed.

Lemma bind_ret {A B} (a : A) (k : A → M S B) past this :
  bind (ret a) k past this = k a past this.
Proof.
  unfold bind, ret. simpl. rewrite app_nil_r.
  by destruct (k a past this) as [[r this1] t1].
Qed.

(** A loop of calls that are not awaited never throws. *)
Lemma for_each_attempt_returns {A B} (xs : list A) (f : A → M S B) : ∀ past this,
  outcome (for_each xs (λ x, attempt (f x);; ret tt) past this) = Return tt.
Proof.
  induction xs as [|x xs IH]; intros past this; [done|].
  simpl. unfold bind at 1. unfold bind at 1, attempt, ret.
  destruct (f x past this) as [[r this1] t1]. simpl.
  specialize (IH ((past ++ t1 ++ [])) this1). unfold outcome in *.
  by destruct (for_each xs _ _ _) as [[r' this2] t2].
Qed.


(** Results are triples; a run is its three components. *)
Lemma run_eta {A} (r : Outcome A * S * list Event) : r = (outcome r, final r, calls r).
Proof. by destruct r as [[? ?] ?]. Qed.

Lemma operation_run before args (effect : M S unit) past this :
  (_callHook before args;; effect) past this
  = match (hook_run (hooks this) before args past).1 with
    | Return _ =>
        let r := effect (past ++ (hook_run (hooks this) before args past).2) this in
        (outcome r, final r, (hook_run (hooks this) before args past).2 ++ calls r)
    | Throw e => (Throw e, this, (hook_run (hooks this) before args past).2)
    end.
Proof.
  unfold bind. rewrite callHook_run.
  destruct (hook_run (hooks this) before args past) as [[v|e] t1]; simpl; [|done].
  by destruct (effect (past ++ t1) this) as [[? ?] ?].
Qed.

Lemma body_run before after args (effect : M S unit) past this :
  (∀ past this, hooks (final (effect past this)) = hooks this) →
  (_callHook before args;; effect;; _callHook after args;; ret tt) past this
  = match (hook_run (hooks this) before args past).1 with
    | Return _ =>
        let t1 := (hook_run (hooks this) before args past).2 in
        let r := effect (past ++ t1) this in
        match outcome r with
        | Return _ =>
            let ha := hook_run (hooks this) after args (past ++ t1 ++ calls r) in
            (match ha.1 with Return _ => Return tt | Throw e => Throw e end,
             final r, t1 ++ calls r ++ ha.2)
        | Throw e => (Throw e, final r, t1 ++ calls r)
        end
    | Throw e => (Throw e, this, (hook_run (hooks this) before args past).2)
    end.
Proof.
  intros Hhooks. unfold bind, ret. rewrite callHook_run.
  destruct (hook_run (hooks this) before args past) as [[v|e] t1]; simpl; [|done].
  specialize (Hhooks (past ++ t1) this). unfold final in Hhooks.
  destruct (effect (past ++ t1) this) as [[[[]|e] this1] t2]; simpl in *; [|done].
  rewrite callHook_run, Hhooks, <- app_assoc.
  destruct (hook_run (hooks this) after args (past ++ t1 ++ t2)) as [[v'|e] t3]; simpl; [|done].
  by rewrite app_nil_r.
Qed.

Lemma try_rethrow_run onError (body : M S unit) past this :
  try_catch body (λ error, _callHook onError [error];; throw error) past this
  = let b := body past this in
    match outcome b with
    | Return _ => b
    | Throw e0 =>
        let he := hook_run (hooks (final b)) onError [e0] (past ++ calls b) in
        (match he.1 with Return _ => Throw e0 | Throw e' => Throw e' end,
         final b, calls b ++ he.2)
    end.
Proof.
  unfold try_catch. cbv zeta.
  destruct (body past this) as [[[[]|e] this1] t1]; simpl; [done|].
  by rewrite catch_rethrow_run.
Qed.

(** Every method written as [try { before; effect; after } catch { error
    hook; rethrow }] obeys the contract, provided its effect leaves the
    hook table alone and does not itself call the after hook. *)
Lemma try_hooks_contract before after onError args (effect : M S unit) :
  before ≠ after → onError ≠ after →
  (∀ past this, hooks (final (effect past this)) = hooks this) →
  (∀ past this, HookCall after args ∉ calls (effect past this)) →
  hook_contract before after onError args effect
    (try_catch
       (_callHook before args;; effect;; _callHook after args;; ret tt)
       (λ error, _callHook onError [error];; throw error)).
Proof.
  intros Hba Hea Hhooks Hquiet past this. cbv zeta.
  rewrite try_rethrow_run, (body_run before after args effect past this Hhooks), operation_run.
  cbv zeta.
  pose proof (hook_run_elem (hooks this) before args past) as Hb.
  pose proof (hook_run_some (hooks this) before args past) as Hb'.
  destruct (hook_run (hooks this) before args past) as [[v|e] t1] eqn:Hbefore; simpl in *.
  - specialize (Hquiet (past ++ t1) this). specialize (Hhooks (past ++ t1) this).
    unfold final, calls, outcome in *.
    destruct (effect (past ++ t1) this) as [[[[]|e] this1] t2] eqn:Heffect; simpl in *.
    + pose proof (hook_run_elem (hooks this) after args (past ++ t1 ++ t2)) as Ha.
      pose proof (hook_run_some (hooks this) after args (past ++ t1 ++ t2)) as Ha'.
      destruct (hook_run (hooks this) after args (past ++ t1 ++ t2)) as [[v'|e] t3]; simpl in *.
      * split_and!; try done.
        -- intros Hs. rewrite (Hb' Hs). simpl. eauto.
        -- split; [|intros [Hs _]; rewrite (Ha' Hs), !elem_of_app, list_elem_of_singleton; auto].
           intros [Hin|[Hin|Hin]%elem_of_app]%elem_of_app.
           ++ destruct (Hb _ Hin) as [? _]. congruence.
           ++ done.
           ++ by destruct (Ha _ Hin) as [_ ?].
      * rewrite Hhooks.
        pose proof (hook_run_elem (hooks this) onError [e] (past ++ t1 ++ t2 ++ t3)) as He.
        split_and!; try done.
        -- intros Hs. rewrite (Hb' Hs). simpl. eauto.
        -- split; [|intros [Hs _]; rewrite (Ha' Hs), !elem_of_app, list_elem_of_singleton; auto].
           intros [[Hin|[Hin|Hin]%elem_of_app]%elem_of_app|Hin]%elem_of_app.
           ++ destruct (Hb _ Hin) as [? _]. congruence.
           ++ done.
           ++ by destruct (Ha _ Hin) as [_ ?].
           ++ destruct (He _ Hin) as [? _]. congruence.
        -- intros e0 [= <-]. done.
    + rewrite Hhooks.
      pose proof (hook_run_elem (hooks this) onError [e] (past ++ t1 ++ t2)) as He.
      split_and!; try done.
      * intros Hs. rewrite (Hb' Hs). simpl. eauto.
      * split; [|by intros [_ ?]].
        intros [[Hin|Hin]%elem_of_app|Hin]%elem_of_app.
        -- destruct (Hb _ Hin) as [? _]. congruence.
        -- done.
        -- destruct (He _ Hin) as [? _]. congruence.
      * intros e0 [= <-]. done.
  - pose proof (hook_run_elem (hooks this) onError [e] (past ++ t1)) as He.
    assert (t1 = [HookCall before args]) as Ht1.
    { apply Hb'. unfold hook_run in Hbefore. by destruct (hooks this before). }
    split_and!; try done.
    + intros _. rewrite Ht1. simpl. eauto.
    + intros e' [= <-]. by rewrite Ht1.
    + split; [|by intros [_ ?]].
      intros [Hin|Hin]%elem_of_app.
      * destruct (Hb _ Hin) as [? _]. congruence.
      * destruct (He _ Hin) as [? _]. congruence.
    + intros e0 [= <-]. done.
Qed.

(** *** Invariants and traces, rule by rule *)

Section Sound.

Context (I : S → Prop) (E : Event → Prop) (X : JsVal → Prop).

Lemma sound_ret {A} (a : A) : sound I E X (ret a).
Proof. intros past this HI. by split_and!; [|constructor|]. Qed.

Lemma sound_throw {A} e : X e → sound I E X (throw e : M S A).
Proof. intros HX past this HI. split_and!; [done|constructor|]. by intros e' [= <-]. Qed.

Lemma sound_lift {A} (r : Outcome A) : (∀ e, r = Throw e → X e) → sound I E X (lift r).
Proof. intros HX past this HI. by split_and!; [|constructor|]. Qed.

Lemma sound_history : sound I E X history.
Proof. intros past this HI. by split_and!; [|constructor|]. Qed.

Lemma sound_log ev : E ev → sound I E X (log ev).
Proof. intros HE past this HI. split_and!; [done| |done]. by repeat constructor. Qed.

Lemma sound_call ev throws :
  E ev → (∀ past e, throws past = Some e → X e) → sound I E X (call ev throws).
Proof.
  intros HE HX past this HI. unfold call, final, calls, outcome.
  destruct (throws past) as [e|] eqn:Hthrows; simpl; split_and!; try done;
    try by repeat constructor.
  intros e' [= <-]. by eapply HX.
Qed.

Lemma sound_modify f : (∀ this, I this → I (f this)) → sound I E X (modify f).
Proof. intros Hf past this HI. split_and!; [by apply Hf|constructor|done]. Qed.

Lemma sound_put (this' : S) : I this' → sound I E X (put this').
Proof. intros HI' past this HI. split_and!; [done|constructor|done]. Qed.

Lemma sound_bind {A B} (m : M S A) (k : A → M S B) :
  sound I E X m → (∀ a, sound I E X (k a)) → sound I E X (bind m k).
Proof.
  intros Hm Hk past this HI. specialize (Hm past this HI).
  unfold bind, final, calls, outcome in *.
  destruct (m past this) as [[[a|e] this1] t1]; simpl in *.
  2:{ destruct Hm as (? & ? & HX). split_and!; [done..|].
      intros e' [= <-]. by apply HX. }
  destruct Hm as (HI1 & Ht1 & _). specialize (Hk a (past ++ t1) this1 HI1).
  unfold final, calls, outcome in Hk.
  destruct (k a (past ++ t1) this1) as [[r this2] t2]; simpl in *.
  destruct Hk as (HI2 & Ht2 & HX2). split_and!; [done|by apply Forall_app|done].
Qed.

(** [let* this := get in k this]: the continuation is only ever run on
    the object it was given. *)
Lemma sound_get {B} (k : S → M S B) :
  (∀ this past, I this →
     I (final (k this past this))
     ∧ Forall E (calls (k this past this))
     ∧ ∀ e, outcome (k this past this) = Throw e → X e) →
  sound I E X (bind get k).
Proof.
  intros Hk past this HI. specialize (Hk this (past ++ []) HI).
  unfold bind, get, final, calls, outcome in *. simpl.
  by destruct (k this (past ++ []) this) as [[r this2] t2].
Qed.

(** The exceptions of the [try] block reach the handler, not the caller. *)
Lemma sound_try_catch {A} (X0 : JsVal → Prop) (m : M S A) handler :
  sound I E X0 m → (∀ e, X0 e → sound I E X (handler e)) →
  sound I E X (try_catch m handler).
Proof.
  intros Hm Hh past this HI. specialize (Hm past this HI).
  unfold try_catch, final, calls, outcome in *.
  destruct (m past this) as [[[a|e] this1] t1]; simpl in *.
  { destruct Hm as (? & ? & _). by split_and!. }
  destruct Hm as (HI1 & Ht1 & HX1).
  specialize (Hh e (HX1 e eq_refl) (past ++ t1) this1 HI1).
  unfold final, calls, outcome in Hh.
  destruct (handler e (past ++ t1) this1) as [[r this2] t2]; simpl in *.
  destruct Hh as (HI2 & Ht2 & HX2). split_and!; [done|by apply Forall_app|done].
Qed.

(** A call that is not awaited throws nothing at its caller. *)
Lemma sound_attempt {A} (X0 : JsVal → Prop) (m : M S A) :
  sound I E X0 m → sound I E X (attempt m).
Proof.
  intros Hm past this HI. specialize (Hm past this HI).
  unfold attempt, final, calls, outcome in *.
  destruct (m past this) as [[r this1] t1]; simpl in *.
  destruct Hm as (? & ? & _). by split_and!.
Qed.

Lemma sound_for_each {A} (xs : list A) (body : A → M S unit) :
  (∀ x, x ∈ xs → sound I E X (body x)) → sound I E X (for_each xs body).
Proof.
  induction xs as [|x xs IH]; intros Hbody; simpl.
  - apply sound_ret.
  - apply sound_bind; [apply Hbody; by left|].
    intros _. apply IH. intros y Hy. apply Hbody. by right.
Qed.

Lemma sound_callHook hookName args :
  E (HookCall hookName args) →
  (∀ this e, I this → thrown_by_hook (hooks this) e → X e) →
  sound I E X (_callHook hookName args).
Proof.
  intros HE HX past this HI. rewrite callHook_run. unfold final, calls, outcome. simpl.
  split_and!; [done| |].
  - unfold hook_run. destruct (hooks this hookName); simpl; by repeat constructor.
  - intros e He. apply (HX this e HI). by eapply hook_run_thrown.
Qed.

Lemma sound_at {A} (m : M S A) past this :
  sound I E X m → I this →
  I (final (m past this))
  ∧ Forall E (calls (m past this))
  ∧ ∀ e, outcome (m past this) = Throw e → X e.
Proof. intros Hm. apply Hm. Qed.

End Sound.

End MonadFacts.

(** ** JavaScript maps *)

Section JsMapFacts.

Context {V : Type}.

Implicit Types (m : JsMap.t V) (k : string).

Lemma jsmap_get_keys k m v : JsMap.get k m = Some v → k ∈ JsMap.keys m.
Proof.
  induction m as [|[k' v'] m IH]; [done|]. simpl.
  case_decide; [subst; intros _; by left|]. intros Hget. right. by apply IH.
Qed.

Lemma jsmap_get_set k v m : JsMap.get k (JsMap.set k v m) = Some v.
Proof.
  induction m as [|[k' v'] m IH]; simpl.
  - by rewrite decide_True.
  - case_decide; simpl; [by rewrite decide_True|by rewrite decide_False].
Qed.

Lemma jsmap_keys_set k k' v m : k' ∈ JsMap.keys m → k' ∈ JsMap.keys (JsMap.set k v m).
Proof.
  induction m as [|[k0 v0] m IH]; [by intros ?%elem_of_nil|]. simpl.
  intros [->|Hin]%elem_of_cons; case_decide; subst; simpl.
  - by left.
  - by left.
  - by right.
  - right. by apply IH.
Qed.

Lemma jsmap_keys_delete k k' m :
  k' ∈ JsMap.keys m → k' ≠ k → k' ∈ JsMap.keys (JsMap.delete k m).
Proof.
  unfold JsMap.keys, JsMap.delete. intros Hin Hne.
  apply list_elem_of_fmap in Hin as ([k0 v0] & -> & Hin).
  apply list_elem_of_fmap. exists (k0, v0). split; [done|].
  by apply list_elem_of_filter.
Qed.

End JsMapFacts.

(** The test of the source picks the pair the specification describes. *)
Lemma replaces_pair result topic data :
  (if replaces result then js_get "topic" result else topic,
   if replaces result then js_get "data" result else data)
  = published_pair result topic data.
Proof.
  destruct result as [| |b|n|str|items|props]; try done.
  - by destruct b.
  - simpl. unfold replaces. simpl. by destruct (n =? 0)%Z.
  - unfold replaces. simpl. by destruct (String.eqb str "").
  - unfold replaces, published_pair. simpl.
    destruct (prop_get "topic" props) as [topic'|], (prop_get "data" props) as [data'|];
      by simpl.
Qed.

(** ** DefaultSignalingAdapter *)

Section DefaultFacts.

Import DefaultSignalingAdapter.

Variable backend : Backend.

Implicit Types (this : DefaultSignalingAdapter.t) (past : list Event).

Lemma disconnect_unawaited_run past this :
  disconnect_unawaited past this
  = (Return tt,
     set_suspended
       (suspended this ++ [DisconnectRest (hook_run (hooks this) "onBeforeDisconnect" [] past).1])
       this,
     (hook_run (hooks this) "onBeforeDisconnect" [] past).2).
Proof.
  unfold disconnect_unawaited, bind, attempt, get, put. rewrite callHook_run. simpl.
  by rewrite !app_nil_r.
Qed.

Lemma doConnect_run url past this :
  _doConnect backend url past this
  = match ws_new_throws backend past url with
    | Some e => (Throw e, this, [WsNew url])
    | None => (Return tt, set_ws (Some {| ws_url := url |}) this, [WsNew url])
    end.
Proof.
  unfold _doConnect, bind, call, modify.
  by destruct (ws_new_throws backend past url).
Qed.

Lemma connect_effect_run url past this :
  connect_effect backend url past this
  = let this1 :=
      match ws this with
      | Some _ =>
          set_suspended
            (suspended this
               ++ [DisconnectRest (hook_run (hooks this) "onBeforeDisconnect" [] past).1]) this
      | None => this
      end in
    let t1 :=
      match ws this with
      | Some _ => (hook_run (hooks this) "onBeforeDisconnect" [] past).2
      | None => []
      end in
    match ws_new_throws backend (past ++ t1) url with
    | Some e => (Throw e, set_url url this1, t1 ++ [WsNew url])
    | None => (Return tt, set_ws (Some {| ws_url := url |}) (set_url url this1), t1 ++ [WsNew url])
    end.
Proof.
  unfold connect_effect, bind, get, modify, ret. simpl.
  destruct (ws this) as [w|]; simpl.
  - rewrite disconnect_unawaited_run, doConnect_run, !app_nil_r. simpl.
    by destruct (ws_new_throws backend _ url).
  - rewrite doConnect_run, !app_nil_r. simpl.
    by destruct (ws_new_throws backend _ url).
Qed.

Lemma disconnect_effect_run past this :
  disconnect_effect backend past this
  = match ws this with
    | Some w =>
        match ws_disconnect_throws backend past (ws_url w) with
        | Some e => (Throw e, this, [WsDisconnect (ws_url w)])
        | None =>
            (Return tt, set_connected false (set_ws None this), [WsDisconnect (ws_url w)])
        end
    | None => (Return tt, set_connected false this, [])
    end.
Proof.
  unfold disconnect_effect, bind, get, modify, call, ret. simpl.
  destruct (ws this) as [w|]; simpl; [|done].
  rewrite app_nil_r. by destruct (ws_disconnect_throws backend past (ws_url w)).
Qed.

Lemma ws_send_run msg past this :
  ws_send msg past this
  = match ws this with
    | Some w => (Return tt, this, [WsSend (ws_url w) msg])
    | None => (Throw js_TypeError, this, [])
    end.
Proof. unfold ws_send, bind, get, log, throw. by destruct (ws this). Qed.

Lemma guarded_send_run msg after args past this :
  (let* this := get in
   (if bool_decide (is_Some (ws this)) && connected this then ws_send msg else ret tt);;
   _callHook after args;;
   ret tt) past this
  = let ha := hook_run (hooks this) after args (past ++ sent this msg) in
    (match ha.1 with Return _ => Return tt | Throw e => Throw e end,
     this, sent this msg ++ ha.2).
Proof.
  unfold bind, get, ret, sent. simpl.
  destruct (ws this) as [w|] eqn:Hw, (this_connected this) eqn:Hc; simpl;
    rewrite ?ws_send_run, ?Hw; simpl;
    rewrite callHook_run, ?app_nil_r; simpl;
    destruct (hook_run _ _ _ _) as [[v|e] t]; simpl; by rewrite ?app_nil_r.
Qed.

Lemma subscribe_run topics past this :
  subscribe topics past this
  = let hb := hook_run (hooks this) "onBeforeSubscribe" [js_topics topics] past in
    match hb.1 with
    | Return _ =>
        let s := sent this (MsgSubscribe topics) in
        let ha := hook_run (hooks this) "onAfterSubscribe" [js_topics topics]
                    (past ++ hb.2 ++ s) in
        (match ha.1 with Return _ => Return tt | Throw e => Throw e end,
         this, hb.2 ++ s ++ ha.2)
    | Throw e => (Throw e, this, hb.2)
    end.
Proof.
  unfold subscribe, _doSubscribe. unfold bind at 1. rewrite callHook_run. cbv zeta.
  destruct (hook_run (hooks this) "onBeforeSubscribe" _ past) as [[v|e] t1]; simpl; [|done].
  by rewrite guarded_send_run, app_assoc.
Qed.

Lemma unsubscribe_run topics past this :
  unsubscribe topics past this
  = let hb := hook_run (hooks this) "onBeforeUnsubscribe" [js_topics topics] past in
    match hb.1 with
    | Return _ =>
        let s := sent this (MsgUnsubscribe topics) in
        let ha := hook_run (hooks this) "onAfterUnsubscribe" [js_topics topics]
                    (past ++ hb.2 ++ s) in
        (match ha.1 with Return _ => Return tt | Throw e => Throw e end,
         this, hb.2 ++ s ++ ha.2)
    | Throw e => (Throw e, this, hb.2)
    end.
Proof.
  unfold unsubscribe, _doUnsubscribe. unfold bind at 1. rewrite callHook_run. cbv zeta.
  destruct (hook_run (hooks this) "onBeforeUnsubscribe" _ past) as [[v|e] t1]; simpl; [|done].
  by rewrite guarded_send_run, app_assoc.
Qed.

Lemma default_publish_run topic data past this :
  publish topic data past this
  = let hb := hook_run (hooks this) "onBeforePublish" [topic; data] past in
    match hb.1 with
    | Return result =>
        let pair := published_pair result topic data in
        let s := sent this (MsgPublish pair.1 pair.2) in
        let ha := hook_run (hooks this) "onAfterPublish" [pair.1; pair.2]
                    (past ++ hb.2 ++ s) in
        (match ha.1 with Return _ => Return tt | Throw e => Throw e end,
         this, hb.2 ++ s ++ ha.2)
    | Throw e => (Throw e, this, hb.2)
    end.
Proof.
  unfold publish, _doPublish. unfold bind at 1. rewrite callHook_run. cbv zeta.
  destruct (hook_run (hooks this) "onBeforePublish" _ past) as [[result|e] t1]; simpl; [|done].
  pose proof (replaces_pair result topic data) as Hpair.
  destruct (published_pair result topic data) as [topic' data'].
  injection Hpair as -> ->.
  by rewrite guarded_send_run, app_assoc.
Qed.

Lemma sent_offline this msg :
  ws this = None ∨ connected this = false → sent this msg = [].
Proof.
  unfold sent. intros [->| Hc]; [done|].
  simpl in Hc. rewrite Hc. by destruct (ws this).
Qed.

(** The three operations as runs of their two hooks around what is
    sent. *)
Lemma default_subscribe_around topics past this :
  subscribe topics past this
  = hooks_around "onBeforeSubscribe" [js_topics topics]
      (λ _, sent this (MsgSubscribe topics))
      "onAfterSubscribe" (λ _, [js_topics topics]) past this.
Proof. by rewrite subscribe_run. Qed.

Lemma default_unsubscribe_around topics past this :
  unsubscribe topics past this
  = hooks_around "onBeforeUnsubscribe" [js_topics topics]
      (λ _, sent this (MsgUnsubscribe topics))
      "onAfterUnsubscribe" (λ _, [js_topics topics]) past this.
Proof. by rewrite unsubscribe_run. Qed.

Lemma default_publish_around topic data past this :
  publish topic data past this
  = hooks_around "onBeforePublish" [topic; data]
      (λ result, sent this (MsgPublish (published_pair result topic data).1
                              (published_pair result topic data).2))
      "onAfterPublish" (pair_args topic data) past this.
Proof. by rewrite default_publish_run. Qed.

(** Two runs of [hooks_around] that make the same calls between the hooks
    are the same run. *)
Lemma hooks_around_ext {S} `{SignalingAdapter S} before bargs (mid mid' : JsVal → list Event)
    after aargs past (this : S) :
  (∀ result, mid result = mid' result) →
  hooks_around before bargs mid after aargs past this
  = hooks_around before bargs mid' after aargs past this.
Proof.
  intros Hmid. unfold hooks_around.
  destruct (hook_run (hooks this) before bargs past).1 as [result|e]; [|done].
  by rewrite Hmid.
Qed.

(** A method made of a before hook, nothing, and an after hook. *)
Lemma hooks_only_quiet before bargs after (aargs : JsVal → list JsVal) past this :
  quiet this
    (let hb := hook_run (hooks this) before bargs past in
     match hb.1 with
     | Return result =>
         let ha := hook_run (hooks this) after (aargs result) (past ++ hb.2 ++ []) in
         (match ha.1 with Return _ => Return tt | Throw e => Throw e end,
          this, hb.2 ++ [] ++ ha.2)
     | Throw e => (Throw e, this, hb.2)
     end).
Proof.
  cbv zeta. unfold quiet, final, calls, outcome.
  pose proof (hook_run_calls (hooks this) before bargs past) as Hb.
  pose proof (hook_run_thrown (hooks this) before bargs past) as Hbe.
  destruct (hook_run (hooks this) before bargs past) as [[result|e] t1]; cbn [fst snd] in *.
  - pose proof (hook_run_calls (hooks this) after (aargs result) (past ++ t1 ++ [])) as Ha.
    pose proof (hook_run_thrown (hooks this) after (aargs result) (past ++ t1 ++ [])) as Hae.
    destruct (hook_run (hooks this) after (aargs result) (past ++ t1 ++ [])) as [[v|e] t2];
      cbn [fst snd] in *.
    + split_and!; [done|by apply Forall_app|done].
    + split_and!; [done|by apply Forall_app|]. intros e' [= <-]. by apply Hae.
  - split_and!; [done|done|]. intros e' [= <-]. by apply Hbe.
Qed.

Lemma default_connect_contract url :
  hook_contract "onBeforeConnect" "onAfterConnect" "onConnectError" [JStr url]
    (connect_effect backend url) (connect backend url).
Proof.
  apply try_hooks_contract; [done|done|..]; intros past this;
    rewrite connect_effect_run; cbv zeta.
  - by destruct (ws this), (ws_new_throws backend _ url).
  - pose proof (hook_run_elem (hooks this) "onBeforeDisconnect" [] past) as Hd.
    destruct (ws this), (ws_new_throws backend _ url); unfold calls; simpl;
      rewrite ?elem_of_app, ?list_elem_of_singleton;
      intros Hin; destruct_or?; try done; by destruct (Hd _ Hin) as [? _].
Qed.

Lemma default_disconnect_contract :
  hook_contract "onBeforeDisconnect" "onAfterDisconnect" "onDisconnectError" []
    (disconnect_effect backend) (disconnect backend).
Proof.
  apply try_hooks_contract; [done|done|..]; intros past this;
    rewrite disconnect_effect_run.
  - destruct (ws this) as [w|]; [|done]. by destruct (ws_disconnect_throws backend _ _).
  - destruct (ws this) as [w|]; [|set_solver].
    destruct (ws_disconnect_throws backend _ _); unfold calls; simpl;
      by intros [=]%list_elem_of_singleton.
Qed.

(** *** Tearing down *)

Lemma disconnect_effect_hooks past this :
  hooks (final (disconnect_effect backend past this)) = hooks this.
Proof.
  rewrite disconnect_effect_run.
  destruct (ws this) as [w|]; [|done]. by destruct (ws_disconnect_throws backend _ _).
Qed.

Lemma disconnect_effect_done past this :
  outcome (disconnect_effect backend past this) = Return tt →
  torn_down (final (disconnect_effect backend past this)).
Proof.
  rewrite disconnect_effect_run.
  destruct (ws this) as [w|] eqn:Hws; [|done].
  by destruct (ws_disconnect_throws backend _ _).
Qed.

(** A [disconnect] that returns leaves the object torn down. *)
Lemma default_disconnect_done past this :
  outcome (disconnect backend past this) = Return tt →
  torn_down (final (disconnect backend past this)).
Proof.
  unfold disconnect, disconnect_rest, disconnect_catch.
  rewrite try_rethrow_run, (body_run _ _ _ _ _ _ disconnect_effect_hooks). cbv zeta.
  destruct (hook_run (hooks this) "onBeforeDisconnect" [] past) as [[v|e] t1];
    cbn [fst snd].
  - pose proof (disconnect_effect_done (past ++ t1) this) as Hdone.
    destruct (outcome (disconnect_effect backend (past ++ t1) this)) as [[]|e] eqn:Heffect.
    + destruct (hook_run (hooks this) "onAfterDisconnect" [] _) as [[v'|e] t3];
        cbn [fst snd]; unfold outcome, final; cbn [fst snd].
      * intros _. by apply Hdone.
      * by destruct (hook_run _ _ _ _).1.
    + unfold outcome, final; cbn [fst snd]. by destruct (hook_run _ _ _ _).1.
  - unfold outcome, final; cbn [fst snd]. by destruct (hook_run _ _ _ _).1.
Qed.

Lemma torn_down_eta this : torn_down this → set_connected false this = this.
Proof. destruct this. intros [_ Hc]. simpl in *. by subst. Qed.

(** On an object that is torn down, [disconnect] is the run of its hooks
    and nothing else. *)
Lemma default_disconnect_torn_down past this :
  torn_down this →
  disconnect backend past this
  = hooks_guarded "onBeforeDisconnect" "onAfterDisconnect" "onDisconnectError" [] past this.
Proof.
  intros Hdown. unfold disconnect, disconnect_rest, disconnect_catch.
  rewrite try_rethrow_run, (body_run _ _ _ _ _ _ disconnect_effect_hooks).
  unfold hooks_guarded, hooks_around. cbv zeta.
  destruct (hook_run (hooks this) "onBeforeDisconnect" [] past) as [[v|e] t1];
    cbn [fst snd]; [|done].
  rewrite disconnect_effect_run. destruct (Hdown) as [Hws _]. rewrite Hws.
  unfold outcome, final, calls. cbn [fst snd]. rewrite (torn_down_eta this Hdown).
  by destruct (hook_run (hooks this) "onAfterDisconnect" [] _) as [[v'|e] t2].
Qed.

Lemma default_disconnect_rest_again X this :
  torn_down this →
  (∀ e, thrown_by_hook (hooks this) e → X e) →
  sound (λ this', this' = this) is_hook_call X (disconnect_rest backend).
Proof.
  intros Hdown HX. unfold disconnect_rest. apply sound_bind; [|intros _].
  - intros past ? ->. rewrite disconnect_effect_run.
    destruct Hdown as [Hws Hc]. rewrite Hws. unfold final, calls, outcome. simpl.
    split_and!; [by apply torn_down_eta|constructor|done].
  - apply sound_bind; [|intros _; apply sound_ret].
    apply sound_callHook; [done|]. intros ? e ->. apply HX.
Qed.

Lemma default_disconnect_catch_again X this e :
  X e → (∀ e, thrown_by_hook (hooks this) e → X e) →
  sound (λ this', this' = this) is_hook_call X (disconnect_catch e).
Proof.
  intros He HX. unfold disconnect_catch.
  apply sound_bind; [|intros _; by apply sound_throw].
  apply sound_callHook; [done|]. intros ? e' ->. apply HX.
Qed.

Lemma default_resume_again this task :
  torn_down this →
  sound (λ this', this' = this) is_hook_call (λ _, True) (resume backend task).
Proof.
  intros Hdown. destruct task as [before]. simpl.
  apply (sound_try_catch _ _ _ (λ _, True)).
  - apply sound_bind; [by apply sound_lift|intros _].
    by apply default_disconnect_rest_again.
  - intros e _. by apply default_disconnect_catch_again.
Qed.

Lemma suspended_eta this : suspended this = [] → set_suspended [] this = this.
Proof. destruct this. simpl. by intros ->. Qed.

Lemma destroy_run past this :
  destroy past this
  = (Return tt,
     set_suspended
       (suspended this ++ [DisconnectRest (hook_run (hooks this) "onBeforeDisconnect" [] past).1])
       this,
     (hook_run (hooks this) "onBeforeDisconnect" [] past).2 ++ [ObservableDestroy]).
Proof. unfold destroy. by rewrite bind_run, disconnect_unawaited_run. Qed.

Lemma settle_run past this :
  settle backend past this
  = for_each (suspended this) (λ task, attempt (resume backend task);; ret tt)
      past (set_suspended [] this).
Proof.
  unfold settle, bind, get, put. simpl. rewrite !app_nil_r.
  by destruct (for_each _ _ _ _) as [[r this1] t1].
Qed.

(** Running what is suspended on an object that, its list of suspended
    calls apart, is torn down. *)
Lemma default_settle_again this this' past :
  torn_down this → suspended this = [] → set_suspended [] this' = this →
  outcome (settle backend past this') = Return tt
  ∧ final (settle backend past this') = this
  ∧ Forall is_hook_call (calls (settle backend past this')).
Proof.
  intros Hdown Hnone Hsame. rewrite settle_run, Hsame. split.
  { apply for_each_attempt_returns. }
  cut (sound (λ this', this' = this) is_hook_call (λ _, True)
         (for_each (suspended this') (λ task, attempt (resume backend task);; ret tt))).
  { intros Hs. destruct (Hs past this eq_refl) as (? & ? & _). done. }
  apply sound_for_each. intros task _.
  apply sound_bind; [|intros _; apply sound_ret].
  apply (sound_attempt _ _ _ (λ _, True)). by apply default_resume_again.
Qed.

(** [destroy], followed by the run of what it left suspended, on an
    object that is torn down. *)
Lemma default_destroy_again this past :
  torn_down this → suspended this = [] →
  let run := (destroy;; settle backend) past this in
  outcome run = Return tt
  ∧ final run = this
  ∧ Forall (λ ev, is_hook_call ev ∨ ev = ObservableDestroy) (calls run).
Proof.
  intros Hdown Hnone. cbv zeta. rewrite bind_run, destroy_run.
  set (this' := set_suspended _ this).
  set (t1 := _ ++ [ObservableDestroy]).
  destruct (default_settle_again this this' (past ++ t1) Hdown Hnone) as (Hok & Hfinal & Hcalls).
  { unfold this'. destruct this. simpl in *. by subst. }
  unfold outcome, final, calls in *.
  destruct (settle backend (past ++ t1) this') as [[r this2] t2]. cbn [fst snd] in *.
  split_and!; [done..|].
  apply Forall_app. split.
  - unfold t1. apply Forall_app. split.
    + eapply Forall_impl; [apply hook_run_calls|]. by left.
    + constructor; [by right|constructor].
  - eapply Forall_impl; [exact Hcalls|]. by left.
Qed.

End DefaultFacts.

(** ** LaravelEchoAdapter *)

Section EchoFacts.

Import LaravelEchoAdapter.

Variable backend : Backend.

Implicit Types (this : LaravelEchoAdapter.t) (past : list Event).

Lemma echo_leave_sound I E X channelName :
  E (EchoLeave channelName) →
  (∀ past e, echo_leave_throws backend past channelName = Some e → X e) →
  X js_TypeError →
  sound I E X (echo_leave backend channelName).
Proof.
  intros HE HX HT. apply sound_get. intros this past HI.
  apply (sound_at I E X); [|exact HI].
  destruct (echo this).
  - by apply sound_call.
  - by apply sound_throw.
Qed.

Lemma echo_private_sound I E X channelName :
  E (EchoPrivate channelName) → X js_TypeError →
  sound I E X (echo_private channelName).
Proof.
  intros HE HT. apply sound_get. intros this past HI.
  apply (sound_at I E X); [|exact HI].
  destruct (echo this).
  - apply sound_bind; [by apply sound_log|intros _; apply sound_ret].
  - by apply sound_throw.
Qed.

(** The effects of [connect] and [disconnect] keep the hook table and
    call no hook. *)
Lemma echo_connect_effect_sound table :
  sound (λ this, hooks this = table) (λ ev, ¬ is_hook_call ev) (λ _, True) connect_effect.
Proof.
  unfold connect_effect.
  apply sound_bind; [apply sound_modify; intros ? Hh; exact Hh|intros _].
  apply sound_bind; [apply sound_modify; intros ? Hh; exact Hh|intros _].
  apply sound_get. intros this past HI. split_and!; [exact HI|constructor|done].
Qed.

Lemma echo_disconnect_effect_sound table :
  sound (λ this, hooks this = table) (λ ev, ¬ is_hook_call ev) (λ _, True)
    (disconnect_effect backend).
Proof.
  unfold disconnect_effect.
  apply sound_bind; [apply sound_modify; intros ? Hh; exact Hh|intros _].
  apply sound_bind; [apply sound_modify; intros ? Hh; exact Hh|intros _].
  apply sound_get. intros this past HI.
  apply (sound_at (λ this, hooks this = table) (λ ev, ¬ is_hook_call ev) (λ _, True));
    [|exact HI].
  apply sound_bind; [|intros _].
  { apply sound_for_each. intros entry _. apply echo_leave_sound; [|done..]. simpl. tauto. }
  apply sound_bind; [apply sound_modify; intros ? Hh; exact Hh|intros _].
  apply sound_bind; [apply sound_modify; intros ? Hh; exact Hh|intros _].
  apply sound_bind; [apply sound_modify; intros ? Hh; exact Hh|intros _].
  apply sound_log. simpl. tauto.
Qed.

Lemma echo_connect_contract url :
  hook_contract "onBeforeConnect" "onAfterConnect" "onConnectError" [JStr url]
    connect_effect (connect url).
Proof.
  apply try_hooks_contract; [done|done|..]; intros past this.
  - by apply (echo_connect_effect_sound (hooks this) past this).
  - intros Hin.
    destruct (echo_connect_effect_sound (hooks this) past this eq_refl) as (_ & Hcalls & _).
    rewrite Forall_forall in Hcalls. by apply (Hcalls _ Hin).
Qed.

Lemma echo_disconnect_contract :
  hook_contract "onBeforeDisconnect" "onAfterDisconnect" "onDisconnectError" []
    (disconnect_effect backend) (disconnect backend).
Proof.
  apply try_hooks_contract; [done|done|..]; intros past this.
  - by apply (echo_disconnect_effect_sound (hooks this) past this).
  - intros Hin.
    destruct (echo_disconnect_effect_sound (hooks this) past this eq_refl) as (_ & Hcalls & _).
    rewrite Forall_forall in Hcalls. by apply (Hcalls _ Hin).
Qed.

(** [_doSubscribe] in one step, when there is an Echo instance. *)
Lemma doSubscribe_run topic past this :
  is_Some (echo this) →
  _doSubscribe topic past this
  = (Return tt,
     set_channels
       (JsMap.set topic {| channel_name := _getChannelName topic |} (channels this)) this,
     [EchoPrivate (_getChannelName topic)]).
Proof.
  intros [e He]. unfold _doSubscribe, echo_private, bind, get, put, log, ret. simpl.
  by rewrite He.
Qed.

(** The loop of [subscribe] over its topics. *)
Lemma subscribe_loop_run (topics : list string) : ∀ past this,
  is_Some (echo this) →
  ∃ t,
    for_each topics
      (λ topic,
         let* this := get in
         if JsMap.has topic (channels this) then ret tt else _doSubscribe topic)
      past this
    = (Return tt, foldl open_topic this topics, t).
Proof.
  induction topics as [|topic topics IH]; intros past this Hecho; [by eexists|].
  cbn [for_each foldl]. rewrite bind_run, bind_get.
  unfold open_topic at 2.
  destruct (JsMap.has topic (channels this)) eqn:Hhas.
  - unfold ret at 1.
    destruct (IH (past ++ []) this Hecho) as [t ->]. by eexists.
  - rewrite doSubscribe_run by done.
    destruct (IH (past ++ [EchoPrivate (_getChannelName topic)])
                (set_channels
                   (JsMap.set topic {| channel_name := _getChannelName topic |} (channels this))
                   this) Hecho) as [t ->].
    by eexists.
Qed.

(** A [subscribe] that passes its gate and its before hook opens the
    channels of its topics, whatever its after hook does. *)
Lemma subscribe_final topics past this v :
  shouldConnect this = true → is_Some (echo this) →
  (hook_run (hooks this) "onBeforeSubscribe" [js_topics topics] past).1 = Return v →
  final (subscribe topics past this) = foldl open_topic this topics.
Proof.
  intros Hsc Hecho Hbefore. unfold subscribe.
  rewrite bind_run, callHook_run.
  destruct (hook_run (hooks this) "onBeforeSubscribe" _ past) as [r t1].
  cbn [fst snd] in *. subst r.
  rewrite bind_get.
  rewrite Hsc, bool_decide_true by done. cbn [negb orb].
  rewrite bind_run.
  destruct (subscribe_loop_run topics (past ++ t1) this Hecho) as [t2 ->].
  rewrite bind_run, callHook_run.
  by destruct (hook_run _ _ _ _) as [[v'|e] t3].
Qed.

Lemma open_topic_channel this topic :
  is_Some (JsMap.get topic (channels (open_topic this topic)))
  ∧ readyChannels (open_topic this topic) = readyChannels this
  ∧ messageQueue (open_topic this topic) = messageQueue this.
Proof.
  unfold open_topic. destruct (JsMap.has topic (channels this)) eqn:Hhas.
  - split; [|done]. by apply bool_decide_eq_true in Hhas.
  - split; [|done]. simpl. rewrite jsmap_get_set. eauto.
Qed.

Lemma whisper_run channel data past this :
  whisper channel data past this
  = (Return tt, this, [Whisper (channel_name channel) "signaling" data]).
Proof. done. Qed.

(** [_doPublish] in one step: nothing without a channel, a whisper on a
    ready channel, one more entry at the end of the topic's queue
    otherwise. *)
Lemma doPublish_run topic data past this :
  _doPublish topic data past this
  = match topic with
    | JStr topic =>
        match JsMap.get topic (channels this) with
        | Some channel =>
            if bool_decide (topic ∈ readyChannels this) then
              (Return tt, this, [Whisper (channel_name channel) "signaling" data])
            else
              (Return tt,
               set_messageQueue
                 (<[topic := default [] (messageQueue this !! topic) ++ [data]]>
                    (messageQueue this)) this,
               [])
        | None => (Return tt, this, [])
        end
    | _ => (Return tt, this, [])
    end.
Proof.
  unfold _doPublish, bind, get, put, ret. simpl.
  destruct topic as [| |b|n|topic|items|props]; try done.
  destruct (JsMap.get topic (channels this)) as [channel|]; [|done].
  case_bool_decide; [done|].
  destruct (messageQueue this !! topic) as [queue|] eqn:Hq; simpl.
  - assert (alter (λ queue0, queue0 ++ [data]) topic (messageQueue this)
            = <[topic := queue ++ [data]]> (messageQueue this)) as ->; [|done].
    apply map_eq. intros k.
    rewrite lookup_alter, lookup_insert. case_decide; [subst; by rewrite Hq|done].
  - assert (alter (λ queue, queue ++ [data]) topic (<[topic := []]> (messageQueue this))
            = <[topic := [data]]> (messageQueue this)) as ->; [|done].
    apply map_eq. intros k.
    rewrite lookup_alter, !lookup_insert. rewrite (decide_True (P := topic = topic)) by done.
    by repeat case_decide.
Qed.

Lemma doPublish_facts topic data past this :
  outcome (_doPublish topic data past this) = Return tt
  ∧ hooks (final (_doPublish topic data past this)) = hooks this.
Proof.
  rewrite doPublish_run.
  destruct topic as [| |b|n|topic|items|props]; try done.
  destruct (JsMap.get topic (channels this)); [|done].
  by case_bool_decide.
Qed.

Lemma echo_publish_run topic data past this :
  publish topic data past this
  = let hb := hook_run (hooks this) "onBeforePublish" [topic; data] past in
    match hb.1 with
    | Return result =>
        let pair := published_pair result topic data in
        let r := _doPublish pair.1 pair.2 (past ++ hb.2) this in
        let ha := hook_run (hooks this) "onAfterPublish" [pair.1; pair.2]
                    (past ++ hb.2 ++ calls r) in
        (match ha.1 with Return _ => Return tt | Throw e => Throw e end,
         final r, hb.2 ++ calls r ++ ha.2)
    | Throw e => (Throw e, this, hb.2)
    end.
Proof.
  unfold publish. unfold bind at 1. rewrite callHook_run. cbv zeta.
  destruct (hook_run (hooks this) "onBeforePublish" _ past) as [[result|e] t1];
    cbn [fst snd]; [|done].
  pose proof (replaces_pair result topic data) as Hpair.
  destruct (published_pair result topic data) as [topic' data'].
  injection Hpair as -> ->. cbn [fst snd].
  destruct (doPublish_facts topic' data' (past ++ t1) this) as [Hok Hh].
  unfold bind, ret, outcome, final, calls in *.
  destruct (_doPublish topic' data' (past ++ t1) this) as [[r this1] t2]; cbn [fst snd] in *.
  subst r. rewrite callHook_run, Hh, <- app_assoc.
  destruct (hook_run (hooks this) "onAfterPublish" _ _) as [[v|e] t3]; cbn [fst snd]; [|done].
  by rewrite app_nil_r.
Qed.

Lemma for_each_whisper channel (queue : list JsVal) : ∀ past this,
  for_each queue (λ data, whisper channel data) past this
  = (Return tt, this, (λ data, Whisper (channel_name channel) "signaling" data) <$> queue).
Proof.
  induction queue as [|data queue IH]; intros past this; [done|].
  simpl. unfold bind. rewrite whisper_run, IH. done.
Qed.

(** The acknowledgement of a subscription in one step. *)
Lemma subscribed_run topic channel past this :
  subscribed topic channel past this
  = (Return tt,
     set_messageQueue (delete topic (messageQueue this))
       (set_readyChannels ({[topic]} ∪ readyChannels this) this),
     (λ data, Whisper (channel_name channel) "signaling" data)
       <$> default [] (messageQueue this !! topic)).
Proof.
  unfold subscribed, bind, get, put. simpl.
  rewrite for_each_whisper. simpl. by rewrite app_nil_r.
Qed.

(** *** Leaving channels *)

Lemma leave_all_final (entries : JsMap.t Channel) past this :
  final (for_each entries (λ entry, echo_leave backend (_getChannelName entry.1)) past this)
  = this.
Proof.
  apply (sound_at (λ this', this' = this) (λ _, True) (λ _, True)); [|done].
  apply sound_for_each. intros entry _. by apply echo_leave_sound.
Qed.

(** The effect of [disconnect] either runs to its end, and the tables
    are cleared, or stops at a channel that cannot be left, and only the
    two flags have changed. *)
Lemma disconnect_effect_cases past this :
  let r := disconnect_effect backend past this in
  (outcome r = Return tt ∧ final r = cleared this)
  ∨ ((∃ e, outcome r = Throw e)
     ∧ final r = set_connected false (set_shouldConnect false this)).
Proof.
  cbv zeta. unfold disconnect_effect, bind, modify, get, log. simpl.
  pose proof (leave_all_final (channels this) ((((past ++ []) ++ []) ++ []))
                (set_connected false (set_shouldConnect false this))) as Hfinal.
  unfold final, outcome in *. simpl in *.
  destruct (for_each (channels this) _ _ _) as [[[[]|e] this1] t1]; simpl in *; subst this1.
  - by left.
  - right. eauto.
Qed.

Lemma doUnsubscribe_run topic past this :
  _doUnsubscribe backend topic past this
  = match JsMap.get topic (channels this) with
    | Some _ =>
        match echo this with
        | Some _ =>
            match echo_leave_throws backend past (_getChannelName topic) with
            | Some e => (Throw e, this, [EchoLeave (_getChannelName topic)])
            | None => (Return tt, removed topic this, [EchoLeave (_getChannelName topic)])
            end
        | None => (Throw js_TypeError, this, [])
        end
    | None => (Return tt, this, [])
    end.
Proof.
  unfold _doUnsubscribe, echo_leave, bind, get, put, call, throw, ret. simpl.
  destruct (JsMap.get topic (channels this)); [|done].
  destruct (echo this); [|done]. simpl. rewrite !app_nil_r.
  by destruct (echo_leave_throws backend past (_getChannelName topic)).
Qed.

(** *** The queue invariant, method by method *)

Lemma invariant_flags this b b' :
  queue_invariant this → queue_invariant (set_connected b (set_shouldConnect b' this)).
Proof. done. Qed.

Lemma invariant_cleared this : queue_invariant (cleared this).
Proof. intros topic [queue Hq]. simpl in Hq. by rewrite lookup_empty in Hq. Qed.

Lemma invariant_removed topic this :
  queue_invariant this → queue_invariant (removed topic this).
Proof.
  intros HI topic' Hq. simpl in *.
  destruct (decide (topic' = topic)) as [->|Hne].
  - rewrite lookup_delete_eq in Hq. by destruct Hq.
  - rewrite lookup_delete_ne in Hq by done.
    destruct (HI topic' Hq) as [Hkey Hready]. split.
    + by apply jsmap_keys_delete.
    + by intros [? _]%elem_of_difference.
Qed.

Lemma invariant_subscribed topic this :
  queue_invariant this →
  queue_invariant
    (set_messageQueue (delete topic (messageQueue this))
       (set_readyChannels ({[topic]} ∪ readyChannels this) this)).
Proof.
  intros HI topic' Hq. simpl in *.
  destruct (decide (topic' = topic)) as [->|Hne].
  - rewrite lookup_delete_eq in Hq. by destruct Hq.
  - rewrite lookup_delete_ne in Hq by done.
    destruct (HI topic' Hq) as [Hkey Hready]. split; [done|].
    by intros [?%elem_of_singleton|?]%elem_of_union.
Qed.

Lemma invariant_queued topic channel queue this :
  JsMap.get topic (channels this) = Some channel →
  topic ∉ readyChannels this →
  queue_invariant this →
  queue_invariant (set_messageQueue (<[topic := queue]> (messageQueue this)) this).
Proof.
  intros Hch Hready HI topic' Hq. simpl in *.
  destruct (decide (topic' = topic)) as [->|Hne].
  - split; [by eapply jsmap_get_keys|done].
  - rewrite lookup_insert_ne in Hq by done. by apply HI.
Qed.

Lemma invariant_opened topic channel this :
  queue_invariant this →
  queue_invariant (set_channels (JsMap.set topic channel (channels this)) this).
Proof.
  intros HI topic' Hq. simpl in *. destruct (HI topic' Hq) as [Hkey Hready].
  split; [by apply jsmap_keys_set|done].
Qed.

Ltac keeps_hook := apply sound_bind; [by apply sound_callHook|intros ?].

Lemma keeps_disconnect_effect : keeps (disconnect_effect backend).
Proof.
  intros past this HI. split_and!; [|by apply Forall_true|done].
  destruct (disconnect_effect_cases past this) as [[_ ->]|[_ ->]].
  - apply invariant_cleared.
  - by apply invariant_flags.
Qed.

Lemma keeps_disconnect_rest : keeps (disconnect_rest backend).
Proof.
  unfold disconnect_rest.
  apply sound_bind; [apply keeps_disconnect_effect|intros _].
  keeps_hook. apply sound_ret.
Qed.

Lemma keeps_disconnect_catch error : keeps (disconnect_catch error).
Proof. unfold disconnect_catch. keeps_hook. by apply sound_throw. Qed.

Lemma keeps_disconnect : keeps (disconnect backend).
Proof.
  unfold disconnect.
  apply (sound_try_catch _ _ _ (λ _, True)); [|intros; apply keeps_disconnect_catch].
  keeps_hook. apply keeps_disconnect_rest.
Qed.

Lemma keeps_connect url : keeps (connect url).
Proof.
  unfold connect, connect_catch, connect_effect.
  apply (sound_try_catch _ _ _ (λ _, True)).
  - keeps_hook.
    apply sound_bind; [|intros _].
    + apply sound_bind; [by apply sound_modify|intros _].
      apply sound_bind; [by apply sound_modify|intros _].
      apply sound_get. intros this past HI. split_and!; [done|constructor|done].
    + keeps_hook. apply sound_ret.
  - intros e _. keeps_hook. by apply sound_throw.
Qed.

Lemma keeps_doSubscribe topic : keeps (_doSubscribe topic).
Proof.
  unfold _doSubscribe. cbv zeta.
  apply sound_bind; [by apply echo_private_sound|intros channel].
  apply sound_get. intros this past HI. split_and!; [|constructor|done].
  by apply invariant_opened.
Qed.

Lemma keeps_subscribe topics : keeps (subscribe topics).
Proof.
  unfold subscribe.
  keeps_hook.
  apply sound_get. intros this past HI.
  apply (sound_at queue_invariant (λ _, True) (λ _, True)); [|done].
  destruct (negb (shouldConnect this) || negb (bool_decide (is_Some (echo this)))).
  - keeps_hook. apply sound_ret.
  - apply sound_bind; [|intros _].
    + apply sound_for_each. intros topic _.
      apply sound_get. intros this' past' HI'.
      apply (sound_at queue_invariant (λ _, True) (λ _, True)); [|done].
      destruct (JsMap.has topic (channels this')); [apply sound_ret|apply keeps_doSubscribe].
    + keeps_hook. apply sound_ret.
Qed.

Lemma keeps_doUnsubscribe topic : keeps (_doUnsubscribe backend topic).
Proof.
  intros past this HI. split_and!; [|by apply Forall_true|done].
  rewrite doUnsubscribe_run.
  destruct (JsMap.get topic (channels this)); [|done].
  destruct (echo this); [|done].
  destruct (echo_leave_throws backend past (_getChannelName topic)); [done|].
  by apply invariant_removed.
Qed.

Lemma keeps_unsubscribe topics : keeps (unsubscribe backend topics).
Proof.
  unfold unsubscribe.
  keeps_hook.
  apply sound_bind; [|intros _].
  - apply sound_for_each. intros topic _. apply keeps_doUnsubscribe.
  - keeps_hook. apply sound_ret.
Qed.

Lemma keeps_doPublish topic data : keeps (_doPublish topic data).
Proof.
  intros past this HI. split_and!; [|by apply Forall_true|done].
  rewrite doPublish_run.
  destruct topic as [| |b|n|topic|items|props]; try done.
  destruct (JsMap.get topic (channels this)) as [channel|] eqn:Hch; [|done].
  case_bool_decide; [done|]. by eapply invariant_queued.
Qed.

Lemma keeps_publish topic data : keeps (publish topic data).
Proof.
  unfold publish.
  keeps_hook.
  apply sound_bind; [apply keeps_doPublish|intros _].
  keeps_hook. apply sound_ret.
Qed.

Lemma keeps_subscribed topic channel : keeps (subscribed topic channel).
Proof.
  intros past this HI. split_and!; [|by apply Forall_true|done].
  rewrite subscribed_run. by apply invariant_subscribed.
Qed.

Lemma keeps_handleMessage message : keeps (_handleMessage message).
Proof.
  unfold _handleMessage.
  apply sound_bind; [|intros _; by apply sound_log].
  apply (sound_attempt _ _ _ (λ _, True)). by apply sound_callHook.
Qed.

Lemma keeps_destroy : keeps destroy.
Proof.
  unfold destroy, disconnect_unawaited.
  apply sound_bind; [|intros _; by apply sound_log].
  apply sound_bind; [|intros before].
  - apply (sound_attempt _ _ _ (λ _, True)). by apply sound_callHook.
  - apply sound_get. intros this past HI. split_and!; [done|constructor|done].
Qed.

Lemma keeps_resume task : keeps (resume backend task).
Proof.
  destruct task as [before|]; simpl.
  - apply (sound_try_catch _ _ _ (λ _, True)); [|intros; apply keeps_disconnect_catch].
    apply sound_bind; [by apply sound_lift|intros _]. apply keeps_disconnect_rest.
  - by apply sound_log.
Qed.

Lemma keeps_settle : keeps (settle backend).
Proof.
  unfold settle.
  apply sound_get. intros this past HI.
  apply (sound_at queue_invariant (λ _, True) (λ _, True)); [|done].
  apply sound_bind; [by apply sound_put|intros _].
  apply sound_for_each. intros task _.
  apply sound_bind; [|intros _; apply sound_ret].
  apply (sound_attempt _ _ _ (λ _, True)), keeps_resume.
Qed.

Lemma keeps_step s : keeps (step backend s).
Proof.
  destruct s; simpl.
  - apply keeps_connect.
  - apply keeps_disconnect.
  - apply keeps_subscribe.
  - apply keeps_unsubscribe.
  - apply keeps_publish.
  - apply keeps_subscribed.
  - by apply sound_log.
  - unfold listen. destruct (nullish event); [by apply sound_throw|].
    apply keeps_handleMessage.
  - apply keeps_handleMessage.
  - apply keeps_destroy.
  - apply keeps_settle.
Qed.

Lemma keeps_run steps : ∀ past this,
  queue_invariant this → queue_invariant (run backend steps past this).1.
Proof.
  induction steps as [|s steps IH]; intros past this HI; [done|].
  simpl. apply IH. by apply keeps_step.
Qed.

(** *** Tearing down *)

Lemma echo_disconnect_effect_hooks past this :
  hooks (final (disconnect_effect backend past this)) = hooks this.
Proof. by apply (echo_disconnect_effect_sound (hooks this) past this). Qed.

(** A [disconnect] that returns leaves the object torn down. *)
Lemma echo_disconnect_done past this :
  outcome (disconnect backend past this) = Return tt →
  torn_down (final (disconnect backend past this)).
Proof.
  unfold disconnect, disconnect_rest, disconnect_catch.
  rewrite try_rethrow_run, (body_run _ _ _ _ _ _ echo_disconnect_effect_hooks). cbv zeta.
  destruct (hook_run (hooks this) "onBeforeDisconnect" [] past) as [[v|e] t1];
    cbn [fst snd].
  - pose proof (disconnect_effect_cases (past ++ t1) this) as Hcases. cbv zeta in Hcases.
    destruct (outcome (disconnect_effect backend (past ++ t1) this)) as [[]|e] eqn:Heffect.
    + destruct (hook_run (hooks this) "onAfterDisconnect" [] _) as [[v'|e] t3];
        cbn [fst snd]; unfold outcome, final; cbn [fst snd].
      * intros _. destruct Hcases as [[_ Hfinal]|[[e He] _]]; [|done].
        unfold final in Hfinal. by rewrite Hfinal.
      * by destruct (hook_run _ _ _ _).1.
    + unfold outcome, final; cbn [fst snd]. by destruct (hook_run _ _ _ _).1.
  - unfold outcome, final; cbn [fst snd]. by destruct (hook_run _ _ _ _).1.
Qed.

(** On an object that is torn down, the effect of [disconnect] is the
    'disconnect' event and nothing else. *)
Lemma disconnect_effect_again past this :
  torn_down this →
  disconnect_effect backend past this = (Return tt, this, [Emit "disconnect" []]).
Proof.
  intros Hdown. assert (channels this = []) as Hch by (by rewrite <- Hdown).
  unfold disconnect_effect, bind, modify, get, log. simpl. rewrite Hch. simpl.
  change (set_messageQueue ∅ _) with (cleared this). unfold torn_down in Hdown.
  by rewrite Hdown.
Qed.

(** On an object that is torn down, [disconnect] is the run of its hooks
    around the 'disconnect' event. *)
Lemma echo_disconnect_torn_down past this :
  torn_down this →
  disconnect backend past this
  = hooks_guarded "onBeforeDisconnect" "onAfterDisconnect" "onDisconnectError"
      [Emit "disconnect" []] past this.
Proof.
  intros Hdown. unfold disconnect, disconnect_rest, disconnect_catch.
  rewrite try_rethrow_run, (body_run _ _ _ _ _ _ echo_disconnect_effect_hooks).
  unfold hooks_guarded, hooks_around. cbv zeta.
  destruct (hook_run (hooks this) "onBeforeDisconnect" [] past) as [[v|e] t1];
    cbn [fst snd]; [|done].
  rewrite disconnect_effect_again by done.
  unfold outcome, final, calls. cbn [fst snd].
  by destruct (hook_run (hooks this) "onAfterDisconnect" [] _) as [[v'|e] t2].
Qed.

Lemma echo_disconnect_rest_again X this :
  torn_down this →
  (∀ e, thrown_by_hook (hooks this) e → X e) →
  sound (λ this', this' = this) goodbye X (disconnect_rest backend).
Proof.
  intros Hdown HX. unfold disconnect_rest. apply sound_bind; [|intros _].
  - intros past ? ->. rewrite disconnect_effect_again by done.
    unfold final, calls, outcome. simpl.
    split_and!; [done| |done]. constructor; [by right|constructor].
  - apply sound_bind; [|intros _; apply sound_ret].
    apply sound_callHook; [by left|]. intros ? e ->. apply HX.
Qed.

Lemma echo_disconnect_catch_again X this e :
  X e → (∀ e, thrown_by_hook (hooks this) e → X e) →
  sound (λ this', this' = this) goodbye X (disconnect_catch e).
Proof.
  intros He HX. unfold disconnect_catch.
  apply sound_bind; [|intros _; by apply sound_throw].
  apply sound_callHook; [by left|]. intros ? e' ->. apply HX.
Qed.

Lemma echo_destroy_run past this :
  destroy past this
  = (Return tt,
     set_suspended
       (suspended this ++ [DisconnectRest (hook_run (hooks this) "onBeforeDisconnect" [] past).1])
       this,
     (hook_run (hooks this) "onBeforeDisconnect" [] past).2 ++ [ObservableDestroy]).
Proof.
  unfold destroy, disconnect_unawaited, bind, attempt, get, put, log.
  rewrite callHook_run. simpl. by rewrite !app_nil_r.
Qed.

Lemma echo_settle_run past this :
  settle backend past this
  = for_each (suspended this) (λ task, attempt (resume backend task);; ret tt)
      past (set_suspended [] this).
Proof.
  unfold settle, bind, get, put. simpl. rewrite !app_nil_r.
  by destruct (for_each _ _ _ _) as [[r this1] t1].
Qed.

(** [destroy], followed by the run of what it left suspended, on an
    object that is torn down. *)
Lemma echo_destroy_again this past :
  torn_down this → suspended this = [] →
  let run := (destroy;; settle backend) past this in
  outcome run = Return tt
  ∧ final run = this
  ∧ Forall (λ ev, goodbye ev ∨ ev = ObservableDestroy) (calls run).
Proof.
  intros Hdown Hnone. cbv zeta. rewrite bind_run, echo_destroy_run, echo_settle_run.
  rewrite Hnone. cbn [app suspended set_suspended].
  set (before := (hook_run (hooks this) "onBeforeDisconnect" [] past).1).
  set (t1 := _ ++ [ObservableDestroy]).
  assert (set_suspended [] (set_suspended [DisconnectRest before] this) = this) as Hback.
  { destruct this. simpl in *. by subst. }
  rewrite Hback.
  pose proof (for_each_attempt_returns [DisconnectRest before] (resume backend) (past ++ t1) this)
    as Hok.
  assert (sound (λ this', this' = this) goodbye (λ _, True)
            (for_each [DisconnectRest before] (λ task, attempt (resume backend task);; ret tt)))
    as Hs.
  { apply sound_for_each. intros task ->%list_elem_of_singleton.
    apply sound_bind; [|intros _; apply sound_ret].
    apply (sound_attempt _ _ _ (λ _, True)). simpl.
    apply (sound_try_catch _ _ _ (λ _, True)).
    - apply sound_bind; [by apply sound_lift|intros _].
      by apply echo_disconnect_rest_again.
    - intros e _. by apply echo_disconnect_catch_again. }
  destruct (Hs (past ++ t1) this eq_refl) as (Hfinal & Hcalls & _).
  unfold outcome, final, calls in *.
  destruct (for_each [DisconnectRest before] _ _ _) as [[r this2] t2]. cbn [fst snd] in *.
  split_and!; [done..|].
  apply Forall_app. split.
  - unfold t1. apply Forall_app. split.
    + eapply Forall_impl; [apply hook_run_calls|]. intros ev ?. left. by left.
    + constructor; [by right|constructor].
  - eapply Forall_impl; [exact Hcalls|]. by left.
Qed.

End EchoFacts.

(** ** The hook and error contract *)

(** C3, as amended: for [connect] and [disconnect] of both adapters and
    every hook table, the [onBeforeX] hook is the first call of the
    method and nothing of the operation happens when it throws; the
    [onAfterX] hook runs exactly when the operation did not fail; and
    when the [try] block fails, the [onXError] hook runs with the failure
    and the method fails, with that original failure when the error hook
    returns, with the error hook's own exception when it throws.  The
    caller never sees a success in place of a failure. *)
Theorem connect_disconnect_hook_contract backend url :
  hook_contract "onBeforeConnect" "onAfterConnect" "onConnectError" [JStr url]
    (DefaultSignalingAdapter.connect_effect backend url)
    (DefaultSignalingAdapter.connect backend url)
  ∧ hook_contract "onBeforeDisconnect" "onAfterDisconnect" "onDisconnectError" []
      (DefaultSignalingAdapter.disconnect_effect backend)
      (DefaultSignalingAdapter.disconnect backend)
  ∧ hook_contract "onBeforeConnect" "onAfterConnect" "onConnectError" [JStr url]
      LaravelEchoAdapter.connect_effect
      (LaravelEchoAdapter.connect url)
  ∧ hook_contract "onBeforeDisconnect" "onAfterDisconnect" "onDisconnectError" []
      (LaravelEchoAdapter.disconnect_effect backend)
      (LaravelEchoAdapter.disconnect backend).
Proof.
  split_and!.
  - apply default_connect_contract.
  - apply default_disconnect_contract.
  - apply echo_connect_contract.
  - apply echo_disconnect_contract.
Qed.

Lemma connect_disconnect_hook_contract_witness :
  let this := DefaultSignalingAdapter.new failing_error_hook in
  let run := DefaultSignalingAdapter.connect reliable "wss://signaling" [] this in
  ∃ rest, calls run = HookCall "onBeforeConnect" [JStr "wss://signaling"] :: rest.
Proof.
  destruct (connect_disconnect_hook_contract reliable "wss://signaling") as [Hconnect _].
  destruct (Hconnect [] (DefaultSignalingAdapter.new failing_error_hook)) as [Hfirst _].
  apply Hfirst. vm_compute. eauto.
Defined.

(** The failure of the operation is "connect refused"; what the caller
    of [connect] gets is the exception of the error hook. *)
Lemma error_hook_replaces_failure :
  let this := DefaultSignalingAdapter.new failing_error_hook in
  let operation :=
    (_callHook "onBeforeConnect" [JStr "wss://signaling"];;
     DefaultSignalingAdapter.connect_effect reliable "wss://signaling") [] this in
  let run := DefaultSignalingAdapter.connect reliable "wss://signaling" [] this in
  outcome operation = Throw (JStr "connect refused")
  ∧ calls run = [HookCall "onBeforeConnect" [JStr "wss://signaling"];
                 HookCall "onConnectError" [JStr "connect refused"]]
  ∧ outcome run = Throw (JStr "error hook failed")
  ∧ outcome run ≠ Throw (JStr "connect refused").
Proof. vm_compute. by split_and!. Qed.

(** A [connect] on an adapter that has a websocket starts a [disconnect]
    and does not wait for it: the rest of that [disconnect] runs once
    [_doConnect] has installed the new client, and closes that one. *)
Example reconnect_closes_new_client :
  let this := online no_hooks in
  let reconnect := DefaultSignalingAdapter.connect reliable "wss://other" [] this in
  let later :=
    DefaultSignalingAdapter.settle reliable (calls reconnect) (final reconnect) in
  calls reconnect = [WsNew "wss://other"]
  ∧ DefaultSignalingAdapter.ws (final reconnect)
    = Some {| DefaultSignalingAdapter.ws_url := "wss://other" |}
  ∧ calls later = [WsDisconnect "wss://other"]
  ∧ DefaultSignalingAdapter.ws (final later) = None.
Proof. vm_compute. done. Qed.

(** ** Publishing *)

(** C5, as amended: for every [DefaultSignalingAdapter] whose websocket is
    absent or whose [connected] flag is false, [subscribe], [unsubscribe]
    and [publish] send nothing to the backend and queue nothing: each is
    the run of its own two hooks with nothing in between
    ([hooks_around]).  The object is left as it was; the calls made are
    the call of the operation's before hook and, when that hook returns,
    the call of its after hook; and the operation raises an error exactly
    when one of these two calls throws it. *)
Theorem disconnected_operations_are_noops
    (this : DefaultSignalingAdapter.t) past topics topic data :
  DefaultSignalingAdapter.ws this = None ∨ connected this = false →
  DefaultSignalingAdapter.subscribe topics past this
  = hooks_around "onBeforeSubscribe" [js_topics topics] (λ _, [])
      "onAfterSubscribe" (λ _, [js_topics topics]) past this
  ∧ DefaultSignalingAdapter.unsubscribe topics past this
    = hooks_around "onBeforeUnsubscribe" [js_topics topics] (λ _, [])
        "onAfterUnsubscribe" (λ _, [js_topics topics]) past this
  ∧ DefaultSignalingAdapter.publish topic data past this
    = hooks_around "onBeforePublish" [topic; data] (λ _, [])
        "onAfterPublish" (pair_args topic data) past this.
Proof.
  intros Hoff.
  rewrite default_subscribe_around, default_unsubscribe_around, default_publish_around.
  split_and!; apply hooks_around_ext; intros result; by apply sent_offline.
Qed.

Lemma disconnected_operations_are_noops_witness :
  let this := DefaultSignalingAdapter.new vetoing_subscribe in
  DefaultSignalingAdapter.subscribe ["room"] [] this
  = hooks_around "onBeforeSubscribe" [js_topics ["room"]] (λ _, [])
      "onAfterSubscribe" (λ _, [js_topics ["room"]]) [] this
  ∧ DefaultSignalingAdapter.unsubscribe ["room"] [] this
    = hooks_around "onBeforeUnsubscribe" [js_topics ["room"]] (λ _, [])
        "onAfterUnsubscribe" (λ _, [js_topics ["room"]]) [] this
  ∧ DefaultSignalingAdapter.publish (JStr "room") (JStr "hello") [] this
    = hooks_around "onBeforePublish" [JStr "room"; JStr "hello"] (λ _, [])
        "onAfterPublish" (pair_args (JStr "room") (JStr "hello")) [] this.
Proof.
  apply (disconnected_operations_are_noops
           (DefaultSignalingAdapter.new vetoing_subscribe) [] ["room"] (JStr "room") (JStr "hello")).
  left. reflexivity.
Defined.

(** A disconnected adapter whose [onBeforeSubscribe] hook throws: the
    call of [subscribe] raises that error. *)
Lemma disconnected_subscribe_raises :
  let this := DefaultSignalingAdapter.new vetoing_subscribe in
  DefaultSignalingAdapter.ws this = None
  ∧ connected this = false
  ∧ outcome (DefaultSignalingAdapter.subscribe ["room"] [] this) = Throw (JStr "not now").
Proof. vm_compute. by split_and!. Qed.

(** C4: for every [publish(topic, data)] on either adapter, when the
    [onBeforePublish] hook returns [result] (or is missing, and the result
    is [undefined]), the pair [published_pair result topic data] is what
    the publish works with: a [result] that is an object with both a
    [topic] and a [data] field replaces the original pair, any other
    [result] leaves it unchanged.  The pair is what is sent (on the
    default adapter, when the websocket is there and connected), what
    [_doPublish] receives (on the Echo adapter), and what the
    [onAfterPublish] hook is called with. *)
Theorem publish_uses_hook_pair topic data past result :
  (∀ this : DefaultSignalingAdapter.t,
     let hb := hook_run (hooks this) "onBeforePublish" [topic; data] past in
     hb.1 = Return result →
     let pair := published_pair result topic data in
     let s := DefaultSignalingAdapter.sent this (MsgPublish pair.1 pair.2) in
     let ha := hook_run (hooks this) "onAfterPublish" [pair.1; pair.2] (past ++ hb.2 ++ s) in
     let run := DefaultSignalingAdapter.publish topic data past this in
     calls run = hb.2 ++ s ++ ha.2
     ∧ final run = this
     ∧ outcome run = match ha.1 with Return _ => Return tt | Throw e => Throw e end)
  ∧ (∀ this : LaravelEchoAdapter.t,
       let hb := hook_run (hooks this) "onBeforePublish" [topic; data] past in
       hb.1 = Return result →
       let pair := published_pair result topic data in
       let effect := LaravelEchoAdapter._doPublish pair.1 pair.2 (past ++ hb.2) this in
       let ha := hook_run (hooks this) "onAfterPublish" [pair.1; pair.2]
                   (past ++ hb.2 ++ calls effect) in
       let run := LaravelEchoAdapter.publish topic data past this in
       calls run = hb.2 ++ calls effect ++ ha.2
       ∧ final run = final effect
       ∧ outcome run = match ha.1 with Return _ => Return tt | Throw e => Throw e end).
Proof.
  split; intros this; cbv zeta; intros Hresult.
  - rewrite default_publish_run. cbv zeta. by rewrite Hresult.
  - rewrite echo_publish_run. cbv zeta. by rewrite Hresult.
Qed.

Lemma publish_uses_hook_pair_witness :
  calls (DefaultSignalingAdapter.publish (JStr "room") (JStr "hi") [] (online redirecting))
  = [HookCall "onBeforePublish" [JStr "room"; JStr "hi"];
     WsSend "wss://signaling" (MsgPublish (JStr "lobby") (JStr "hello"));
     HookCall "onAfterPublish" [JStr "lobby"; JStr "hello"]].
Proof.
  destruct (publish_uses_hook_pair (JStr "room") (JStr "hi") []
              (JObj [("topic", JStr "lobby"); ("data", JStr "hello")])) as [Hdefault _].
  destruct (Hdefault (online redirecting) eq_refl) as [Hcalls _].
  exact Hcalls.
Defined.

(** Results that are not an object with both fields leave the pair as it
    is; a field that is there but [undefined] counts. *)
Example published_pair_examples :
  published_pair JUndefined (JStr "room") (JNum 1) = (JStr "room", JNum 1)
  ∧ published_pair JNull (JStr "room") (JNum 1) = (JStr "room", JNum 1)
  ∧ published_pair (JStr "lobby") (JStr "room") (JNum 1) = (JStr "room", JNum 1)
  ∧ published_pair (JArr [JStr "lobby"; JNum 2]) (JStr "room") (JNum 1) = (JStr "room", JNum 1)
  ∧ published_pair (JObj [("topic", JStr "lobby")]) (JStr "room") (JNum 1)
    = (JStr "room", JNum 1)
  ∧ published_pair (JObj [("topic", JStr "lobby"); ("data", JUndefined)]) (JStr "room") (JNum 1)
    = (JStr "lobby", JUndefined).
Proof. by split_and!. Qed.

(** ** Queueing on the Echo adapter *)







Example queue_then_flush :
  let this := waiting no_hooks in
  let channel := {| LaravelEchoAdapter.channel_name := "y-webrtc.room" |} in
  let before :=
    for_each [JStr "offer"; JStr "answer"]
      (λ data, LaravelEchoAdapter._doPublish (JStr "room") data) [] this in
  LaravelEchoAdapter.messageQueue (final before) !! "room" = Some [JStr "offer"; JStr "answer"]
  ∧ calls (LaravelEchoAdapter.subscribed "room" channel [] (final before))
    = [Whisper "y-webrtc.room" "signaling" (JStr "offer");
       Whisper "y-webrtc.room" "signaling" (JStr "answer")].
Proof. vm_compute. done. Qed.

(** A [subscribe] on an adapter that was connected opens the channels of
    the topics. *)
Example subscribe_when_connected :
  let this :=
    LaravelEchoAdapter.set_shouldConnect true
      (LaravelEchoAdapter.new (Some LaravelEchoAdapter.EchoInstance) no_hooks) in
  LaravelEchoAdapter.channels (final (LaravelEchoAdapter.subscribe ["room"] [] this))
  = [("room", {| LaravelEchoAdapter.channel_name := "y-webrtc.room" |})].
Proof. reflexivity. Qed.

(** ** The factory *)

(** C7: [createSignalingAdapter] throws, at once, exactly when the
    configuration object selects the Echo backend ([type] is "echo")
    without an Echo instance; for every other argument it returns an
    adapter. *)
Theorem factory_fails_fast config :
  (∀ o, config = CObject o → type o = JStr "echo" → cfg_echo o = None →
        createSignalingAdapter config
        = Throw (js_Error "Laravel Echo instance is required for LaravelEchoAdapter"))
  ∧ ((¬ ∃ o, config = CObject o ∧ type o = JStr "echo" ∧ cfg_echo o = None) →
     ∃ adapter, createSignalingAdapter config = Return adapter).
Proof.
  split.
  - intros o -> Htype Hecho. simpl. by rewrite Htype, Hecho.
  - intros Hok. destruct config as [a|url|o| | |b|n]; simpl; eauto.
    destruct (type o) as [| |b|n|str|items|props] eqn:Htype; eauto.
    destruct (cfg_echo o) as [e|] eqn:Hecho; repeat case_match; eauto.
    subst. exfalso. apply Hok. eauto.
Qed.

Lemma factory_fails_fast_witness :
  createSignalingAdapter (CObject echo_config_incomplete)
  = Throw (js_Error "Laravel Echo instance is required for LaravelEchoAdapter")
  ∧ ∃ adapter, createSignalingAdapter (CObject echo_config_complete) = Return adapter.
Proof.
  split.
  - apply (proj1 (factory_fails_fast (CObject echo_config_incomplete)) echo_config_incomplete);
      reflexivity.
  - apply (proj2 (factory_fails_fast (CObject echo_config_complete))).
    intros (o & Ho & _ & Hecho). injection Ho as <-. discriminate Hecho.
Defined.

(** C9: an argument that is already an instance of [SignalingAdapter] is
    returned as it is; a string, and a configuration object whose [type]
    is not "echo", give a new [DefaultSignalingAdapter] (with no hooks for
    a string, with the hooks of the configuration for an object); and
    whenever the factory returns, it returns an adapter object. *)
Theorem factory_results :
  (∀ a, createSignalingAdapter (CInstance a) = Return a)
  ∧ (∀ url, createSignalingAdapter (CString url)
            = Return (IsDefault (DefaultSignalingAdapter.new no_hooks)))
  ∧ (∀ o, type o ≠ JStr "echo" →
          createSignalingAdapter (CObject o)
          = Return (IsDefault (DefaultSignalingAdapter.new (default no_hooks (cfg_hooks o)))))
  ∧ (∀ config,
       (∃ adapter, createSignalingAdapter config = Return adapter)
       ∨ (∃ e, createSignalingAdapter config = Throw e)).
Proof.
  split_and!; try done.
  - intros o Htype. simpl. repeat case_match; by subst.
  - intros config. destruct (createSignalingAdapter config); eauto.
Qed.

Lemma factory_results_witness :
  createSignalingAdapter (CObject default_config)
  = Return (IsDefault (DefaultSignalingAdapter.new redirecting)).
Proof.
  destruct factory_results as (_ & _ & Hobject & _).
  apply (Hobject default_config). discriminate.
Defined.

(** ** Tearing down twice *)

(** C8, as amended: for both adapters, once a [disconnect] has completed
    without error, a further [disconnect] leaves the adapter object
    (flags, websocket or channel tables, queues) exactly as it is and
    makes no backend call.  It is the run of its own hooks
    ([hooks_guarded]): [onBeforeDisconnect] is called, then (on the Echo
    adapter, after 'disconnect' has been emitted again)
    [onAfterDisconnect]; it raises an error exactly when one of these two
    calls throws, in which case [onDisconnectError] is called with the
    error and the call fails with it (or with what [onDisconnectError]
    throws).  A [destroy] never raises: it does not await the
    [disconnect] it starts; after a completed [disconnect] (and with
    nothing else suspended) a [destroy] and the run of the [disconnect]
    it started leave the object as it is as well, and call nothing but
    hooks, the 'disconnect' event (on the Echo adapter) and the
    observable's [destroy]. *)
Theorem teardown_twice backend :
  (∀ past (this : DefaultSignalingAdapter.t),
     let first := DefaultSignalingAdapter.disconnect backend past this in
     outcome first = Return tt →
     (∀ past',
        DefaultSignalingAdapter.disconnect backend past' (final first)
        = hooks_guarded "onBeforeDisconnect" "onAfterDisconnect" "onDisconnectError"
            [] past' (final first))
     ∧ (DefaultSignalingAdapter.suspended (final first) = [] → ∀ past',
          let again :=
            (DefaultSignalingAdapter.destroy;; DefaultSignalingAdapter.settle backend)
              past' (final first) in
          outcome again = Return tt
          ∧ final again = final first
          ∧ Forall (λ ev, is_hook_call ev ∨ ev = ObservableDestroy) (calls again)))
  ∧ (∀ past (this : LaravelEchoAdapter.t),
       let first := LaravelEchoAdapter.disconnect backend past this in
       outcome first = Return tt →
       (∀ past',
          LaravelEchoAdapter.disconnect backend past' (final first)
          = hooks_guarded "onBeforeDisconnect" "onAfterDisconnect" "onDisconnectError"
              [Emit "disconnect" []] past' (final first))
       ∧ (LaravelEchoAdapter.suspended (final first) = [] → ∀ past',
            let again :=
              (LaravelEchoAdapter.destroy;; LaravelEchoAdapter.settle backend)
                past' (final first) in
            outcome again = Return tt
            ∧ final again = final first
            ∧ Forall (λ ev, (is_hook_call ev ∨ ev = Emit "disconnect" [])
                            ∨ ev = ObservableDestroy) (calls again)))
  ∧ (∀ past (this : DefaultSignalingAdapter.t),
       outcome (DefaultSignalingAdapter.destroy past this) = Return tt)
  ∧ (∀ past (this : LaravelEchoAdapter.t),
       outcome (LaravelEchoAdapter.destroy past this) = Return tt).
Proof.
  split_and!.
  - intros past this first Hfirst.
    pose proof (default_disconnect_done backend past this Hfirst) as Hdown.
    split.
    + intros past'. by apply default_disconnect_torn_down.
    + intros Hnone past'. by apply default_destroy_again.
  - intros past this first Hfirst.
    pose proof (echo_disconnect_done backend past this Hfirst) as Hdown.
    split.
    + intros past'. by apply echo_disconnect_torn_down.
    + intros Hnone past'. by apply echo_destroy_again.
  - intros past this. by rewrite destroy_run.
  - intros past this. by rewrite echo_destroy_run.
Qed.

Lemma teardown_twice_witness :
  let first := DefaultSignalingAdapter.disconnect reliable [] (online releasing) in
  DefaultSignalingAdapter.disconnect reliable (calls first) (final first)
  = hooks_guarded "onBeforeDisconnect" "onAfterDisconnect" "onDisconnectError"
      [] (calls first) (final first).
Proof.
  destruct (teardown_twice reliable) as [Hdefault _].
  destruct (Hdefault [] (online releasing) eq_refl) as [Hagain _].
  exact (Hagain [WsDisconnect "wss://signaling"; HookCall "onAfterDisconnect" []]).
Defined.

(** An adapter whose [onBeforeDisconnect] hook throws: the second
    [disconnect] raises (as the first did). *)
Lemma second_disconnect_raises :
  let this := online refusing_disconnect in
  let first := DefaultSignalingAdapter.disconnect reliable [] this in
  let second := DefaultSignalingAdapter.disconnect reliable (calls first) (final first) in
  outcome second = Throw (JStr "busy").
Proof. vm_compute. reflexivity. Qed.

(** The first [disconnect] may well succeed: a hook that must not run
    twice makes only the second one fail.  The object is the same after
    both. *)
Example second_disconnect_raises_alone :
  let this := online releasing in
  let first := DefaultSignalingAdapter.disconnect reliable [] this in
  let second := DefaultSignalingAdapter.disconnect reliable (calls first) (final first) in
  outcome first = Return tt
  ∧ outcome second = Throw (JStr "already released")
  ∧ final second = final first.
Proof. vm_compute. done. Qed.

Example echo_disconnect_twice :
  let this := waiting no_hooks in
  let first := LaravelEchoAdapter.disconnect reliable [] this in
  let second := LaravelEchoAdapter.disconnect reliable (calls first) (final first) in
  calls first = [EchoLeave "y-webrtc.room"; Emit "disconnect" []]
  ∧ calls second = [Emit "disconnect" []]
  ∧ final second = final first.
Proof. vm_compute. done. Qed.

(** ** The queue invariant *)

(** C10: after any sequence of [connect], [disconnect], [subscribe],
    [unsubscribe], [publish] and [destroy] calls, of acknowledgements,
    errors and messages delivered by the backend, and of runs of the
    suspended calls, on a newly built [LaravelEchoAdapter], every topic
    with an entry in [messageQueue] is a key of [channels] and is not a
    member of [readyChannels]. *)
Theorem queue_invariant_holds backend echoInstance hooks steps :
  queue_invariant
    (run backend steps [] (LaravelEchoAdapter.new echoInstance hooks)).1.
Proof.
  apply keeps_run. intros topic [queue Hq]. simpl in Hq. by rewrite lookup_empty in Hq.
Qed.

(** The queue does fill up along such sequences, and is dropped by
    [unsubscribe]. *)
Example queue_fills_and_empties :
  let start := LaravelEchoAdapter.new (Some LaravelEchoAdapter.EchoInstance) no_hooks in
  let steps := [Connect "wss://unused"; Subscribe ["room"];
                Publish (JStr "room") (JStr "offer")] in
  LaravelEchoAdapter.messageQueue (run reliable steps [] start).1 !! "room"
  = Some [JStr "offer"]
  ∧ LaravelEchoAdapter.messageQueue
      (run reliable (steps ++ [Unsubscribe ["room"]]) [] start).1 !! "room" = None.
Proof. vm_compute. done. Qed.

(* ===================================================================== *)
(** * Further properties of the adapters                                   *)
(* ===================================================================== *)

(** ** Hooks that veto, errors that can be raised *)

Lemma hook_run_throw_calls table hookName args past e :
  (hook_run table hookName args past).1 = Throw e →
  (hook_run table hookName args past).2 = [HookCall hookName args].
Proof. unfold hook_run. by destruct (table hookName). Qed.

Lemma hook_run_split table hookName args past :
  (hook_run table hookName args past).2 = []
  ∨ (hook_run table hookName args past).2 = [HookCall hookName args].
Proof. unfold hook_run. destruct (table hookName); auto. Qed.

(** X1: on both adapters, an [onBeforeSubscribe], [onBeforeUnsubscribe]
    or [onBeforePublish] hook that throws vetoes the operation: the call
    fails with the hook's exception, the hook call is the only call made
    (nothing reaches the backend, the after hook is not called) and the
    adapter object is left as it was. *)
Theorem before_hook_vetoes backend topics topic data e past :
  (∀ this : DefaultSignalingAdapter.t,
     ((hook_run (hooks this) "onBeforeSubscribe" [js_topics topics] past).1 = Throw e →
      DefaultSignalingAdapter.subscribe topics past this
      = (Throw e, this, [HookCall "onBeforeSubscribe" [js_topics topics]]))
     ∧ ((hook_run (hooks this) "onBeforeUnsubscribe" [js_topics topics] past).1 = Throw e →
        DefaultSignalingAdapter.unsubscribe topics past this
        = (Throw e, this, [HookCall "onBeforeUnsubscribe" [js_topics topics]]))
     ∧ ((hook_run (hooks this) "onBeforePublish" [topic; data] past).1 = Throw e →
        DefaultSignalingAdapter.publish topic data past this
        = (Throw e, this, [HookCall "onBeforePublish" [topic; data]])))
  ∧ (∀ this : LaravelEchoAdapter.t,
       ((hook_run (hooks this) "onBeforeSubscribe" [js_topics topics] past).1 = Throw e →
        LaravelEchoAdapter.subscribe topics past this
        = (Throw e, this, [HookCall "onBeforeSubscribe" [js_topics topics]]))
       ∧ ((hook_run (hooks this) "onBeforeUnsubscribe" [js_topics topics] past).1 = Throw e →
          LaravelEchoAdapter.unsubscribe backend topics past this
          = (Throw e, this, [HookCall "onBeforeUnsubscribe" [js_topics topics]]))
       ∧ ((hook_run (hooks this) "onBeforePublish" [topic; data] past).1 = Throw e →
          LaravelEchoAdapter.publish topic data past this
          = (Throw e, this, [HookCall "onBeforePublish" [topic; data]]))).
Proof.
  split; intros this; split_and!; intros Hthrow;
    pose proof (hook_run_throw_calls _ _ _ _ _ Hthrow) as Hcalls.
  - rewrite subscribe_run. cbv zeta. by rewrite Hthrow, Hcalls.
  - rewrite unsubscribe_run. cbv zeta. by rewrite Hthrow, Hcalls.
  - rewrite default_publish_run. cbv zeta. by rewrite Hthrow, Hcalls.
  - unfold LaravelEchoAdapter.subscribe. rewrite operation_run. by rewrite Hthrow, Hcalls.
  - unfold LaravelEchoAdapter.unsubscribe. rewrite operation_run. by rewrite Hthrow, Hcalls.
  - rewrite echo_publish_run. cbv zeta. by rewrite Hthrow, Hcalls.
Qed.

Lemma before_hook_vetoes_witness :
  DefaultSignalingAdapter.subscribe ["room"] [] (online vetoing_subscribe)
  = (Throw (JStr "not now"), online vetoing_subscribe,
     [HookCall "onBeforeSubscribe" [js_topics ["room"]]]).
Proof.
  destruct (before_hook_vetoes reliable ["room"] (JStr "room") JNull (JStr "not now") [])
    as [Hdefault _].
  destruct (Hdefault (online vetoing_subscribe)) as [Hsubscribe _].
  apply Hsubscribe. reflexivity.
Defined.

(** ** The default adapter on line *)

Section DefaultOnline.

Import DefaultSignalingAdapter.

Variable backend : Backend.

Implicit Types (this : DefaultSignalingAdapter.t) (past : list Event).

Lemma sent_online this w msg :
  ws this = Some w → connected this = true → sent this msg = [WsSend (ws_url w) msg].
Proof. unfold sent. simpl. by intros -> ->. Qed.

(** X2: on a [DefaultSignalingAdapter] whose websocket is there and
    connected, a [subscribe] (an [unsubscribe]) whose before hook returns
    sends exactly one message to that websocket, of type 'subscribe'
    ('unsubscribe') and carrying the topics as given, after the before
    hook and before the after hook; the adapter object is left as it
    was. *)
Theorem online_subscription_sends_once this w topics past :
  ws this = Some w → connected this = true →
  (∀ v, (hook_run (hooks this) "onBeforeSubscribe" [js_topics topics] past).1 = Return v →
     let run := subscribe topics past this in
     let hb := hook_run (hooks this) "onBeforeSubscribe" [js_topics topics] past in
     let message := WsSend (ws_url w) (MsgSubscribe topics) in
     let ha := hook_run (hooks this) "onAfterSubscribe" [js_topics topics]
                 (past ++ hb.2 ++ [message]) in
     calls run = hb.2 ++ [message] ++ ha.2 ∧ final run = this)
  ∧ (∀ v, (hook_run (hooks this) "onBeforeUnsubscribe" [js_topics topics] past).1 = Return v →
       let run := unsubscribe topics past this in
       let hb := hook_run (hooks this) "onBeforeUnsubscribe" [js_topics topics] past in
       let message := WsSend (ws_url w) (MsgUnsubscribe topics) in
       let ha := hook_run (hooks this) "onAfterUnsubscribe" [js_topics topics]
                   (past ++ hb.2 ++ [message]) in
       calls run = hb.2 ++ [message] ++ ha.2 ∧ final run = this).
Proof.
  intros Hws Hconnected. split; intros v Hbefore; cbv zeta.
  - rewrite subscribe_run. cbv zeta.
    rewrite Hbefore, (sent_online this w _ Hws Hconnected). done.
  - rewrite unsubscribe_run. cbv zeta.
    rewrite Hbefore, (sent_online this w _ Hws Hconnected). done.
Qed.

Lemma online_subscription_sends_once_witness :
  calls (subscribe ["room"; "lobby"] [] (online no_hooks))
  = [WsSend "wss://signaling" (MsgSubscribe ["room"; "lobby"])]
  ∧ final (subscribe ["room"; "lobby"] [] (online no_hooks)) = online no_hooks.
Proof.
  destruct (online_subscription_sends_once (online no_hooks)
              {| ws_url := "wss://signaling" |} ["room"; "lobby"] [] eq_refl eq_refl)
    as [Hsubscribe _].
  exact (Hsubscribe JUndefined eq_refl).
Defined.

(** X3: in every state of a [DefaultSignalingAdapter], [subscribe],
    [unsubscribe] and [publish] are the run of their own two hooks around
    at most one [send]: the message is sent, on the adapter's own
    websocket, exactly when the websocket is there and [connected] is
    set, and otherwise nothing happens between the hooks.  The adapter
    object is left as it was, and the call raises an error exactly when
    its before hook or its after hook throws it: the guard
    [this.ws && this.connected] keeps [send] from being called on a
    missing websocket, so no [TypeError] comes from there. *)
Theorem operations_keep_the_adapter this past topics topic data :
  let send msg :=
    match ws this with
    | Some w => if connected this then [WsSend (ws_url w) msg] else []
    | None => []
    end in
  subscribe topics past this
  = hooks_around "onBeforeSubscribe" [js_topics topics] (λ _, send (MsgSubscribe topics))
      "onAfterSubscribe" (λ _, [js_topics topics]) past this
  ∧ unsubscribe topics past this
    = hooks_around "onBeforeUnsubscribe" [js_topics topics] (λ _, send (MsgUnsubscribe topics))
        "onAfterUnsubscribe" (λ _, [js_topics topics]) past this
  ∧ publish topic data past this
    = hooks_around "onBeforePublish" [topic; data]
        (λ result, send (MsgPublish (published_pair result topic data).1
                           (published_pair result topic data).2))
        "onAfterPublish" (pair_args topic data) past this.
Proof.
  cbv zeta.
  rewrite default_subscribe_around, default_unsubscribe_around, default_publish_around.
  done.
Qed.

End DefaultOnline.

(** ** Connecting the default adapter *)

Section DefaultConnect.

Import DefaultSignalingAdapter.

Variable backend : Backend.

Implicit Types (this : DefaultSignalingAdapter.t) (past : list Event).

Lemma connect_effect_hooks url past this :
  hooks (final (connect_effect backend url past this)) = hooks this.
Proof.
  rewrite connect_effect_run. cbv zeta.
  by destruct (ws this), (ws_new_throws backend _ url).
Qed.

(** The closed form of [connect]. *)
Lemma default_connect_run url past this :
  connect backend url past this
  = let b := (_callHook "onBeforeConnect" [JStr url];;
              connect_effect backend url;;
              _callHook "onAfterConnect" [JStr url];;
              ret tt) past this in
    match outcome b with
    | Return _ => b
    | Throw e0 =>
        let he := hook_run (hooks this) "onConnectError" [e0] (past ++ calls b) in
        (match he.1 with Return _ => Throw e0 | Throw e' => Throw e' end,
         final b, calls b ++ he.2)
    end.
Proof.
  unfold connect, connect_catch. rewrite try_rethrow_run. cbv zeta.
  rewrite (body_run _ _ _ _ _ _ (connect_effect_hooks url)). cbv zeta.
  destruct (hook_run (hooks this) "onBeforeConnect" [JStr url] past) as [[v|e] t1];
    cbn [fst snd]; [|done].
  pose proof (connect_effect_hooks url (past ++ t1) this) as Hhooks.
  destruct (connect_effect backend url (past ++ t1) this) as [[[[]|e] this1] t2];
    unfold outcome, final, calls in *; cbn [fst snd] in *.
  - destruct (hook_run (hooks this) "onAfterConnect" [JStr url] _) as [[v'|e] t3];
      cbn [fst snd]; [done|]. by rewrite Hhooks.
  - by rewrite Hhooks.
Qed.

(** X4: [connect(url)] on a [DefaultSignalingAdapter] that has no
    websocket, when [onBeforeConnect] returns and the client can be
    built: one client is built, for [url], between the two hooks; the
    adapter then holds that client and [url], whether or not
    [onAfterConnect] throws (a failure of the after hook makes the call
    fail but undoes nothing); and [connected] is as it was: [connect]
    does not mark the adapter connected, only the client's 'connect'
    event does. *)
Theorem connect_opens_websocket this url past v :
  ws this = None →
  (hook_run (hooks this) "onBeforeConnect" [JStr url] past).1 = Return v →
  ws_new_throws backend (past ++ (hook_run (hooks this) "onBeforeConnect" [JStr url] past).2) url
  = None →
  let hb := hook_run (hooks this) "onBeforeConnect" [JStr url] past in
  let ha := hook_run (hooks this) "onAfterConnect" [JStr url] (past ++ hb.2 ++ [WsNew url]) in
  let run := connect backend url past this in
  final run = set_ws (Some {| ws_url := url |}) (set_url url this)
  ∧ connected (final run) = connected this
  ∧ (∃ rest, calls run = hb.2 ++ [WsNew url] ++ ha.2 ++ rest
             ∧ Forall (λ ev, ∃ e, ev = HookCall "onConnectError" [e]) rest)
  ∧ (outcome run = Return tt ↔ ∃ v', ha.1 = Return v').
Proof.
  intros Hws Hbefore Hnew. cbv zeta.
  rewrite default_connect_run. cbv zeta.
  rewrite (body_run _ _ _ _ _ _ (connect_effect_hooks url)). cbv zeta.
  rewrite Hbefore, connect_effect_run, Hws. cbv zeta. rewrite app_nil_r, Hnew.
  unfold outcome, final, calls. cbn [fst snd app].
  destruct (hook_run (hooks this) "onAfterConnect" [JStr url] _) as [[v'|e] t3] eqn:Hafter;
    cbn [fst snd].
  - split_and!; [done|done| |].
    + exists []. by rewrite app_nil_r.
    + split; eauto.
  - split_and!; [done|done| |].
    + eexists. rewrite <- !app_assoc. split; [reflexivity|].
      match goal with
      | |- Forall _ (hook_run ?t ?n ?a ?p).2 =>
          destruct (hook_run_split t n a p) as [Hr|Hr]; rewrite Hr
      end; [constructor|apply Forall_singleton; eauto].
    + split; [|by intros [? [=]]].
      by destruct (hook_run (hooks this) "onConnectError" _ _).1.
Qed.

(** X5: [connect(url)] on a [DefaultSignalingAdapter] that has no
    websocket, when [onBeforeConnect] returns and building the client
    throws [e]: the adapter still has no websocket but [url] has been
    overwritten already; [onAfterConnect] is not called,
    [onConnectError] is called with [e], and the call fails (with [e]
    when the error hook returns). *)
Theorem failed_connect_keeps_url this url past v e :
  ws this = None →
  (hook_run (hooks this) "onBeforeConnect" [JStr url] past).1 = Return v →
  ws_new_throws backend (past ++ (hook_run (hooks this) "onBeforeConnect" [JStr url] past).2) url
  = Some e →
  let hb := hook_run (hooks this) "onBeforeConnect" [JStr url] past in
  let he := hook_run (hooks this) "onConnectError" [e] (past ++ hb.2 ++ [WsNew url]) in
  let run := connect backend url past this in
  final run = set_url url this
  ∧ calls run = hb.2 ++ [WsNew url] ++ he.2
  ∧ outcome run = match he.1 with Return _ => Throw e | Throw e' => Throw e' end.
Proof.
  intros Hws Hbefore Hnew. cbv zeta.
  rewrite default_connect_run. cbv zeta.
  rewrite (body_run _ _ _ _ _ _ (connect_effect_hooks url)). cbv zeta.
  rewrite Hbefore, connect_effect_run, Hws. cbv zeta. rewrite app_nil_r, Hnew.
  unfold outcome, final, calls. cbn [fst snd app].
  split_and!; [done| |done]. by rewrite <- app_assoc.
Qed.

End DefaultConnect.

Lemma connect_opens_websocket_witness :
  let run := DefaultSignalingAdapter.connect reliable "wss://signaling" [] (DefaultSignalingAdapter.new no_hooks) in
  final run
  = DefaultSignalingAdapter.set_ws (Some {| DefaultSignalingAdapter.ws_url := "wss://signaling" |})
      (DefaultSignalingAdapter.set_url "wss://signaling" (DefaultSignalingAdapter.new no_hooks))
  ∧ connected (final run) = false.
Proof.
  destruct (connect_opens_websocket reliable (DefaultSignalingAdapter.new no_hooks)
              "wss://signaling" [] JUndefined eq_refl eq_refl eq_refl)
    as (Hfinal & Hconnected & _).
  split; [exact Hfinal|exact Hconnected].
Defined.

Lemma failed_connect_keeps_url_witness :
  let this := DefaultSignalingAdapter.new no_hooks in
  let run := DefaultSignalingAdapter.connect unreachable "wss://nowhere" [] this in
  final run = DefaultSignalingAdapter.set_url "wss://nowhere" this
  ∧ calls run = [WsNew "wss://nowhere"]
  ∧ outcome run = Throw (js_Error "unreachable").
Proof.
  exact (failed_connect_keeps_url unreachable (DefaultSignalingAdapter.new no_hooks)
           "wss://nowhere" [] JUndefined (js_Error "unreachable") eq_refl eq_refl eq_refl).
Defined.

(** ** Calls that are not awaited *)

Lemma bind_lift_return {S A B} (a : A) (k : A → M S B) past this :
  bind (lift (Return a)) k past this = k a past this.
Proof.
  unfold bind, lift. rewrite app_nil_r. by destruct (k a past this) as [[r this1] t1].
Qed.

Lemma bind_lift_throw {S A B} e (k : A → M S B) past this :
  bind (lift (Throw e)) k past this = (Throw e, this, []).
Proof. done. Qed.

Section DefaultSuspended.

Import DefaultSignalingAdapter.

Variable backend : Backend.

Implicit Types (this : DefaultSignalingAdapter.t) (past : list Event).

Lemma disconnect_rest_run past this :
  disconnect_rest backend past this
  = let r := disconnect_effect backend past this in
    match outcome r with
    | Return _ =>
        let ha := hook_run (hooks this) "onAfterDisconnect" [] (past ++ calls r) in
        (match ha.1 with Return _ => Return tt | Throw e => Throw e end,
         final r, calls r ++ ha.2)
    | Throw e => (Throw e, final r, calls r)
    end.
Proof.
  unfold disconnect_rest. rewrite bind_run. cbv zeta.
  pose proof (disconnect_effect_hooks backend past this) as Hhooks.
  destruct (disconnect_effect backend past this) as [[[[]|e] this1] t1];
    unfold outcome, final, calls in *; cbn [fst snd] in *; [|done].
  rewrite bind_run, callHook_run, Hhooks.
  destruct (hook_run (hooks this) "onAfterDisconnect" [] (past ++ t1)) as [[v|e] t2];
    cbn [fst snd]; [|done].
  unfold ret. by rewrite app_nil_r.
Qed.

(** The rest of a [disconnect] whose before hook returned, on an adapter
    that holds a websocket client that can be closed. *)
Lemma resume_returned_run v past this w :
  ws this = Some w →
  ws_disconnect_throws backend past (ws_url w) = None →
  ∃ r rest,
    resume backend (DisconnectRest (Return v)) past this
    = (r, set_connected false (set_ws None this), WsDisconnect (ws_url w) :: rest)
    ∧ Forall is_hook_call rest.
Proof.
  intros Hws Hclose. unfold resume, disconnect_catch.
  rewrite try_rethrow_run. cbv zeta.
  rewrite bind_lift_return, disconnect_rest_run. cbv zeta.
  rewrite disconnect_effect_run, Hws, Hclose.
  unfold outcome, final, calls. cbn [fst snd].
  pose proof (hook_run_calls (hooks this) "onAfterDisconnect" []
                (past ++ [WsDisconnect (ws_url w)])) as Hafter.
  destruct (hook_run (hooks this) "onAfterDisconnect" [] _) as [[v'|e] t2]; cbn [fst snd] in *.
  - by eexists _, _.
  - eexists _, _. split; [reflexivity|].
    apply Forall_app. split; [done|]. apply hook_run_calls.
Qed.

(** The rest of a [disconnect] whose before hook threw: only the error
    hook is called. *)
Lemma resume_thrown_run e past this :
  resume backend (DisconnectRest (Throw e)) past this
  = (match (hook_run (hooks this) "onDisconnectError" [e] past).1 with
     | Return _ => Throw e
     | Throw e' => Throw e'
     end, this, (hook_run (hooks this) "onDisconnectError" [e] past).2).
Proof.
  unfold resume, disconnect_catch.
  rewrite try_rethrow_run. cbv zeta. rewrite bind_lift_throw.
  unfold outcome, final, calls. cbn [fst snd]. by rewrite app_nil_r.
Qed.

(** What is suspended is a single task. *)
Lemma settle_one task past this :
  suspended this = [task] →
  final (settle backend past this) = final (resume backend task past (set_suspended [] this))
  ∧ calls (settle backend past this) = calls (resume backend task past (set_suspended [] this))
  ∧ outcome (settle backend past this) = Return tt.
Proof.
  intros Htask. rewrite settle_run, Htask. cbn [for_each].
  rewrite !bind_run. unfold attempt.
  destruct (resume backend task past (set_suspended [] this)) as [[r this1] t1].
  unfold ret, outcome, final, calls. cbn [fst snd]. by rewrite !app_nil_r.
Qed.

(** X6: [connect(url)] on a [DefaultSignalingAdapter] that already holds
    a websocket client starts a [disconnect] and does not await it.  When
    the hooks return and the backend does not fail, the backend calls
    made by the [connect] and by the [disconnect] it started are these
    two, in this order: the new client is built, and a client is closed,
    which is the new one, since that is the client the adapter holds when
    the [disconnect] gets to it.  The client the adapter held before is
    not closed, and in the end the adapter holds no websocket. *)
Theorem reconnect_closes_new_client_only this w url past v vd :
  ws this = Some w → suspended this = [] →
  let hb := hook_run (hooks this) "onBeforeConnect" [JStr url] past in
  let hd := hook_run (hooks this) "onBeforeDisconnect" [] (past ++ hb.2) in
  hb.1 = Return v → hd.1 = Return vd →
  ws_new_throws backend (past ++ hb.2 ++ hd.2) url = None →
  (∀ past', ws_disconnect_throws backend past' url = None) →
  let reconnect := connect backend url past this in
  ∀ past',
    let later := settle backend past' (final reconnect) in
    ws (final later) = None
    ∧ connected (final later) = false
    ∧ ∃ before between rest,
        calls reconnect ++ calls later
        = before ++ [WsNew url] ++ between ++ [WsDisconnect url] ++ rest
        ∧ Forall is_hook_call (before ++ between ++ rest).
Proof.
  intros Hws Hnone hb hd Hbefore Hdisconnect Hnew Hclose reconnect.
  assert (∃ r t,
            reconnect
            = (r,
               set_ws (Some {| ws_url := url |})
                 (set_url url (set_suspended [DisconnectRest (Return vd)] this)),
               (hb.2 ++ hd.2) ++ [WsNew url] ++ t)
            ∧ Forall is_hook_call t) as (r & t & -> & Ht).
  { unfold reconnect. rewrite default_connect_run. cbv zeta.
    rewrite (body_run _ _ _ _ _ _ (connect_effect_hooks backend url)). cbv zeta.
    fold hb. rewrite Hbefore, connect_effect_run, Hws. cbv zeta.
    fold hd. rewrite Hdisconnect, Hnone, <- app_assoc, Hnew.
    unfold outcome, final, calls. cbn [fst snd app].
    pose proof (hook_run_calls (hooks this) "onAfterConnect" [JStr url]
                  (past ++ hb.2 ++ hd.2 ++ [WsNew url])) as Hafter.
    destruct (hook_run (hooks this) "onAfterConnect" [JStr url] _) as [[v'|e] t3];
      cbn [fst snd] in *.
    - eexists _, _. rewrite <- !app_assoc. by split.
    - eexists _, _. rewrite <- !app_assoc. split; [reflexivity|].
      apply Forall_app. split; [done|]. apply hook_run_calls. }
  intros past'. unfold final, calls. cbn [fst snd].
  set (this1 := set_ws _ _).
  destruct (settle_one (DisconnectRest (Return vd)) past' this1 eq_refl)
    as (Hfinal & Hcalls & _).
  destruct (resume_returned_run vd past' (set_suspended [] this1) {| ws_url := url |}
              eq_refl (Hclose past')) as (r' & rest & Hresume & Hrest).
  unfold final, calls in *. rewrite Hfinal, Hcalls, Hresume. cbn [fst snd].
  split_and!; [done|done|].
  exists (hb.2 ++ hd.2), t, rest. split.
  - rewrite <- !app_assoc. done.
  - rewrite !Forall_app. split_and!; [apply hook_run_calls|apply hook_run_calls|done|done].
Qed.

(** X7: [destroy()] on a [DefaultSignalingAdapter] that holds a websocket
    client returns with the client still open: it has called
    [onBeforeDisconnect] and dropped the event listeners, nothing more.
    The client is closed when the suspended [disconnect] resumes, if
    [onBeforeDisconnect] returned; if that hook threw, the client is never
    closed and the adapter keeps it. *)
Theorem destroy_closes_websocket_later this w past :
  ws this = Some w → suspended this = [] →
  let hb := hook_run (hooks this) "onBeforeDisconnect" [] past in
  let destroyed := destroy past this in
  outcome destroyed = Return tt
  ∧ calls destroyed = hb.2 ++ [ObservableDestroy]
  ∧ ws (final destroyed) = Some w
  ∧ connected (final destroyed) = connected this
  ∧ ∀ past',
      let later := settle backend past' (final destroyed) in
      (∀ v, hb.1 = Return v → ws_disconnect_throws backend past' (ws_url w) = None →
         ws (final later) = None
         ∧ connected (final later) = false
         ∧ ∃ rest, calls later = WsDisconnect (ws_url w) :: rest ∧ Forall is_hook_call rest)
      ∧ (∀ e, hb.1 = Throw e →
           ws (final later) = Some w
           ∧ connected (final later) = connected this
           ∧ Forall is_hook_call (calls later)).
Proof.
  intros Hws Hnone hb destroyed. unfold destroyed. rewrite destroy_run. fold hb.
  unfold outcome, final, calls. cbn [fst snd]. rewrite Hnone. cbn [app].
  split_and!; [done..|]. intros past'.
  set (this1 := set_suspended _ this).
  destruct (settle_one (DisconnectRest hb.1) past' this1 eq_refl) as (Hfinal & Hcalls & _).
  unfold final, calls in *. rewrite Hfinal, Hcalls. split.
  - intros v Hv Hclose. rewrite Hv.
    destruct (resume_returned_run v past' (set_suspended [] this1) w Hws Hclose)
      as (r' & rest & Hresume & Hrest).
    rewrite Hresume. cbn [fst snd]. split_and!; [done|done|]. by exists rest.
  - intros e He. rewrite He, resume_thrown_run. cbn [fst snd].
    split_and!; [done|done|]. apply hook_run_calls.
Qed.

End DefaultSuspended.

Lemma reconnect_closes_new_client_only_witness :
  let reconnect := DefaultSignalingAdapter.connect reliable "wss://other" [] (online no_hooks) in
  let later :=
    DefaultSignalingAdapter.settle reliable (calls reconnect) (final reconnect) in
  DefaultSignalingAdapter.ws (final later) = None
  ∧ ∃ before between rest,
      calls reconnect ++ calls later
      = before ++ [WsNew "wss://other"] ++ between ++ [WsDisconnect "wss://other"] ++ rest
      ∧ Forall is_hook_call (before ++ between ++ rest).
Proof.
  destruct (reconnect_closes_new_client_only reliable (online no_hooks)
              {| DefaultSignalingAdapter.ws_url := "wss://signaling" |} "wss://other" []
              JUndefined JUndefined eq_refl eq_refl eq_refl eq_refl eq_refl (λ _, eq_refl)
              [WsNew "wss://other"])
    as (Hws & _ & Hcalls).
  split; [exact Hws|exact Hcalls].
Defined.

Lemma destroy_closes_websocket_later_witness :
  let destroyed := DefaultSignalingAdapter.destroy [] (online refusing_disconnect) in
  let later :=
    DefaultSignalingAdapter.settle reliable (calls destroyed) (final destroyed) in
  outcome destroyed = Return tt
  ∧ DefaultSignalingAdapter.ws (final later)
    = Some {| DefaultSignalingAdapter.ws_url := "wss://signaling" |}.
Proof.
  destruct (destroy_closes_websocket_later reliable (online refusing_disconnect)
              {| DefaultSignalingAdapter.ws_url := "wss://signaling" |} [] eq_refl eq_refl)
    as (Hreturns & _ & _ & _ & Hlater).
  split; [exact Hreturns|].
  destruct (Hlater [HookCall "onBeforeDisconnect" []; ObservableDestroy]) as [_ Hthrown].
  destruct (Hthrown (JStr "busy") eq_refl) as [Hws _]. exact Hws.
Defined.

(** ** Messages that come in *)

Section Incoming.

Context {S : Type} `{SignalingAdapter S}.

(** What both [_handleMessage] methods do: the hook is called and not
    awaited, then 'message' is emitted. *)
Lemma handle_message_run (message : JsVal) past (this : S) :
  (attempt (_callHook "onMessage" [message]);; log (Emit "message" [message])) past this
  = (Return tt, this,
     (hook_run (hooks this) "onMessage" [message] past).2 ++ [Emit "message" [message]]).
Proof.
  rewrite bind_run. unfold attempt. rewrite callHook_run. done.
Qed.

End Incoming.

Lemma on_message_publish (message : JsVal) :
  js_get "type" message = JStr "publish" →
  DefaultSignalingAdapter.on_message message
  = DefaultSignalingAdapter._handleMessage
      (JObj [("topic", js_get "topic" message); ("data", js_get "data" message)]).
Proof.
  unfold DefaultSignalingAdapter.on_message. intros Htype.
  assert (nullish message = false) as -> by (by destruct message).
  by rewrite Htype.
Qed.

Lemma on_message_other (message : JsVal) :
  js_get "type" message ≠ JStr "publish" →
  DefaultSignalingAdapter.on_message message
  = if nullish message then throw js_TypeError else ret tt.
Proof.
  unfold DefaultSignalingAdapter.on_message. destruct (nullish message); [done|].
  destruct (js_get "type" message) as [| |b|n|s|items|props]; try done.
  intros Hs.
  do 7 (destruct s as [|[[] [] [] [] [] [] [] []] s]; try done).
  by destruct s.
Qed.

(** X8: the 'message' handler of a [DefaultSignalingAdapter], on a
    message that is an object, forwards published messages only: a
    message whose [type] is not 'publish' is dropped without a trace; for
    a message of type 'publish' the [onMessage] hook is called and
    'message' is emitted, both with an object that carries the [topic] and
    [data] of the message and nothing else.  The handler does not throw,
    even when the hook does (the hook is not awaited), and does not change
    the adapter. *)
Theorem default_message_forwarding (props : list (string * JsVal)) past
    (this : DefaultSignalingAdapter.t) :
  let message := JObj props in
  let run := DefaultSignalingAdapter.on_message message past this in
  let forwarded :=
    JObj [("topic", js_get "topic" message); ("data", js_get "data" message)] in
  outcome run = Return tt
  ∧ final run = this
  ∧ (js_get "type" message ≠ JStr "publish" → calls run = [])
  ∧ (js_get "type" message = JStr "publish" →
     calls run
     = (hook_run (hooks this) "onMessage" [forwarded] past).2
       ++ [Emit "message" [forwarded]]).
Proof.
  intros message. cbv zeta.
  assert (js_get "type" message = JStr "publish" ∨ js_get "type" message ≠ JStr "publish")
    as [Hpublish|Hother].
  { destruct (js_get "type" message) as [| |b|n|s|items|props']; try by right.
    destruct (decide (s = "publish")) as [->|Hs]; [by left|].
    right. by intros [= ->]. }
  - rewrite (on_message_publish message Hpublish).
    unfold DefaultSignalingAdapter._handleMessage. rewrite handle_message_run.
    by split_and!.
  - rewrite (on_message_other message Hother). by split_and!.
Qed.

Lemma default_message_forwarding_witness :
  let message :=
    JObj [("type", JStr "publish"); ("topic", JStr "room"); ("data", JNum 7);
          ("from", JStr "server")] in
  calls (DefaultSignalingAdapter.on_message message []
           (online (table_of [("onMessage", throwing (JStr "hook failed"))])))
  = [HookCall "onMessage" [JObj [("topic", JStr "room"); ("data", JNum 7)]];
     Emit "message" [JObj [("topic", JStr "room"); ("data", JNum 7)]]].
Proof.
  destruct (default_message_forwarding
              [("type", JStr "publish"); ("topic", JStr "room"); ("data", JNum 7);
               ("from", JStr "server")] []
              (online (table_of [("onMessage", throwing (JStr "hook failed"))])))
    as (_ & _ & _ & Hpublish).
  exact (Hpublish eq_refl).
Defined.

(** ** Histories of the default adapter *)

Section DefaultHistories.

Import DefaultSignalingAdapter.

Variable backend : Backend.

Implicit Types (this : DefaultSignalingAdapter.t) (past : list Event).


Ltac silent_hook := apply sound_bind; [by apply sound_callHook; [intros []|]|intros ?].
Ltac silent_at :=
  match goal with
  | |- _ (final (?m ?past ?this)) = false ∧ _ =>
      cut (silent m); [intros Hsilent; by apply Hsilent|]
  end.

Lemma publish_or_not (message : JsVal) :
  js_get "type" message = JStr "publish" ∨ js_get "type" message ≠ JStr "publish".
Proof.
  destruct (js_get "type" message) as [| |b|n|s|items|props]; try by right.
  destruct (decide (s = "publish")) as [->|Hs]; [by left|].
  right. by intros [= ->].
Qed.

Lemma silent_disconnect_unawaited : silent disconnect_unawaited.
Proof.
  unfold disconnect_unawaited.
  apply sound_bind; [|intros before].
  - apply (sound_attempt _ _ _ (λ _, True)). by apply sound_callHook; [intros []|].
  - apply sound_get. intros this past HI. split_and!; [done|constructor|done].
Qed.

Lemma silent_disconnect_rest : silent (disconnect_rest backend).
Proof.
  unfold disconnect_rest, disconnect_effect.
  apply sound_bind; [|intros _; silent_hook; apply sound_ret].
  apply sound_get. intros this past HI. silent_at.
  apply sound_bind; [|intros _; by apply sound_modify].
  destruct (ws this) as [w|]; [|apply sound_ret].
  apply sound_bind; [|intros _; by apply sound_modify].
  apply sound_call; [intros []|done].
Qed.

Lemma silent_disconnect_catch error : silent (disconnect_catch error).
Proof. unfold disconnect_catch. silent_hook. by apply sound_throw. Qed.

Lemma silent_guarded (m : M DefaultSignalingAdapter.t unit) after args :
  silent (let* this := get in
          (if bool_decide (is_Some (ws this)) && connected this then m else ret tt);;
          _callHook after args;;
          ret tt).
Proof.
  apply sound_get. intros this past HI. rewrite HI, andb_false_r.
  silent_at.
  apply sound_bind; [apply sound_ret|intros _]. silent_hook. apply sound_ret.
Qed.

Lemma silent_step s : s ≠ DefaultHistory.OnConnect → silent (DefaultHistory.step backend s).
Proof.
  intros Hs. destruct s; cbn [DefaultHistory.step]; try done.
  - unfold connect, connect_catch, connect_effect, _doConnect.
    apply (sound_try_catch _ _ _ (λ _, True)); [|intros e _; silent_hook; by apply sound_throw].
    silent_hook.
    apply sound_bind; [|intros _; silent_hook; apply sound_ret].
    apply sound_get. intros this past HI. silent_at.
    apply sound_bind; [|intros _].
    + destruct (ws this); [apply silent_disconnect_unawaited|apply sound_ret].
    + apply sound_bind; [by apply sound_modify|intros _].
      apply sound_bind; [|intros _; by apply sound_modify].
      apply sound_call; [intros []|done].
  - unfold disconnect.
    apply (sound_try_catch _ _ _ (λ _, True)); [|intros; apply silent_disconnect_catch].
    silent_hook. apply silent_disconnect_rest.
  - unfold subscribe. silent_hook. apply silent_guarded.
  - unfold unsubscribe. silent_hook. apply silent_guarded.
  - unfold publish. apply sound_bind; [by apply sound_callHook; [intros []|]|intros result].
    apply silent_guarded.
  - unfold on_disconnect. apply sound_bind; [by apply sound_modify|intros _].
    apply sound_log. intros [].
  - destruct (publish_or_not message) as [Hpublish|Hother].
    + rewrite (on_message_publish message Hpublish). unfold _handleMessage.
      apply sound_bind; [|intros _; apply sound_log; intros []].
      apply (sound_attempt _ _ _ (λ _, True)). by apply sound_callHook; [intros []|].
    + rewrite (on_message_other message Hother).
      destruct (nullish message); [by apply sound_throw|apply sound_ret].
  - unfold destroy. apply sound_bind; [apply silent_disconnect_unawaited|intros _].
    apply sound_log. intros [].
  - unfold settle. apply sound_get. intros this past HI.
    silent_at.
    apply sound_bind; [by apply sound_put|intros _].
    apply sound_for_each. intros task _.
    apply sound_bind; [|intros _; apply sound_ret].
    apply (sound_attempt _ _ _ (λ _, True)). destruct task as [before]. simpl.
    apply (sound_try_catch _ _ _ (λ _, True)); [|intros; apply silent_disconnect_catch].
    apply sound_bind; [by apply sound_lift|intros _]. apply silent_disconnect_rest.
Qed.

Lemma silent_run steps : ∀ past this,
  DefaultHistory.OnConnect ∉ steps →
  connected this = false → Forall (λ ev, ¬ is_send ev) past →
  connected (DefaultHistory.run backend steps past this).1 = false
  ∧ Forall (λ ev, ¬ is_send ev) (DefaultHistory.run backend steps past this).2.
Proof.
  induction steps as [|s steps IH]; intros past this Hsteps HI Hpast; [done|].
  apply not_elem_of_cons in Hsteps as [Hs Hsteps].
  destruct (silent_step s (not_eq_sym Hs) past this HI) as (HI' & Hcalls & _).
  simpl. apply IH; [done|done|]. by apply Forall_app.
Qed.

(** X9: whatever is done with a newly built [DefaultSignalingAdapter]
    (calls of its methods, in any order and with any hooks and backend,
    'disconnect' and 'message' events of its websocket clients, runs of
    the suspended calls), as long as no websocket client has reported
    'connect' the adapter is not [connected] and nothing has been sent on
    any websocket. *)
Theorem nothing_sent_before_connect_event hooks steps :
  DefaultHistory.OnConnect ∉ steps →
  let r := DefaultHistory.run backend steps [] (DefaultSignalingAdapter.new hooks) in
  connected r.1 = false ∧ ∀ url msg, WsSend url msg ∉ r.2.
Proof.
  intros Hsteps. cbv zeta.
  destruct (silent_run steps [] (DefaultSignalingAdapter.new hooks) Hsteps eq_refl)
    as [Hoff Hcalls]; [constructor|].
  split; [done|]. intros url msg Hin.
  rewrite Forall_forall in Hcalls. by apply (Hcalls _ Hin).
Qed.

End DefaultHistories.

Lemma nothing_sent_before_connect_event_witness :
  let steps :=
    [DefaultHistory.Connect "wss://signaling"; DefaultHistory.Subscribe ["room"];
     DefaultHistory.Publish (JStr "room") (JStr "offer"); DefaultHistory.Settle] in
  let r := DefaultHistory.run reliable steps [] (DefaultSignalingAdapter.new no_hooks) in
  connected r.1 = false ∧ ∀ url msg, WsSend url msg ∉ r.2.
Proof.
  apply (nothing_sent_before_connect_event reliable no_hooks).
  intros Hin. repeat (apply elem_of_cons in Hin as [Hin|Hin]; [discriminate Hin|]).
  by apply elem_of_nil in Hin.
Defined.

(** ** Connecting the Echo adapter *)

Section EchoConnect.

Import LaravelEchoAdapter.

Variable backend : Backend.

Implicit Types (this : LaravelEchoAdapter.t) (past : list Event).

Lemma echo_connect_effect_run past this :
  connect_effect past this
  = (Return tt,
     set_suspended (suspended this ++ [EmitConnect])
       (set_connected true (set_shouldConnect true this)),
     []).
Proof. done. Qed.

(** X10: [connect(url)] on a [LaravelEchoAdapter] emits nothing itself.
    When [onBeforeConnect] returns, the adapter is marked [shouldConnect]
    and [connected] at once and the 'connect' event is left to a timer,
    whether or not [onAfterConnect] throws afterwards; when the timer
    runs, 'connect' is emitted, once.  When [onBeforeConnect] throws, the
    adapter is left as it was and no event is scheduled. *)
Theorem echo_connect_defers_event url past this :
  let run := connect url past this in
  let hb := hook_run (hooks this) "onBeforeConnect" [JStr url] past in
  Forall is_hook_call (calls run)
  ∧ (∀ e, hb.1 = Throw e → final run = this)
  ∧ (∀ v, hb.1 = Return v →
       final run
       = set_suspended (suspended this ++ [EmitConnect])
           (set_connected true (set_shouldConnect true this))
       ∧ (suspended this = [] → ∀ past',
            let later := settle backend past' (final run) in
            calls later = [Emit "connect" []]
            ∧ final later = set_connected true (set_shouldConnect true this))).
Proof.
  cbv zeta. unfold connect, connect_catch.
  rewrite try_rethrow_run. cbv zeta.
  rewrite (body_run _ _ _ connect_effect _ _
             (λ past this, proj1 (echo_connect_effect_sound (hooks this) past this eq_refl))).
  cbv zeta. rewrite echo_connect_effect_run.
  pose proof (hook_run_calls (hooks this) "onBeforeConnect" [JStr url] past) as Hb.
  destruct (hook_run (hooks this) "onBeforeConnect" [JStr url] past) as [[v|e] t1];
    unfold outcome, final, calls; cbn [fst snd] in *.
  - rewrite app_nil_r. cbn [app].
    pose proof (hook_run_calls (hooks this) "onAfterConnect" [JStr url] (past ++ t1)) as Ha.
    assert (∀ this' : LaravelEchoAdapter.t, suspended this' = [EmitConnect] → ∀ past',
              calls (settle backend past' this') = [Emit "connect" []]
              ∧ final (settle backend past' this') = set_suspended [] this') as Hlater.
    { intros this' Htask past'. by rewrite echo_settle_run, Htask. }
    unfold final, calls in Hlater.
    destruct (hook_run (hooks this) "onAfterConnect" [JStr url] (past ++ t1)) as [[v'|e] t2];
      cbn [fst snd] in *.
    + split_and!; [by apply Forall_app|done|]. intros v0 _. split; [done|].
      intros Hnone past'. rewrite Hnone. cbn [app].
      destruct (Hlater (set_suspended [EmitConnect]
                          (set_connected true (set_shouldConnect true this))) eq_refl past')
        as [-> ->].
      split; [done|]. destruct this. simpl in *. by subst.
    + split_and!; [|done|].
      * rewrite !Forall_app. split_and!; [done|done|apply hook_run_calls].
      * intros v0 _. split; [done|].
        intros Hnone past'. rewrite Hnone. cbn [app].
        destruct (Hlater (set_suspended [EmitConnect]
                            (set_connected true (set_shouldConnect true this))) eq_refl past')
          as [-> ->].
        split; [done|]. destruct this. simpl in *. by subst.
  - split_and!; [|done|done].
    apply Forall_app. split; [done|apply hook_run_calls].
Qed.

End EchoConnect.

(** ** Subscribing and unsubscribing on the Echo adapter *)

Section JsMapLookups.

Context {V : Type}.

Implicit Types (m : JsMap.t V) (k : string).

Lemma jsmap_get_is_key k m : is_Some (JsMap.get k m) ↔ k ∈ JsMap.keys m.
Proof.
  induction m as [|[k' v] m IH]; simpl.
  - split; [by intros [? [=]]|by intros ?%elem_of_nil].
  - destruct (decide (k' = k)) as [->|Hne].
    + split; [intros _; by left|eauto].
    + rewrite IH. split; [by right|]. intros [->|Hin]%elem_of_cons; [done|done].
Qed.

Lemma jsmap_has_key k m : JsMap.has k m = bool_decide (k ∈ JsMap.keys m).
Proof. unfold JsMap.has. apply bool_decide_ext, jsmap_get_is_key. Qed.

Lemma jsmap_get_none k m : JsMap.get k m = None ↔ k ∉ JsMap.keys m.
Proof. rewrite <- jsmap_get_is_key, eq_None_not_Some. done. Qed.

Lemma jsmap_get_set_ne k k' v m : k ≠ k' → JsMap.get k' (JsMap.set k v m) = JsMap.get k' m.
Proof.
  intros Hne. induction m as [|[k0 v0] m IH]; simpl.
  - by rewrite decide_False.
  - destruct (decide (k0 = k)) as [->|Hk0]; simpl.
    + by rewrite !decide_False.
    + by rewrite IH.
Qed.

Lemma jsmap_keys_set_new k v m : k ∉ JsMap.keys m → JsMap.keys (JsMap.set k v m) = JsMap.keys m ++ [k].
Proof.
  induction m as [|[k0 v0] m IH]; simpl; [done|].
  intros [Hne Hin]%not_elem_of_cons.
  rewrite decide_False by done. simpl. unfold JsMap.keys in *. by rewrite IH.
Qed.

Lemma jsmap_get_delete k k' m :
  JsMap.get k' (JsMap.delete k m) = if decide (k' = k) then None else JsMap.get k' m.
Proof.
  unfold JsMap.delete, JsMap.t in *. induction m as [|[k0 v0] m IH].
  - simpl. by destruct (decide (k' = k)).
  - destruct (decide (k0 = k)) as [->|Hk0].
    + rewrite filter_cons_False by (simpl; tauto). rewrite IH. cbn [JsMap.get].
      destruct (decide (k' = k)) as [->|Hk']; [done|]. by rewrite decide_False.
    + rewrite filter_cons_True by done. cbn [JsMap.get]. rewrite IH.
      destruct (decide (k0 = k')) as [->|Hk0']; [by rewrite decide_False|done].
Qed.

Lemma jsmap_keys_delete_filter k m :
  JsMap.keys (JsMap.delete k m) = filter (λ k', k' ≠ k) (JsMap.keys m).
Proof.
  unfold JsMap.delete, JsMap.keys, JsMap.t in *. induction m as [|[k0 v0] m IH]; [done|].
  rewrite fmap_cons. cbn [fst].
  destruct (decide (k0 = k)) as [->|Hk0].
  - rewrite !filter_cons_False by (simpl; tauto). done.
  - rewrite !filter_cons_True by done. rewrite fmap_cons. cbn [fst]. by rewrite IH.
Qed.

End JsMapLookups.

Section TopicLists.

Implicit Types (known topics : list string) (topic : string).

Lemma to_open_ext known known' topics :
  (∀ topic, topic ∈ known ↔ topic ∈ known') → to_open known topics = to_open known' topics.
Proof.
  revert known known'. induction topics as [|topic topics IH]; intros known known' Hsame; [done|].
  simpl. rewrite (bool_decide_ext _ _ (Hsame topic)).
  case_bool_decide; [by apply IH|]. f_equal. apply IH.
  intros topic'. rewrite !elem_of_cons, Hsame. done.
Qed.

Lemma to_open_spec known topics :
  NoDup (to_open known topics)
  ∧ ∀ topic, topic ∈ to_open known topics ↔ topic ∈ topics ∧ topic ∉ known.
Proof.
  revert known. induction topics as [|topic0 topics IH]; intros known; simpl.
  - split; [constructor|]. intros topic. rewrite elem_of_nil. tauto.
  - case_bool_decide as Hknown.
    + destruct (IH known) as [Hnodup Hin]. split; [done|].
      intros topic. rewrite Hin, elem_of_cons. split; [tauto|].
      intros [[->|?] ?]; [done|tauto].
    + destruct (IH (topic0 :: known)) as [Hnodup Hin]. split.
      * constructor; [|done]. rewrite Hin, elem_of_cons. tauto.
      * intros topic. rewrite !elem_of_cons, Hin, elem_of_cons.
        destruct (decide (topic = topic0)) as [->|Hne]; [tauto|]. tauto.
Qed.

Lemma to_leave_spec known topics :
  NoDup (to_leave known topics)
  ∧ ∀ topic, topic ∈ to_leave known topics ↔ topic ∈ topics ∧ topic ∈ known.
Proof.
  revert known. induction topics as [|topic0 topics IH]; intros known; simpl.
  - split; [constructor|]. intros topic. rewrite elem_of_nil. tauto.
  - case_bool_decide as Hknown.
    + destruct (IH (filter (λ known_topic, known_topic ≠ topic0) known)) as [Hnodup Hin].
      split.
      * constructor; [|done]. rewrite Hin, list_elem_of_filter. tauto.
      * intros topic. rewrite !elem_of_cons, Hin, list_elem_of_filter.
        destruct (decide (topic = topic0)) as [->|Hne]; [tauto|]. tauto.
    + destruct (IH known) as [Hnodup Hin]. split; [done|].
      intros topic. rewrite Hin, elem_of_cons. split; [tauto|].
      intros [[->|?] ?]; [done|tauto].
Qed.

End TopicLists.

Section EchoTopics.

Import LaravelEchoAdapter.

Variable backend : Backend.

Implicit Types (this : LaravelEchoAdapter.t) (past : list Event) (topic : string).

Lemma open_topic_echo this topic : echo (open_topic this topic) = echo this.
Proof. unfold open_topic. by destruct (JsMap.has topic (channels this)). Qed.

Lemma open_topic_new this topic :
  topic ∉ JsMap.keys (channels this) →
  open_topic this topic
  = set_channels
      (JsMap.set topic {| channel_name := _getChannelName topic |} (channels this)) this.
Proof. intros Hnew. unfold open_topic. by rewrite jsmap_has_key, bool_decide_false. Qed.

Lemma open_topic_keys this topic known :
  (∀ topic', topic' ∈ known ↔ topic' ∈ JsMap.keys (channels this)) →
  bool_decide (topic ∈ known) = false →
  ∀ topic', topic' ∈ topic :: known ↔ topic' ∈ JsMap.keys (channels (open_topic this topic)).
Proof.
  intros Hknown Hnew topic'. apply bool_decide_eq_false in Hnew.
  unfold open_topic. rewrite jsmap_has_key, bool_decide_false by by rewrite <- Hknown.
  simpl. rewrite jsmap_keys_set_new by by rewrite <- Hknown.
  rewrite elem_of_cons, elem_of_app, list_elem_of_singleton, Hknown. tauto.
Qed.

(** The loop of [subscribe]. *)
Lemma subscribe_loop_calls (topics : list string) : ∀ known past this,
  is_Some (echo this) →
  (∀ topic, topic ∈ known ↔ topic ∈ JsMap.keys (channels this)) →
  for_each topics
    (λ topic,
       let* this := get in
       if JsMap.has topic (channels this) then ret tt else _doSubscribe topic)
    past this
  = (Return tt, foldl open_topic this topics,
     (λ topic, EchoPrivate (_getChannelName topic)) <$> to_open known topics).
Proof.
  induction topics as [|topic topics IH]; intros known past this Hecho Hknown; [done|].
  cbn [for_each foldl to_open]. rewrite bind_run, bind_get.
  pose proof (open_topic_keys this topic known Hknown) as Hkeys.
  assert (JsMap.has topic (channels this) = bool_decide (topic ∈ known)) as Hhas_eq.
  { rewrite jsmap_has_key. apply bool_decide_ext. symmetry. apply Hknown. }
  destruct (bool_decide (topic ∈ known)) eqn:Hhas.
  - assert (open_topic this topic = this) as -> by (unfold open_topic; by rewrite Hhas_eq).
    rewrite Hhas_eq. unfold ret at 1. by rewrite (IH known (past ++ []) this Hecho Hknown).
  - specialize (Hkeys eq_refl).
    assert (open_topic this topic
            = set_channels
                (JsMap.set topic {| channel_name := _getChannelName topic |} (channels this))
                this) as Hopen by (unfold open_topic; by rewrite Hhas_eq).
    rewrite Hopen in *. rewrite Hhas_eq, doSubscribe_run by done.
    set (this' := set_channels _ this) in *.
    rewrite (IH (topic :: known) (past ++ [EchoPrivate (_getChannelName topic)]) this'
               Hecho Hkeys).
    by rewrite fmap_cons.
Qed.

(** What [subscribe] leaves in the three tables. *)
Lemma open_topics_tables (topics : list string) : ∀ known this,
  (∀ topic, topic ∈ known ↔ topic ∈ JsMap.keys (channels this)) →
  (∀ topic,
     JsMap.get topic (channels (foldl open_topic this topics))
     = if bool_decide (topic ∈ to_open known topics)
       then Some {| channel_name := _getChannelName topic |}
       else JsMap.get topic (channels this))
  ∧ readyChannels (foldl open_topic this topics) = readyChannels this
  ∧ messageQueue (foldl open_topic this topics) = messageQueue this.
Proof.
  induction topics as [|topic0 topics IH]; intros known this Hknown; [done|].
  cbn [foldl to_open].
  pose proof (open_topic_keys this topic0 known Hknown) as Hkeys.
  destruct (open_topic_channel this topic0) as (_ & Hready & Hqueue).
  destruct (bool_decide (topic0 ∈ known)) eqn:Hhas.
  - assert (open_topic this topic0 = this) as ->.
    { unfold open_topic. rewrite jsmap_has_key, <- (bool_decide_ext _ _ (Hknown topic0)).
      by rewrite Hhas. }
    by apply IH.
  - destruct (IH (topic0 :: known) (open_topic this topic0) (Hkeys eq_refl))
      as (Hget & -> & ->).
    split_and!; [|done..]. intros topic. rewrite Hget.
    destruct (to_open_spec (topic0 :: known) topics) as [_ Hin].
    apply bool_decide_eq_false in Hhas.
    assert (topic0 ∉ JsMap.keys (channels this)) as Hnokey
        by (intros Hkey; by apply Hknown in Hkey).
    rewrite (open_topic_new this topic0 Hnokey).
    simpl. destruct (decide (topic = topic0)) as [->|Hne].
    + rewrite bool_decide_false by (rewrite Hin, elem_of_cons; tauto).
      rewrite bool_decide_true by by left. apply jsmap_get_set.
    + rewrite jsmap_get_set_ne by done.
      rewrite (bool_decide_ext (topic ∈ topic0 :: to_open (topic0 :: known) topics)
                 (topic ∈ to_open (topic0 :: known) topics)); [done|].
      rewrite elem_of_cons. tauto.
Qed.

Lemma echo_subscribe_gated topics past this :
  shouldConnect this = false ∨ echo this = None →
  subscribe topics past this
  = let hb := hook_run (hooks this) "onBeforeSubscribe" [js_topics topics] past in
    match hb.1 with
    | Return _ =>
        let ha := hook_run (hooks this) "onAfterSubscribe" [js_topics topics]
                    (past ++ hb.2) in
        (match ha.1 with Return _ => Return tt | Throw e => Throw e end, this, hb.2 ++ ha.2)
    | Throw e => (Throw e, this, hb.2)
    end.
Proof.
  intros Hgate. unfold subscribe. rewrite bind_run, callHook_run. cbv zeta.
  destruct (hook_run (hooks this) "onBeforeSubscribe" _ past) as [[v|e] t1];
    cbn [fst snd]; [|done].
  rewrite bind_get.
  assert (negb (shouldConnect this) || negb (bool_decide (is_Some (echo this))) = true) as ->.
  { destruct Hgate as [-> | ->]; [done|]. rewrite bool_decide_false by by intros [? [=]].
    by rewrite orb_true_r. }
  rewrite bind_run, callHook_run.
  destruct (hook_run (hooks this) "onAfterSubscribe" _ _) as [[v'|e] t2];
    cbn [fst snd]; unfold ret; by rewrite ?app_nil_r.
Qed.

Lemma echo_subscribe_open topics past this :
  shouldConnect this = true → is_Some (echo this) →
  subscribe topics past this
  = let hb := hook_run (hooks this) "onBeforeSubscribe" [js_topics topics] past in
    match hb.1 with
    | Return _ =>
        let privates :=
          (λ topic, EchoPrivate (_getChannelName topic))
            <$> to_open (JsMap.keys (channels this)) topics in
        let ha := hook_run (hooks this) "onAfterSubscribe" [js_topics topics]
                    (past ++ hb.2 ++ privates) in
        (match ha.1 with Return _ => Return tt | Throw e => Throw e end,
         foldl open_topic this topics, hb.2 ++ privates ++ ha.2)
    | Throw e => (Throw e, this, hb.2)
    end.
Proof.
  intros Hsc Hecho. unfold subscribe. rewrite bind_run, callHook_run. cbv zeta.
  destruct (hook_run (hooks this) "onBeforeSubscribe" _ past) as [[v|e] t1];
    cbn [fst snd]; [|done].
  rewrite bind_get, Hsc, bool_decide_true by done. cbn [negb orb].
  rewrite bind_run.
  rewrite (subscribe_loop_calls topics (JsMap.keys (channels this)) (past ++ t1) this Hecho)
    by done.
  rewrite bind_run, callHook_run.
  assert (hooks (foldl open_topic this topics) = hooks this) as ->.
  { clear. revert this. induction topics as [|topic topics IH]; intros this; [done|].
    cbn [foldl]. rewrite IH. unfold open_topic. by destruct (JsMap.has _ _). }
  rewrite <- app_assoc.
  destruct (hook_run (hooks this) "onAfterSubscribe" _ _) as [[v'|e] t2];
    cbn [fst snd]; unfold ret; by rewrite ?app_nil_r.
Qed.

(** X11: [subscribe(topics)] on a [LaravelEchoAdapter] that should not
    be connected ([connect] was never called, or [disconnect] was called
    since) or that has no Echo instance opens no channel: the adapter is
    left as it was and nothing is called but [onBeforeSubscribe] and
    [onAfterSubscribe], which are both still called.  In particular,
    after a [disconnect] that returned, [subscribe] opens nothing. *)
Theorem subscribe_without_connect_is_ignored topics past this :
  (shouldConnect this = false ∨ echo this = None →
   let hb := hook_run (hooks this) "onBeforeSubscribe" [js_topics topics] past in
   let ha := hook_run (hooks this) "onAfterSubscribe" [js_topics topics] (past ++ hb.2) in
   subscribe topics past this
   = match hb.1 with
     | Return _ =>
         (match ha.1 with Return _ => Return tt | Throw e => Throw e end, this, hb.2 ++ ha.2)
     | Throw e => (Throw e, this, hb.2)
     end)
  ∧ (∀ past', outcome (disconnect backend past this) = Return tt →
       let this' := final (disconnect backend past this) in
       final (subscribe topics past' this') = this'
       ∧ Forall is_hook_call (calls (subscribe topics past' this'))).
Proof.
  split.
  - intros Hgate. by rewrite echo_subscribe_gated.
  - intros past' Hdone. cbv zeta.
    pose proof (echo_disconnect_done backend past this Hdone) as Hdown.
    set (this' := final (disconnect backend past this)) in *.
    assert (shouldConnect this' = false) as Hsc by (by rewrite <- Hdown).
    rewrite (echo_subscribe_gated topics past' this') by by left. cbv zeta.
    pose proof (hook_run_calls (hooks this') "onBeforeSubscribe" [js_topics topics] past') as Hb.
    destruct (hook_run (hooks this') "onBeforeSubscribe" _ past') as [[v|e] t1];
      unfold final, calls; cbn [fst snd] in *; [|done].
    split; [done|]. apply Forall_app. split; [done|apply hook_run_calls].
Qed.

(** X12: [subscribe(topics)] on a [LaravelEchoAdapter] that should be
    connected and has its Echo instance, when [onBeforeSubscribe]
    returns: [echo.private] is called once for each topic of the list
    that has no channel yet, at the first occurrence of the topic, with
    the channel name 'y-webrtc.' followed by the topic, and for no other
    topic; these topics get the channel so opened, every other topic
    keeps the channel it had (or none); the ready set and the message
    queue are not touched. *)
Theorem subscribe_opens_each_topic_once topics past this v :
  shouldConnect this = true → is_Some (echo this) →
  (hook_run (hooks this) "onBeforeSubscribe" [js_topics topics] past).1 = Return v →
  let hb := hook_run (hooks this) "onBeforeSubscribe" [js_topics topics] past in
  let opened := to_open (JsMap.keys (channels this)) topics in
  let privates := (λ topic, EchoPrivate ("y-webrtc." +:+ topic)) <$> opened in
  let ha := hook_run (hooks this) "onAfterSubscribe" [js_topics topics]
              (past ++ hb.2 ++ privates) in
  let run := subscribe topics past this in
  calls run = hb.2 ++ privates ++ ha.2
  ∧ NoDup opened
  ∧ (∀ topic, topic ∈ opened ↔ topic ∈ topics ∧ JsMap.get topic (channels this) = None)
  ∧ (∀ topic,
       JsMap.get topic (channels (final run))
       = if bool_decide (topic ∈ opened)
         then Some {| channel_name := "y-webrtc." +:+ topic |}
         else JsMap.get topic (channels this))
  ∧ readyChannels (final run) = readyChannels this
  ∧ messageQueue (final run) = messageQueue this.
Proof.
  intros Hsc Hecho Hbefore. cbv zeta.
  rewrite (echo_subscribe_open topics past this Hsc Hecho). cbv zeta. rewrite Hbefore.
  unfold final, calls. cbn [fst snd].
  destruct (to_open_spec (JsMap.keys (channels this)) topics) as [Hnodup Hin].
  destruct (open_topics_tables topics (JsMap.keys (channels this)) this) as (Hget & Hr & Hq);
    [done|].
  split_and!; [done|done| |done|done|done].
  intros topic. by rewrite Hin, jsmap_get_none.
Qed.

Lemma close_topic_known this topic :
  topic ∈ JsMap.keys (channels this) → close_topic this topic = removed topic this.
Proof. intros Hin. unfold close_topic. by rewrite jsmap_has_key, bool_decide_true. Qed.

Lemma close_topic_unknown this topic :
  topic ∉ JsMap.keys (channels this) → close_topic this topic = this.
Proof. intros Hin. unfold close_topic. by rewrite jsmap_has_key, bool_decide_false. Qed.

(** The loop of [unsubscribe], when every channel can be left. *)
Lemma unsubscribe_loop_calls (topics : list string) : ∀ past this,
  is_Some (echo this) →
  (∀ past' name, echo_leave_throws backend past' name = None) →
  for_each topics (λ topic, _doUnsubscribe backend topic) past this
  = (Return tt, foldl close_topic this topics,
     (λ topic, EchoLeave (_getChannelName topic))
       <$> to_leave (JsMap.keys (channels this)) topics).
Proof.
  induction topics as [|topic topics IH]; intros past this Hecho Hleave; [done|].
  cbn [for_each foldl to_leave]. rewrite bind_run, doUnsubscribe_run.
  destruct Hecho as [e He]. rewrite He, Hleave.
  case_bool_decide as Hkey.
  - rewrite (close_topic_known this topic Hkey).
    apply jsmap_get_is_key in Hkey as [channel ->].
    rewrite (IH _ (removed topic this)) by (simpl; eauto).
    simpl. by rewrite jsmap_keys_delete_filter.
  - rewrite (close_topic_unknown this topic Hkey).
    apply jsmap_get_none in Hkey as ->.
    by rewrite (IH _ this) by eauto.
Qed.

(** What [unsubscribe] leaves in the three tables. *)
Lemma close_topics_tables (topics : list string) : ∀ this,
  hooks (foldl close_topic this topics) = hooks this
  ∧ (∀ topic,
       JsMap.get topic (channels (foldl close_topic this topics))
       = if bool_decide (topic ∈ topics) then None else JsMap.get topic (channels this))
  ∧ (∀ topic,
       topic ∈ readyChannels (foldl close_topic this topics)
       ↔ topic ∈ readyChannels this ∧ topic ∉ to_leave (JsMap.keys (channels this)) topics)
  ∧ (∀ topic,
       messageQueue (foldl close_topic this topics) !! topic
       = if bool_decide (topic ∈ to_leave (JsMap.keys (channels this)) topics)
         then None
         else messageQueue this !! topic).
Proof.
  induction topics as [|topic0 topics IH]; intros this.
  { split_and!; [done|done| |done]. intros topic. simpl. rewrite elem_of_nil. tauto. }
  cbn [foldl to_leave].
  destruct (IH (close_topic this topic0)) as (Hhooks & Hget & Hready & Hqueue).
  case_bool_decide as Hkey.
  - rewrite (close_topic_known this topic0 Hkey) in *.
    simpl in Hhooks, Hget, Hready, Hqueue.
    rewrite jsmap_keys_delete_filter in Hready, Hqueue.
    split_and!; [done|..]; intros topic.
    + rewrite Hget, jsmap_get_delete.
      destruct (decide (topic = topic0)) as [->|Hne].
      * rewrite (bool_decide_true (topic0 ∈ topic0 :: topics)) by by left.
        by destruct (bool_decide _).
      * apply (f_equal (λ b : bool, if b then None else JsMap.get topic (channels this))).
        apply bool_decide_ext. rewrite elem_of_cons. tauto.
    + rewrite Hready, elem_of_difference, elem_of_singleton, elem_of_cons. tauto.
    + rewrite Hqueue.
      destruct (decide (topic = topic0)) as [->|Hne].
      * rewrite (bool_decide_true (topic0 ∈ topic0 :: _)) by by left.
        rewrite lookup_delete_eq. by destruct (bool_decide _).
      * rewrite lookup_delete_ne by done.
        apply (f_equal (λ b : bool, if b then None else messageQueue this !! topic)).
        apply bool_decide_ext. rewrite elem_of_cons. tauto.
  - rewrite (close_topic_unknown this topic0 Hkey) in *.
    split_and!; [done| |done|done]. intros topic. rewrite Hget.
    destruct (decide (topic = topic0)) as [->|Hne].
    + rewrite (bool_decide_true (topic0 ∈ topic0 :: topics)) by by left.
      apply jsmap_get_none in Hkey as ->. by destruct (bool_decide _).
    + apply (f_equal (λ b : bool, if b then None else JsMap.get topic (channels this))).
      apply bool_decide_ext. rewrite elem_of_cons. tauto.
Qed.

(** X13: [unsubscribe(topics)] on a [LaravelEchoAdapter] that has its
    Echo instance, when [onBeforeUnsubscribe] returns and the channels can
    be left: [echo.leave] is called once for each topic of the list that
    has a channel, at the first occurrence of the topic, with the channel
    name 'y-webrtc.' followed by the topic, and for no other topic (a
    topic without a channel is passed over); afterwards no topic of the
    list has a channel, the topics whose channel was left are not ready
    and have no queued messages, and nothing else has changed in the
    three tables. *)
Theorem unsubscribe_forgets_topics topics past this v :
  is_Some (echo this) →
  (∀ past' name, echo_leave_throws backend past' name = None) →
  (hook_run (hooks this) "onBeforeUnsubscribe" [js_topics topics] past).1 = Return v →
  let hb := hook_run (hooks this) "onBeforeUnsubscribe" [js_topics topics] past in
  let left := to_leave (JsMap.keys (channels this)) topics in
  let leaves := (λ topic, EchoLeave ("y-webrtc." +:+ topic)) <$> left in
  let ha := hook_run (hooks this) "onAfterUnsubscribe" [js_topics topics]
              (past ++ hb.2 ++ leaves) in
  let run := unsubscribe backend topics past this in
  calls run = hb.2 ++ leaves ++ ha.2
  ∧ NoDup left
  ∧ (∀ topic, topic ∈ left ↔ topic ∈ topics ∧ is_Some (JsMap.get topic (channels this)))
  ∧ (∀ topic,
       JsMap.get topic (channels (final run))
       = if bool_decide (topic ∈ topics) then None else JsMap.get topic (channels this))
  ∧ (∀ topic,
       topic ∈ readyChannels (final run) ↔ topic ∈ readyChannels this ∧ topic ∉ left)
  ∧ (∀ topic,
       messageQueue (final run) !! topic
       = if bool_decide (topic ∈ left) then None else messageQueue this !! topic).
Proof.
  intros Hecho Hleave Hbefore. cbv zeta.
  destruct (to_leave_spec (JsMap.keys (channels this)) topics) as [Hnodup Hin].
  destruct (close_topics_tables topics this) as (Hhooks & Hget & Hready & Hqueue).
  assert (unsubscribe backend topics past this
          = (match (hook_run (hooks this) "onAfterUnsubscribe" [js_topics topics]
                      (past ++ (hook_run (hooks this) "onBeforeUnsubscribe"
                                  [js_topics topics] past).2
                            ++ ((λ topic, EchoLeave (_getChannelName topic))
                                  <$> to_leave (JsMap.keys (channels this)) topics))).1 with
             | Return _ => Return tt
             | Throw e => Throw e
             end,
             foldl close_topic this topics,
             (hook_run (hooks this) "onBeforeUnsubscribe" [js_topics topics] past).2
               ++ ((λ topic, EchoLeave (_getChannelName topic))
                     <$> to_leave (JsMap.keys (channels this)) topics)
               ++ (hook_run (hooks this) "onAfterUnsubscribe" [js_topics topics]
                     (past ++ (hook_run (hooks this) "onBeforeUnsubscribe"
                                 [js_topics topics] past).2
                           ++ ((λ topic, EchoLeave (_getChannelName topic))
                                 <$> to_leave (JsMap.keys (channels this)) topics))).2))
    as ->.
  { unfold unsubscribe. rewrite bind_run, callHook_run.
    destruct (hook_run (hooks this) "onBeforeUnsubscribe" _ past) as [r t1].
    cbn [fst snd] in *. subst r.
    rewrite bind_run, (unsubscribe_loop_calls topics (past ++ t1) this Hecho Hleave).
    rewrite bind_run, callHook_run, Hhooks, <- app_assoc.
    destruct (hook_run (hooks this) "onAfterUnsubscribe" _ _) as [[v'|e] t2];
      cbn [fst snd]; unfold ret; by rewrite ?app_nil_r. }
  unfold final, calls. cbn [fst snd].
  split_and!; [done|done| |done|done|done].
  intros topic. by rewrite Hin, jsmap_get_is_key.
Qed.

(** A message for a topic without channel is dropped by [_doPublish]. *)
Lemma doPublish_no_channel (topic data : JsVal) past this :
  (∀ name, topic = JStr name → JsMap.get name (channels this) = None) →
  _doPublish topic data past this = (Return tt, this, []).
Proof.
  intros Hnone. rewrite doPublish_run.
  destruct topic as [| |b|n|name|items|props]; try done.
  by rewrite (Hnone name eq_refl).
Qed.

(** A [publish] that reaches no channel is the run of its two hooks. *)
Lemma publish_no_channel_around (topic data : JsVal) past this :
  (∀ result name,
     (hook_run (hooks this) "onBeforePublish" [topic; data] past).1 = Return result →
     (published_pair result topic data).1 = JStr name →
     JsMap.get name (channels this) = None) →
  publish topic data past this
  = hooks_around "onBeforePublish" [topic; data] (λ _, [])
      "onAfterPublish" (pair_args topic data) past this.
Proof.
  intros Hnone. rewrite echo_publish_run. unfold hooks_around, pair_args. cbv zeta.
  destruct (hook_run (hooks this) "onBeforePublish" [topic; data] past) as [[result|e] t1];
    cbn [fst snd] in *; [|done].
  by rewrite (doPublish_no_channel _ _ (past ++ t1) this
                (λ name, Hnone result name eq_refl)).
Qed.

(** X14: [publish(topic, data)] on a [LaravelEchoAdapter], when the topic
    the publish works with (the one given, or the one [onBeforePublish]
    put in its place) has no channel: the message is dropped.  The call
    is the run of its two hooks with nothing in between: the adapter is
    left as it was, nothing is queued, [onBeforePublish] and (when that
    hook returns) [onAfterPublish] are the only calls made, and an error
    is raised exactly when one of these two calls throws it. *)
Theorem publish_without_channel_is_dropped (topic data : JsVal) past this :
  (∀ result name,
     (hook_run (hooks this) "onBeforePublish" [topic; data] past).1 = Return result →
     (published_pair result topic data).1 = JStr name →
     JsMap.get name (channels this) = None) →
  let run := publish topic data past this in
  run = hooks_around "onBeforePublish" [topic; data] (λ _, [])
          "onAfterPublish" (pair_args topic data) past this
  ∧ messageQueue (final run) = messageQueue this
  ∧ ∀ ev, ev ∈ calls run →
      ev = HookCall "onBeforePublish" [topic; data]
      ∨ ∃ result,
          (hook_run (hooks this) "onBeforePublish" [topic; data] past).1 = Return result
          ∧ ev = HookCall "onAfterPublish" (pair_args topic data result).
Proof.
  intros Hnone. cbv zeta. rewrite (publish_no_channel_around topic data past this Hnone).
  unfold hooks_around. cbv zeta.
  pose proof (hook_run_elem (hooks this) "onBeforePublish" [topic; data] past) as Hb.
  destruct (hook_run (hooks this) "onBeforePublish" [topic; data] past) as [[result|e] t1];
    cbn [fst snd] in *.
  - split_and!; [done|done|]. unfold calls. cbn [snd app].
    intros ev [Hin|Hin]%elem_of_app.
    + left. by destruct (Hb ev Hin).
    + right. exists result. split; [done|]. by apply hook_run_elem in Hin as [-> _].
  - split_and!; [done|done|]. unfold calls. cbn [snd].
    intros ev Hin. left. by destruct (Hb ev Hin).
Qed.

Lemma open_topics_hooks (topics : list string) : ∀ this,
  hooks (foldl open_topic this topics) = hooks this
  ∧ echo (foldl open_topic this topics) = echo this.
Proof.
  induction topics as [|topic topics IH]; intros this; [done|].
  cbn [foldl]. destruct (IH (open_topic this topic)) as [-> ->].
  unfold open_topic. by destruct (JsMap.has topic (channels this)).
Qed.

Lemma unsubscribe_final topics past this v :
  is_Some (echo this) →
  (∀ past' name, echo_leave_throws backend past' name = None) →
  (hook_run (hooks this) "onBeforeUnsubscribe" [js_topics topics] past).1 = Return v →
  final (unsubscribe backend topics past this) = foldl close_topic this topics.
Proof.
  intros Hecho Hleave Hbefore. unfold unsubscribe. rewrite bind_run, callHook_run.
  destruct (hook_run (hooks this) "onBeforeUnsubscribe" _ past) as [r t1].
  cbn [fst snd] in *. subst r.
  rewrite bind_run, (unsubscribe_loop_calls topics (past ++ t1) this Hecho Hleave).
  rewrite bind_run, callHook_run.
  by destruct (hook_run _ "onAfterUnsubscribe" _ _) as [[v'|e] t2].
Qed.

(** X28: [unsubscribe] has no [catch]: when [echo.leave] throws [e] for
    the first topic of the list (which has a channel), the call fails
    with [e] at once.  No error hook and no after hook is called, the
    other topics of the list are not looked at, and the adapter is left
    as it was: the channel that could not be left stays in the table. *)
Theorem failed_unsubscribe_stops topic channel (rest : list string) past this v e :
  JsMap.get topic (channels this) = Some channel →
  is_Some (echo this) →
  (hook_run (hooks this) "onBeforeUnsubscribe" [js_topics (topic :: rest)] past).1
  = Return v →
  echo_leave_throws backend
    (past ++ (hook_run (hooks this) "onBeforeUnsubscribe" [js_topics (topic :: rest)] past).2)
    ("y-webrtc." +:+ topic) = Some e →
  unsubscribe backend (topic :: rest) past this
  = (Throw e, this,
     (hook_run (hooks this) "onBeforeUnsubscribe" [js_topics (topic :: rest)] past).2
       ++ [EchoLeave ("y-webrtc." +:+ topic)]).
Proof.
  intros Hchannel [echoInstance Hecho] Hbefore Hleave.
  unfold unsubscribe. rewrite bind_run, callHook_run.
  destruct (hook_run (hooks this) "onBeforeUnsubscribe" _ past) as [r t1].
  cbn [fst snd] in *. subst r.
  rewrite bind_run. cbn [for_each]. rewrite bind_run, doUnsubscribe_run.
  rewrite Hchannel, Hecho.
  change (_getChannelName topic) with ("y-webrtc." +:+ topic). by rewrite Hleave.
Qed.

(** X29: on a [LaravelEchoAdapter] that should be connected, an
    [unsubscribe] undoes a [subscribe] to the same topics: for topics
    that had no channel, were not ready and had no queued messages, once
    both calls have gone past their before hooks (and the channels could
    be left) every topic has the channel it had before the [subscribe],
    or none, and the ready set and the message queue are as they were. *)
Theorem unsubscribe_undoes_subscribe topics past past' this v v' :
  shouldConnect this = true → is_Some (echo this) →
  (∀ past'' name, echo_leave_throws backend past'' name = None) →
  (∀ topic, topic ∈ topics →
     JsMap.get topic (channels this) = None
     ∧ (topic ∉ readyChannels this)
     ∧ messageQueue this !! topic = None) →
  (hook_run (hooks this) "onBeforeSubscribe" [js_topics topics] past).1 = Return v →
  (hook_run (hooks this) "onBeforeUnsubscribe" [js_topics topics] past').1 = Return v' →
  let subscribed_to := final (subscribe topics past this) in
  let back := final (unsubscribe backend topics past' subscribed_to) in
  (∀ topic, topic ∈ topics → is_Some (JsMap.get topic (channels subscribed_to)))
  ∧ (∀ topic, JsMap.get topic (channels back) = JsMap.get topic (channels this))
  ∧ readyChannels back = readyChannels this
  ∧ messageQueue back = messageQueue this.
Proof.
  intros Hsc Hecho Hleave Hfresh Hsub Hunsub. cbv zeta.
  rewrite (subscribe_final topics past this v Hsc Hecho Hsub).
  destruct (open_topics_hooks topics this) as [Hhooks Hecho'].
  rewrite (unsubscribe_final topics past' (foldl open_topic this topics) v')
    by (rewrite ?Hhooks, ?Hecho'; done).
  destruct (open_topics_tables topics (JsMap.keys (channels this)) this) as (Hopen & Hr & Hq);
    [done|].
  destruct (to_open_spec (JsMap.keys (channels this)) topics) as [_ Hopened].
  destruct (close_topics_tables topics (foldl open_topic this topics))
    as (_ & Hclose & Hready & Hqueue).
  destruct (to_leave_spec (JsMap.keys (channels (foldl open_topic this topics))) topics)
    as [_ Hleft].
  split_and!.
  - intros topic Hin. rewrite Hopen. case_bool_decide as Hnew; [eauto|].
    rewrite Hopened in Hnew. apply jsmap_get_is_key.
    destruct (decide (topic ∈ JsMap.keys (channels this))); [done|tauto].
  - intros topic. rewrite Hclose. case_bool_decide as Hin.
    + by destruct (Hfresh topic Hin) as [-> _].
    + rewrite Hopen, bool_decide_false; [done|]. rewrite Hopened. tauto.
  - apply set_eq. intros topic. rewrite Hready, Hr, Hleft. split; [tauto|].
    intros Hin. split; [done|]. intros [Htopic _].
    by destruct (Hfresh topic Htopic) as (_ & ? & _).
  - apply map_eq. intros topic. rewrite Hqueue, Hq. case_bool_decide as Hin; [|done].
    apply Hleft in Hin as [Htopic _]. by destruct (Hfresh topic Htopic) as (_ & _ & ->).
Qed.

End EchoTopics.

Lemma echo_connect_defers_event_witness :
  let this := LaravelEchoAdapter.new (Some LaravelEchoAdapter.EchoInstance) no_hooks in
  let run := LaravelEchoAdapter.connect "wss://unused" [] this in
  calls run = []
  ∧ connected (final run) = true
  ∧ calls (LaravelEchoAdapter.settle reliable (calls run) (final run)) = [Emit "connect" []].
Proof.
  destruct (echo_connect_defers_event reliable "wss://unused" []
              (LaravelEchoAdapter.new (Some LaravelEchoAdapter.EchoInstance) no_hooks))
    as (_ & _ & Hreturned).
  destruct (Hreturned JUndefined eq_refl) as [Hfinal Hlater].
  destruct (Hlater eq_refl []) as [Hcalls _].
  split_and!; [reflexivity|reflexivity|exact Hcalls].
Defined.

Lemma subscribe_without_connect_is_ignored_witness :
  let this := LaravelEchoAdapter.new (Some LaravelEchoAdapter.EchoInstance) no_hooks in
  LaravelEchoAdapter.subscribe ["room"] [] this = (Return tt, this, []).
Proof.
  destruct (subscribe_without_connect_is_ignored reliable ["room"] []
              (LaravelEchoAdapter.new (Some LaravelEchoAdapter.EchoInstance) no_hooks))
    as [Hgate _].
  exact (Hgate (or_introl eq_refl)).
Defined.

Lemma subscribe_opens_each_topic_once_witness :
  calls (LaravelEchoAdapter.subscribe ["room"; "lobby"; "lobby"] [] (waiting no_hooks))
  = [EchoPrivate "y-webrtc.lobby"].
Proof.
  destruct (subscribe_opens_each_topic_once ["room"; "lobby"; "lobby"] [] (waiting no_hooks)
              JUndefined eq_refl (ex_intro _ LaravelEchoAdapter.EchoInstance eq_refl) eq_refl)
    as [Hcalls _].
  exact Hcalls.
Defined.

Lemma unsubscribe_forgets_topics_witness :
  let run := LaravelEchoAdapter.unsubscribe reliable ["lobby"; "room"] [] (waiting no_hooks) in
  calls run = [EchoLeave "y-webrtc.room"]
  ∧ JsMap.get "room" (LaravelEchoAdapter.channels (final run)) = None.
Proof.
  destruct (unsubscribe_forgets_topics reliable ["lobby"; "room"] [] (waiting no_hooks)
              JUndefined (ex_intro _ LaravelEchoAdapter.EchoInstance eq_refl)
              (λ _ _, eq_refl) eq_refl)
    as (Hcalls & _ & _ & Hchannels & _).
  split; [exact Hcalls|exact (Hchannels "room")].
Defined.

Lemma publish_without_channel_is_dropped_witness :
  LaravelEchoAdapter.publish (JStr "lobby") (JStr "offer") [] (waiting no_hooks)
  = hooks_around "onBeforePublish" [JStr "lobby"; JStr "offer"] (λ _, [])
      "onAfterPublish" (pair_args (JStr "lobby") (JStr "offer")) [] (waiting no_hooks).
Proof.
  destruct (publish_without_channel_is_dropped (JStr "lobby") (JStr "offer") []
              (waiting no_hooks)) as [Hrun _]; [|exact Hrun].
  intros result name Hresult. injection Hresult as <-.
  intros Hname. injection Hname as <-. reflexivity.
Defined.

(** ** Disconnecting the Echo adapter *)

Section EchoDisconnect.

Import LaravelEchoAdapter.

Variable backend : Backend.

Implicit Types (this : LaravelEchoAdapter.t) (past : list Event).

(** The loop of [disconnect], when every channel can be left. *)
Lemma leave_all_run (entries : JsMap.t Channel) : ∀ past this,
  is_Some (echo this) →
  (∀ past' name, echo_leave_throws backend past' name = None) →
  for_each entries (λ entry, echo_leave backend (_getChannelName entry.1)) past this
  = (Return tt, this, (λ topic, EchoLeave (_getChannelName topic)) <$> JsMap.keys entries).
Proof.
  induction entries as [|[topic channel] entries IH]; intros past this Hecho Hleave; [done|].
  cbn [for_each]. rewrite bind_run. unfold echo_leave at 1. rewrite bind_get.
  destruct Hecho as [e He]. rewrite He. unfold call. rewrite Hleave.
  rewrite IH by eauto. done.
Qed.

Lemma echo_disconnect_effect_run past this :
  is_Some (echo this) →
  (∀ past' name, echo_leave_throws backend past' name = None) →
  disconnect_effect backend past this
  = (Return tt, cleared this,
     ((λ topic, EchoLeave (_getChannelName topic)) <$> JsMap.keys (channels this))
       ++ [Emit "disconnect" []]).
Proof.
  intros Hecho Hleave. unfold disconnect_effect.
  rewrite bind_run. unfold modify at 1. rewrite bind_run. unfold modify at 1.
  rewrite bind_get, bind_run, leave_all_run by done.
  unfold bind, modify, log. cbn beta iota zeta. cbn [app]. done.
Qed.

(** The effect of [disconnect], by the 'disconnect' event. *)
Lemma disconnect_effect_emits past this :
  let r := disconnect_effect backend past this in
  (outcome r = Return tt ∧ final r = cleared this ∧ Emit "disconnect" [] ∈ calls r)
  ∨ ((∃ e, outcome r = Throw e)
     ∧ final r = set_connected false (set_shouldConnect false this)
     ∧ Emit "disconnect" [] ∉ calls r).
Proof.
  cbv zeta. unfold disconnect_effect, bind, modify, get, log. simpl.
  set (this1 := set_connected false (set_shouldConnect false this)).
  assert (sound (λ this', this' = this1) (λ ev, ev ≠ Emit "disconnect" []) (λ _, True)
            (for_each (channels this)
               (λ entry, echo_leave backend (_getChannelName entry.1)))) as Hloop.
  { apply sound_for_each. intros entry _. by apply echo_leave_sound. }
  destruct (Hloop (((past ++ []) ++ []) ++ []) this1 eq_refl) as (Hfinal & Hcalls & _).
  unfold final, outcome, calls in *. simpl in *.
  destruct (for_each (channels this) _ _ _) as [[[[]|e] this2] t1]; simpl in *; subst this2.
  - left. split_and!; [done|done|]. rewrite !elem_of_app, list_elem_of_singleton. auto.
  - right. split_and!; [eauto|done|]. intros Hin.
    rewrite Forall_forall in Hcalls. by apply (Hcalls _ Hin).
Qed.

(** The closed form of [disconnect]. *)
Lemma echo_disconnect_run past this :
  disconnect backend past this
  = let b := (_callHook "onBeforeDisconnect" [];;
              disconnect_effect backend;;
              _callHook "onAfterDisconnect" [];;
              ret tt) past this in
    match outcome b with
    | Return _ => b
    | Throw e0 =>
        let he := hook_run (hooks this) "onDisconnectError" [e0] (past ++ calls b) in
        (match he.1 with Return _ => Throw e0 | Throw e' => Throw e' end,
         final b, calls b ++ he.2)
    end.
Proof.
  unfold disconnect, disconnect_rest, disconnect_catch. rewrite try_rethrow_run. cbv zeta.
  rewrite (body_run _ _ _ _ _ _ (echo_disconnect_effect_hooks backend)). cbv zeta.
  destruct (hook_run (hooks this) "onBeforeDisconnect" [] past) as [[v|e] t1];
    cbn [fst snd]; [|done].
  pose proof (echo_disconnect_effect_hooks backend (past ++ t1) this) as Hhooks.
  destruct (disconnect_effect backend (past ++ t1) this) as [[[[]|e] this1] t2];
    unfold outcome, final, calls in *; cbn [fst snd] in *.
  - destruct (hook_run (hooks this) "onAfterDisconnect" [] _) as [[v'|e] t3];
      cbn [fst snd]; [done|]. by rewrite Hhooks.
  - by rewrite Hhooks.
Qed.

(** X15: [disconnect()] on a [LaravelEchoAdapter] that has its Echo
    instance, when [onBeforeDisconnect] returns and the channels can be
    left: [echo.leave] is called for every channel of the table, in the
    order the channels were opened, with the channel name 'y-webrtc.'
    followed by the topic; then 'disconnect' is emitted, then
    [onAfterDisconnect] is called.  The adapter is left with both flags
    false and its three tables empty, whether or not the after hook
    throws. *)
Theorem disconnect_leaves_every_channel this past v :
  is_Some (echo this) →
  (∀ past' name, echo_leave_throws backend past' name = None) →
  (hook_run (hooks this) "onBeforeDisconnect" [] past).1 = Return v →
  let hb := hook_run (hooks this) "onBeforeDisconnect" [] past in
  let leaves := (λ topic, EchoLeave ("y-webrtc." +:+ topic)) <$> JsMap.keys (channels this) in
  let ha := hook_run (hooks this) "onAfterDisconnect" []
              (past ++ hb.2 ++ leaves ++ [Emit "disconnect" []]) in
  let run := disconnect backend past this in
  final run = cleared this
  ∧ (∃ rest, calls run = hb.2 ++ leaves ++ [Emit "disconnect" []] ++ ha.2 ++ rest
             ∧ Forall (λ ev, ∃ e, ev = HookCall "onDisconnectError" [e]) rest)
  ∧ (outcome run = Return tt ↔ ∃ v', ha.1 = Return v').
Proof.
  intros Hecho Hleave Hbefore. cbv zeta.
  rewrite echo_disconnect_run. cbv zeta.
  rewrite (body_run _ _ _ _ _ _ (echo_disconnect_effect_hooks backend)). cbv zeta.
  rewrite Hbefore, echo_disconnect_effect_run by done.
  unfold outcome, final, calls. cbn [fst snd].
  change (λ topic, EchoLeave (_getChannelName topic))
    with (λ topic, EchoLeave ("y-webrtc." +:+ topic)).
  destruct (hook_run (hooks this) "onAfterDisconnect" [] _) as [[v'|e] t3] eqn:Hafter;
    cbn [fst snd].
  - split_and!; [done| |].
    + exists []. by rewrite app_nil_r, <- !app_assoc.
    + split; eauto.
  - split_and!; [done| |].
    + eexists. rewrite <- !app_assoc. split; [reflexivity|].
      match goal with
      | |- Forall _ (hook_run ?t ?n ?a ?p).2 =>
          destruct (hook_run_split t n a p) as [Hr|Hr]; rewrite Hr
      end; [constructor|apply Forall_singleton; eauto].
    + split; [|by intros [? [=]]].
      by destruct (hook_run (hooks this) "onDisconnectError" _ _).1.
Qed.

(** X16: a [disconnect()] on a [LaravelEchoAdapter] whose
    [onBeforeDisconnect] hook returns ends in one of two ways.  Either
    every channel was left: then 'disconnect' is emitted and the adapter
    has both flags false and its three tables empty.  Or leaving a channel
    failed: then 'disconnect' is not emitted, the call fails, both flags
    are false all the same, and the three tables are as they were: the
    channels that were not left, and the one that could not be left, stay
    in the table. *)
Theorem disconnect_clears_or_stops this past v :
  (hook_run (hooks this) "onBeforeDisconnect" [] past).1 = Return v →
  let run := disconnect backend past this in
  (Emit "disconnect" [] ∈ calls run ∧ final run = cleared this)
  ∨ ((Emit "disconnect" [] ∉ calls run)
     ∧ final run = set_connected false (set_shouldConnect false this)
     ∧ ∃ e, outcome run = Throw e).
Proof.
  intros Hbefore. cbv zeta.
  rewrite echo_disconnect_run. cbv zeta.
  rewrite (body_run _ _ _ _ _ _ (echo_disconnect_effect_hooks backend)). cbv zeta.
  pose proof (hook_run_calls (hooks this) "onBeforeDisconnect" [] past) as Hb.
  rewrite Hbefore.
  set (t1 := (hook_run (hooks this) "onBeforeDisconnect" [] past).2) in *.
  destruct (disconnect_effect_emits (past ++ t1) this) as [(Hok & Hfinal & Hin)|(He & Hfinal & Hnot)].
  - left. rewrite Hok.
    destruct (hook_run (hooks this) "onAfterDisconnect" [] _) as [[v'|e] t3];
      unfold outcome, final, calls; cbn [fst snd];
      (split; [|done]); rewrite !elem_of_app; auto.
  - right. destruct He as [e He]. rewrite He.
    unfold outcome, final, calls. cbn [fst snd]. split_and!; [|done|].
    + rewrite !elem_of_app. intros [[Hin|Hin]|Hin]; [|done|].
      * rewrite Forall_forall in Hb. by apply Hb in Hin.
      * by apply hook_run_elem in Hin as [[=] _].
    + destruct (hook_run (hooks this) "onDisconnectError" _ _).1; eauto.
Qed.

End EchoDisconnect.

Lemma disconnect_leaves_every_channel_witness :
  let run := LaravelEchoAdapter.disconnect reliable [] (waiting no_hooks) in
  final run = LaravelEchoAdapter.cleared (waiting no_hooks)
  ∧ ∃ rest, calls run = [EchoLeave "y-webrtc.room"; Emit "disconnect" []] ++ rest.
Proof.
  destruct (disconnect_leaves_every_channel reliable (waiting no_hooks) [] JUndefined
              (ex_intro _ LaravelEchoAdapter.EchoInstance eq_refl) (λ _ _, eq_refl) eq_refl)
    as (Hfinal & (rest & Hcalls & _) & _).
  split; [exact Hfinal|]. exists rest. exact Hcalls.
Defined.

Lemma disconnect_clears_or_stops_witness :
  let run := LaravelEchoAdapter.disconnect stuck [] (waiting no_hooks) in
  (Emit "disconnect" [] ∈ calls run
   ∧ final run = LaravelEchoAdapter.cleared (waiting no_hooks))
  ∨ ((Emit "disconnect" [] ∉ calls run)
     ∧ final run
       = LaravelEchoAdapter.set_connected false
           (LaravelEchoAdapter.set_shouldConnect false (waiting no_hooks))
     ∧ ∃ e, outcome run = Throw e).
Proof.
  exact (disconnect_clears_or_stops stuck (waiting no_hooks) [] JUndefined eq_refl).
Defined.

(** ** Destroying the Echo adapter *)

Section EchoDestroy.

Import LaravelEchoAdapter.

Variable backend : Backend.

Implicit Types (this : LaravelEchoAdapter.t) (past : list Event).

Lemma echo_disconnect_rest_run past this :
  disconnect_rest backend past this
  = let r := disconnect_effect backend past this in
    match outcome r with
    | Return _ =>
        let ha := hook_run (hooks this) "onAfterDisconnect" [] (past ++ calls r) in
        (match ha.1 with Return _ => Return tt | Throw e => Throw e end,
         final r, calls r ++ ha.2)
    | Throw e => (Throw e, final r, calls r)
    end.
Proof.
  unfold disconnect_rest. rewrite bind_run. cbv zeta.
  pose proof (echo_disconnect_effect_hooks backend past this) as Hhooks.
  destruct (disconnect_effect backend past this) as [[[[]|e] this1] t1];
    unfold outcome, final, calls in *; cbn [fst snd] in *; [|done].
  rewrite bind_run, callHook_run, Hhooks.
  destruct (hook_run (hooks this) "onAfterDisconnect" [] (past ++ t1)) as [[v|e] t2];
    cbn [fst snd]; [|done].
  unfold ret. by rewrite app_nil_r.
Qed.

(** The rest of a [disconnect] whose before hook returned, when every
    channel can be left. *)
Lemma echo_resume_returned_run v past this :
  is_Some (echo this) →
  (∀ past' name, echo_leave_throws backend past' name = None) →
  ∃ r rest,
    resume backend (DisconnectRest (Return v)) past this
    = (r, cleared this,
       ((λ topic, EchoLeave (_getChannelName topic)) <$> JsMap.keys (channels this))
         ++ [Emit "disconnect" []] ++ rest)
    ∧ Forall is_hook_call rest.
Proof.
  intros Hecho Hleave. unfold resume, disconnect_catch.
  rewrite try_rethrow_run. cbv zeta.
  rewrite bind_lift_return, echo_disconnect_rest_run. cbv zeta.
  rewrite echo_disconnect_effect_run by done.
  unfold outcome, final, calls. cbn [fst snd].
  set (leaves := (λ topic, EchoLeave (_getChannelName topic)) <$> JsMap.keys (channels this)).
  pose proof (hook_run_calls (hooks this) "onAfterDisconnect" []
                (past ++ leaves ++ [Emit "disconnect" []])) as Hafter.
  destruct (hook_run (hooks this) "onAfterDisconnect" [] _) as [[v'|e] t2]; cbn [fst snd] in *.
  - eexists _, _. rewrite <- app_assoc. by split.
  - eexists _, _. rewrite <- !app_assoc. split; [reflexivity|].
    apply Forall_app. split; [done|]. apply hook_run_calls.
Qed.

Lemma echo_settle_one task past this :
  suspended this = [task] →
  final (settle backend past this) = final (resume backend task past (set_suspended [] this))
  ∧ calls (settle backend past this) = calls (resume backend task past (set_suspended [] this))
  ∧ outcome (settle backend past this) = Return tt.
Proof.
  intros Htask. rewrite echo_settle_run, Htask. cbn [for_each].
  rewrite !bind_run. unfold attempt.
  destruct (resume backend task past (set_suspended [] this)) as [[r this1] t1].
  unfold ret, outcome, final, calls. cbn [fst snd]. by rewrite !app_nil_r.
Qed.

(** X17: [destroy()] on a [LaravelEchoAdapter] returns before anything is
    torn down: it has called [onBeforeDisconnect] and dropped the event
    listeners, and the adapter still has its flags and channels.  When
    the suspended [disconnect] resumes (the hook having returned, and the
    channels being such that they can be left), the channels are left, the
    tables are cleared and 'disconnect' is emitted: that event comes after
    the listeners were dropped. *)
Theorem echo_destroy_emits_after_listeners_dropped this past v :
  suspended this = [] →
  is_Some (echo this) →
  (∀ past' name, echo_leave_throws backend past' name = None) →
  (hook_run (hooks this) "onBeforeDisconnect" [] past).1 = Return v →
  let hb := hook_run (hooks this) "onBeforeDisconnect" [] past in
  let leaves := (λ topic, EchoLeave ("y-webrtc." +:+ topic)) <$> JsMap.keys (channels this) in
  let destroyed := destroy past this in
  outcome destroyed = Return tt
  ∧ calls destroyed = hb.2 ++ [ObservableDestroy]
  ∧ final destroyed = set_suspended [DisconnectRest (Return v)] this
  ∧ ∀ past',
      let later := settle backend past' (final destroyed) in
      final later = cleared this
      ∧ ∃ rest, calls later = leaves ++ [Emit "disconnect" []] ++ rest
                ∧ Forall is_hook_call rest.
Proof.
  intros Hnone Hecho Hleave Hbefore. cbv zeta. rewrite echo_destroy_run, Hbefore, Hnone.
  unfold outcome, final, calls. cbn [fst snd app].
  split_and!; [done..|]. intros past'.
  set (this1 := set_suspended _ this).
  destruct (echo_settle_one (DisconnectRest (Return v)) past' this1 eq_refl)
    as (Hfinal & Hcalls & _).
  destruct (echo_resume_returned_run v past' (set_suspended [] this1) Hecho Hleave)
    as (r & rest & Hresume & Hrest).
  unfold final, calls in *. rewrite Hfinal, Hcalls, Hresume. cbn [fst snd].
  split.
  - unfold cleared, this1. simpl. by rewrite Hnone.
  - by exists rest.
Qed.

End EchoDestroy.

Lemma echo_destroy_emits_after_listeners_dropped_witness :
  let destroyed := LaravelEchoAdapter.destroy [] (waiting no_hooks) in
  let later := LaravelEchoAdapter.settle reliable (calls destroyed) (final destroyed) in
  calls destroyed = [ObservableDestroy]
  ∧ ∃ rest, calls later = [EchoLeave "y-webrtc.room"; Emit "disconnect" []] ++ rest.
Proof.
  destruct (echo_destroy_emits_after_listeners_dropped reliable (waiting no_hooks) []
              JUndefined eq_refl (ex_intro _ LaravelEchoAdapter.EchoInstance eq_refl)
              (λ _ _, eq_refl) eq_refl)
    as (_ & Hcalls & _ & Hlater).
  split; [exact Hcalls|].
  destruct (Hlater [ObservableDestroy]) as (_ & rest & Hrest & _).
  exists rest. exact Hrest.
Defined.

(** ** Where a failing call failed *)

Section Blame.

Context {S : Type} `{SignalingAdapter S}.

Variable backend : Backend.
Variable table : HookTable.
Variable I : S → Prop.

Lemma stopped_at_later past t1 t2 e :
  stopped_at backend table (past ++ t1) t2 e → stopped_at backend table past (t1 ++ t2) e.
Proof.
  intros (before & last & -> & Hthrew). exists (t1 ++ before), last.
  split; [by rewrite app_assoc|]. by rewrite app_assoc.
Qed.

Lemma blames_ret {A} (a : A) : blames backend table I (ret a).
Proof. intros past this HI. by split. Qed.

Lemma blames_log ev : blames backend table I (log ev).
Proof. intros past this HI. by split. Qed.

Lemma blames_modify f : (∀ this, I this → I (f this)) → blames backend table I (modify f).
Proof. intros Hf past this HI. split; [by apply Hf|done]. Qed.

Lemma blames_put (this' : S) : I this' → blames backend table I (put this').
Proof. intros HI' past this HI. by split. Qed.

Lemma blames_bind {A B} (m : M S A) (k : A → M S B) :
  blames backend table I m → (∀ a, blames backend table I (k a)) →
  blames backend table I (bind m k).
Proof.
  intros Hm Hk past this HI. specialize (Hm past this HI).
  unfold bind, final, calls, outcome in *.
  destruct (m past this) as [[[a|e] this1] t1]; cbn [fst snd] in *.
  2:{ destruct Hm as (? & Hstop). split; [done|].
      intros e' [= <-]. by apply Hstop. }
  destruct Hm as (HI1 & _). specialize (Hk a (past ++ t1) this1 HI1).
  unfold final, calls, outcome in Hk.
  destruct (k a (past ++ t1) this1) as [[r this2] t2]; cbn [fst snd] in *.
  destruct Hk as (HI2 & Hstop). split; [done|].
  intros e He. apply stopped_at_later. by apply Hstop.
Qed.

(** [let* this := get in k this]: the continuation is only ever run on
    the object it was given. *)
Lemma blames_get {B} (k : S → M S B) :
  (∀ this past, I this →
     I (final (k this past this))
     ∧ ∀ e, outcome (k this past this) = Throw e →
         stopped_at backend table past (calls (k this past this)) e) →
  blames backend table I (bind get k).
Proof.
  intros Hk past this HI. specialize (Hk this past HI). by rewrite bind_get.
Qed.

Lemma blames_callHook hookName args :
  (∀ this, I this → hooks this = table) →
  blames backend table I (_callHook hookName args).
Proof.
  intros Htable past this HI. rewrite callHook_run, (Htable this HI).
  unfold final, calls, outcome. cbn [fst snd].
  split; [done|]. intros e He.
  exists [], (HookCall hookName args). rewrite app_nil_r. split; [|exact He].
  unfold hook_run in *. by destruct (table hookName).
Qed.

Lemma blames_leave channelName :
  blames backend table I
    (call (EchoLeave channelName) (λ past, echo_leave_throws backend past channelName)).
Proof.
  intros past this HI. unfold call, final, calls, outcome.
  destruct (echo_leave_throws backend past channelName) as [e0|] eqn:Hthrows; cbn [fst snd];
    split; try done.
  intros e [= <-]. exists [], (EchoLeave channelName). by rewrite app_nil_r.
Qed.

Lemma blames_for_each {A} (xs : list A) (body : A → M S unit) :
  (∀ x, x ∈ xs → blames backend table I (body x)) → blames backend table I (for_each xs body).
Proof.
  induction xs as [|x xs IH]; intros Hbody; simpl.
  - apply blames_ret.
  - apply blames_bind; [apply Hbody; by left|].
    intros _. apply IH. intros y Hy. apply Hbody. by right.
Qed.

(** A method whose body is in [try]/[catch] with an error hook. *)
Lemma blames_caught onError (body : M S unit) past this e :
  (∀ this, I this → hooks this = table) →
  blames backend table I body → I this →
  outcome (try_catch body (λ error, _callHook onError [error];; throw error) past this)
  = Throw e →
  caught_at backend table onError past
    (calls (try_catch body (λ error, _callHook onError [error];; throw error) past this)) e.
Proof.
  intros Htable Hbody HI. rewrite try_rethrow_run. cbv zeta.
  destruct (Hbody past this HI) as (HI1 & Hstop).
  destruct (outcome (body past this)) as [[]|e0] eqn:Hb.
  { by rewrite Hb. }
  rewrite (Htable _ HI1). unfold outcome at 1, calls at 1. cbn [fst snd]. intros He.
  exists e0, (calls (body past this)). split_and!; [by apply Hstop|done|].
  destruct (hook_run table onError [e0] _).1; by injection He as <-.
Qed.

End Blame.

(** ** Callbacks and errors of the Echo adapter *)

Section EchoCallbacks.

Import LaravelEchoAdapter.

Variable backend : Backend.

Implicit Types (this : LaravelEchoAdapter.t) (past : list Event).

(** X18: the callbacks a [LaravelEchoAdapter] registers on the channel of
    a topic forward what they receive under that topic: the listener of
    '.signaling' forwards the [data] field of an event object, the
    whisper listener forwards the event itself; each calls [onMessage]
    and then emits 'message', with the same object [{topic, data}].
    They do not throw, even when the hook does (it is not awaited), and
    neither they nor the error callback, which only logs to the console,
    change the adapter: a subscription error leaves the channel in the
    table and its queue in place. *)
Theorem echo_callbacks_forward topic (props : list (string * JsVal)) (event error : JsVal)
    past this :
  let from_server := JObj [("topic", JStr topic); ("data", js_get "data" (JObj props))] in
  let from_peer := JObj [("topic", JStr topic); ("data", event)] in
  listen topic (JObj props) past this
  = (Return tt, this,
     (hook_run (hooks this) "onMessage" [from_server] past).2
       ++ [Emit "message" [from_server]])
  ∧ listenForWhisper topic event past this
    = (Return tt, this,
       (hook_run (hooks this) "onMessage" [from_peer] past).2
         ++ [Emit "message" [from_peer]])
  ∧ subscription_error topic error past this
    = (Return tt, this, [ConsoleError ("y-webrtc." +:+ topic) error]).
Proof.
  cbv zeta. unfold listen, listenForWhisper, nullish, _handleMessage.
  by rewrite !handle_message_run.
Qed.

Lemma doPublish_returns (topic data : JsVal) past this :
  outcome (_doPublish topic data past this) = Return tt
  ∧ hooks (final (_doPublish topic data past this)) = hooks this.
Proof.
  rewrite doPublish_run.
  destruct topic as [| |b|n|name|items|props]; try done.
  destruct (JsMap.get name (channels this)); [|done].
  by destruct (bool_decide (name ∈ readyChannels this)).
Qed.

(** The methods of the Echo adapter, one by one, on objects that hold the
    hook table [table]. *)
Lemma blames_echo_leave table channelName :
  blames backend table (λ this, hooks this = table ∧ is_Some (echo this))
    (echo_leave backend channelName).
Proof.
  unfold echo_leave. apply blames_get. intros this past' [Hh [echoInstance Hecho]].
  rewrite Hecho.
  apply (blames_leave backend table (λ this, hooks this = table ∧ is_Some (echo this))).
  split; [done|by exists echoInstance].
Qed.

Lemma blames_echo_private table channelName :
  blames backend table (λ this, hooks this = table ∧ is_Some (echo this))
    (echo_private channelName).
Proof.
  unfold echo_private. apply blames_get. intros this past' [Hh [echoInstance Hecho]].
  rewrite Hecho.
  apply (blames_bind backend table (λ this, hooks this = table ∧ is_Some (echo this))
           _ _ (blames_log backend table _ _) (λ _, blames_ret backend table _ _)).
  split; [done|by exists echoInstance].
Qed.

Lemma blames_doSubscribe table topic :
  blames backend table (λ this, hooks this = table ∧ is_Some (echo this))
    (_doSubscribe topic).
Proof.
  unfold _doSubscribe. apply blames_bind; [apply blames_echo_private|intros channel].
  apply blames_get. intros this past' HI. by split.
Qed.

Lemma blames_subscribe table topics :
  blames backend table (λ this, hooks this = table) (subscribe topics).
Proof.
  unfold subscribe. apply blames_bind; [by apply blames_callHook|intros _].
  apply blames_get. intros this past' Hh.
  assert (blames backend table (λ this, hooks this = table)
            (_callHook "onAfterSubscribe" [js_topics topics];; ret tt)) as Hafter.
  { apply blames_bind; [by apply blames_callHook|intros _; apply blames_ret]. }
  destruct (shouldConnect this); cbn [negb orb]; [|by apply Hafter].
  case_bool_decide as Hecho; cbn [negb]; [|by apply Hafter].
  cut (blames backend table (λ this, hooks this = table ∧ is_Some (echo this))
         (for_each topics
            (λ topic,
               let* this := get in
               if JsMap.has topic (channels this) then ret tt else _doSubscribe topic);;
          _callHook "onAfterSubscribe" [js_topics topics];;
          ret tt)).
  { intros Hb. destruct (Hb past' this (conj Hh Hecho)) as ([? _] & ?). done. }
  apply blames_bind;
    [|intros _; apply blames_bind;
                  [apply blames_callHook; by intros ? [? _]|intros _; apply blames_ret]].
  apply blames_for_each. intros topic _.
  apply blames_get. intros this' past'' HI'.
  destruct (JsMap.has topic (channels this')); [by split|].
  by apply blames_doSubscribe.
Qed.

Lemma blames_publish table (topic data : JsVal) :
  blames backend table (λ this, hooks this = table) (publish topic data).
Proof.
  unfold publish. apply blames_bind; [by apply blames_callHook|intros result].
  apply blames_bind;
    [|intros _; apply blames_bind; [by apply blames_callHook|intros _; apply blames_ret]].
  intros past this Hh.
  destruct (doPublish_returns
              (if replaces result then js_get "topic" result else topic)
              (if replaces result then js_get "data" result else data) past this)
    as [Hreturns Hhooks].
  split; [congruence|]. intros e He. by rewrite Hreturns in He.
Qed.

Lemma blames_doUnsubscribe table topic :
  blames backend table
    (λ this, hooks this = table ∧ (is_Some (echo this) ∨ channels this = []))
    (_doUnsubscribe backend topic).
Proof.
  intros past this [Hh HI]. rewrite doUnsubscribe_run.
  destruct (JsMap.get topic (channels this)) as [channel|] eqn:Hget; [|by split].
  destruct (echo this) as [echoInstance|] eqn:Hecho.
  2:{ destruct HI as [[? [=]]|Hnil]. by rewrite Hnil in Hget. }
  destruct (echo_leave_throws backend past (_getChannelName topic)) as [e0|] eqn:Hleave;
    unfold final, calls, outcome; cbn [fst snd].
  - split; [by eauto|]. intros e [= <-].
    exists [], (EchoLeave (_getChannelName topic)). by rewrite app_nil_r.
  - split; [|done]. split; [done|]. left. simpl. by rewrite Hecho.
Qed.

Lemma blames_unsubscribe table topics :
  blames backend table
    (λ this, hooks this = table ∧ (is_Some (echo this) ∨ channels this = []))
    (unsubscribe backend topics).
Proof.
  unfold unsubscribe. apply blames_bind; [apply blames_callHook; by intros ? [? _]|intros _].
  apply blames_bind;
    [|intros _; apply blames_bind;
                  [apply blames_callHook; by intros ? [? _]|intros _; apply blames_ret]].
  apply blames_for_each. intros topic _. apply blames_doUnsubscribe.
Qed.

Lemma blames_connect_effect table :
  blames backend table (λ this, hooks this = table) connect_effect.
Proof.
  unfold connect_effect.
  apply blames_bind; [by apply blames_modify|intros _].
  apply blames_bind; [by apply blames_modify|intros _].
  apply blames_get. intros this past' Hh. by split.
Qed.

Lemma blames_disconnect_effect table :
  blames backend table
    (λ this, hooks this = table ∧ (is_Some (echo this) ∨ channels this = []))
    (disconnect_effect backend).
Proof.
  unfold disconnect_effect.
  apply blames_bind; [by apply blames_modify|intros _].
  apply blames_bind; [by apply blames_modify|intros _].
  apply blames_get. intros this past' [Hh HI].
  cut (blames backend table (λ this', hooks this' = table ∧ echo this' = echo this)
         (for_each (channels this) (λ entry, echo_leave backend (_getChannelName entry.1));;
          modify (set_channels []);;
          modify (set_readyChannels ∅);;
          modify (set_messageQueue ∅);;
          log (Emit "disconnect" []))).
  { intros Hb. destruct (Hb past' this (conj Hh eq_refl)) as ([Hh' Hecho'] & Hstop).
    split; [|done]. split; [done|]. rewrite Hecho'. clear Hstop.
    destruct HI as [?|Hnil]; [by left|].
    revert Hecho'. rewrite Hnil. simpl. intros _. by right. }
  apply blames_bind; [|intros _].
  2:{ apply blames_bind; [by apply blames_modify|intros _].
      apply blames_bind; [by apply blames_modify|intros _].
      apply blames_bind; [by apply blames_modify|intros _].
      apply blames_log. }
  destruct HI as [[echoInstance Hecho]|Hnil].
  - apply blames_for_each. intros entry _.
    unfold echo_leave. apply blames_get. intros this' past'' [Hh' Hecho'].
    assert (echo this' = Some echoInstance) as -> by congruence.
    by apply (blames_leave backend table
                (λ this', hooks this' = table ∧ echo this' = echo this)).
  - rewrite Hnil. apply blames_ret.
Qed.

(** X19: where a failing call of a method of a [LaravelEchoAdapter]
    failed.  A [subscribe], a [publish] or an [unsubscribe] that raises
    [e] stopped at the last call it made, and that call threw [e]: it is
    the call of a hook of the adapter, which threw [e] when it was called
    there, or (for [unsubscribe]) a call of [echo.leave], which the
    backend failed with [e].  A [connect] or a [disconnect] that raises
    [e] stopped in the same way at a call that threw some [e0], called
    its error hook with [e0] and raised [e0], or what the error hook
    threw.  For [subscribe], [publish] and [connect] this holds in every
    state; for [unsubscribe] and [disconnect] it holds when the adapter
    has its Echo instance or has no channel (as every adapter that
    [subscribe] filled has): no [TypeError] of a call on a missing Echo
    instance is raised. *)
Theorem echo_errors_come_from_hooks_or_leave url topics (topic data : JsVal) past this e :
  (outcome (subscribe topics past this) = Throw e →
   stopped_at backend (hooks this) past (calls (subscribe topics past this)) e)
  ∧ (outcome (publish topic data past this) = Throw e →
     stopped_at backend (hooks this) past (calls (publish topic data past this)) e)
  ∧ (outcome (connect url past this) = Throw e →
     caught_at backend (hooks this) "onConnectError" past (calls (connect url past this)) e)
  ∧ (is_Some (echo this) ∨ channels this = [] →
     (outcome (unsubscribe backend topics past this) = Throw e →
      stopped_at backend (hooks this) past (calls (unsubscribe backend topics past this)) e)
     ∧ (outcome (disconnect backend past this) = Throw e →
        caught_at backend (hooks this) "onDisconnectError" past
          (calls (disconnect backend past this)) e)).
Proof.
  split_and!.
  - by apply (blames_subscribe (hooks this) topics past this).
  - by apply (blames_publish (hooks this) topic data past this).
  - unfold connect, connect_catch.
    apply (blames_caught backend (hooks this) (λ this', hooks this' = hooks this)); [done| |done].
    apply blames_bind; [by apply blames_callHook|intros _].
    apply blames_bind; [apply blames_connect_effect|intros _].
    apply blames_bind; [by apply blames_callHook|intros _; apply blames_ret].
  - intros HI. split.
    + by apply (blames_unsubscribe (hooks this) topics past this).
    + unfold disconnect, disconnect_catch, disconnect_rest.
      apply (blames_caught backend (hooks this)
               (λ this', hooks this' = hooks this
                         ∧ (is_Some (echo this') ∨ channels this' = [])));
        [by intros ? [? _]| |done].
      apply blames_bind; [apply blames_callHook; by intros ? [? _]|intros _].
      apply blames_bind; [apply blames_disconnect_effect|intros _].
      apply blames_bind; [apply blames_callHook; by intros ? [? _]|intros _; apply blames_ret].
Qed.

End EchoCallbacks.

Lemma echo_errors_come_from_hooks_or_leave_witness :
  caught_at stuck (hooks (waiting no_hooks)) "onDisconnectError" []
    (calls (LaravelEchoAdapter.disconnect stuck [] (waiting no_hooks)))
    (js_Error "cannot leave").
Proof.
  destruct (echo_errors_come_from_hooks_or_leave stuck "wss://unused" ["room"]
              (JStr "room") JNull [] (waiting no_hooks) (js_Error "cannot leave"))
    as (_ & _ & _ & Hleave).
  destruct Hleave as [_ Hdisconnect].
  - left. simpl. eauto.
  - apply Hdisconnect. reflexivity.
Defined.

(** ** Histories of the Echo adapter *)

Section EchoHistorySteps.

Import LaravelEchoAdapter.

Variable backend : Backend.

Implicit Types (this : LaravelEchoAdapter.t) (past : list Event).

(** A property of the adapter object and a set of allowed calls such
    that every state change the methods make keeps the property, and
    every call they make is allowed. *)
Variables (I : LaravelEchoAdapter.t → Prop) (E : Event → Prop).

Hypothesis E_other :
  ∀ ev, (∀ channelName data, ev ≠ Whisper channelName "signaling" data) → E ev.
Hypothesis E_publish : ∀ this topic channel data,
  I this → JsMap.get topic (channels this) = Some channel → topic ∈ readyChannels this →
  E (Whisper (channel_name channel) "signaling" data).
Hypothesis I_flags : ∀ this b, I this → I (set_connected b (set_shouldConnect b this)).
Hypothesis I_suspended : ∀ this tasks, I this → I (set_suspended tasks this).
Hypothesis I_cleared : ∀ this, I this → I (cleared this).
Hypothesis I_removed : ∀ this topic, I this → I (removed topic this).
Hypothesis I_opened : ∀ this topic,
  I this → is_Some (echo this) →
  I (set_channels (JsMap.set topic {| channel_name := _getChannelName topic |} (channels this))
       this).
Hypothesis I_queued : ∀ this topic channel queue,
  I this → JsMap.get topic (channels this) = Some channel → topic ∉ readyChannels this →
  I (set_messageQueue (<[topic := queue]> (messageQueue this)) this).

Ltac allowed := apply E_other; intros ? ?; discriminate.
Ltac step_hook := apply sound_bind; [apply sound_callHook; [allowed|done]|intros ?].
Ltac step_at :=
  match goal with
  | |- I (final (?m ?past ?this)) ∧ _ =>
      cut (sound I E (λ _, True) m); [intros Hsound; by apply Hsound|]
  end.

Lemma step_disconnect_rest : sound I E (λ _, True) (disconnect_rest backend).
Proof using All.
  unfold disconnect_rest.
  apply sound_bind; [|intros _; step_hook; apply sound_ret].
  intros past this HI. split_and!; [| |done].
  - destruct (disconnect_effect_cases backend past this) as [[_ ->]|[_ ->]]; auto.
  - apply (sound_at (λ _, True) E (λ _, True)); [|done].
    unfold disconnect_effect.
    apply sound_bind; [by apply sound_modify|intros _].
    apply sound_bind; [by apply sound_modify|intros _].
    apply sound_get. intros this' past' _.
    apply (sound_at (λ _, True) E (λ _, True)); [|done].
    apply sound_bind; [|intros _].
    { apply sound_for_each. intros entry _. apply echo_leave_sound; [allowed|done..]. }
    apply sound_bind; [by apply sound_modify|intros _].
    apply sound_bind; [by apply sound_modify|intros _].
    apply sound_bind; [by apply sound_modify|intros _].
    apply sound_log. allowed.
Qed.

Lemma step_disconnect_catch error : sound I E (λ _, True) (disconnect_catch error).
Proof using All. unfold disconnect_catch. step_hook. by apply sound_throw. Qed.

Lemma step_disconnect_unawaited : sound I E (λ _, True) disconnect_unawaited.
Proof using All.
  unfold disconnect_unawaited.
  apply sound_bind; [|intros before].
  - apply (sound_attempt _ _ _ (λ _, True)). apply sound_callHook; [allowed|done].
  - apply sound_get. intros this past HI. split_and!; [by apply I_suspended|constructor|done].
Qed.

Lemma step_handleMessage message : sound I E (λ _, True) (_handleMessage message).
Proof using All.
  unfold _handleMessage.
  apply sound_bind; [|intros _; apply sound_log; allowed].
  apply (sound_attempt _ _ _ (λ _, True)). apply sound_callHook; [allowed|done].
Qed.

(** Every step but the acknowledgement of a subscription. *)
Lemma history_step_sound s :
  (∀ topic channel, s ≠ Subscribed topic channel) →
  sound I E (λ _, True) (step backend s).
Proof using All.
  intros Hs. destruct s; cbn [step].
  - unfold connect, connect_catch.
    apply (sound_try_catch _ _ _ (λ _, True)); [|intros e _; step_hook; by apply sound_throw].
    step_hook. apply sound_bind; [|intros _; step_hook; apply sound_ret].
    intros past this HI. rewrite echo_connect_effect_run.
    split_and!; [|constructor|done]. by apply I_suspended, I_flags.
  - unfold disconnect.
    apply (sound_try_catch _ _ _ (λ _, True)); [|intros; apply step_disconnect_catch].
    step_hook. apply step_disconnect_rest.
  - unfold subscribe. step_hook.
    apply sound_get. intros this past HI. step_at.
    destruct (negb (shouldConnect this) || negb (bool_decide (is_Some (echo this)))).
    { step_hook. apply sound_ret. }
    apply sound_bind; [|intros _; step_hook; apply sound_ret].
    apply sound_for_each. intros topic _.
    apply sound_get. intros this' past' HI'.
    destruct (JsMap.has topic (channels this')); [by split_and!; [|constructor|]|].
    destruct (echo this') as [e|] eqn:Hecho.
    + rewrite doSubscribe_run by (rewrite Hecho; eauto).
      split_and!; [|apply Forall_singleton; allowed|done].
      apply I_opened; [done|]. rewrite Hecho. eauto.
    + unfold _doSubscribe, echo_private. cbv zeta. rewrite bind_run, bind_get, Hecho.
      by split_and!; [|constructor|].
  - unfold unsubscribe. step_hook.
    apply sound_bind; [|intros _; step_hook; apply sound_ret].
    apply sound_for_each. intros topic _ past this HI.
    rewrite doUnsubscribe_run.
    destruct (JsMap.get topic (channels this)); [|by split_and!; [|constructor|]].
    destruct (echo this); [|by split_and!; [|constructor|]].
    destruct (echo_leave_throws backend past (_getChannelName topic));
      (split_and!; [|apply Forall_singleton; allowed|done]); [done|by apply I_removed].
  - unfold publish. apply sound_bind; [apply sound_callHook; [allowed|done]|intros result].
    apply sound_bind; [|intros _; step_hook; apply sound_ret].
    intros past this HI. rewrite doPublish_run.
    destruct (if replaces result then js_get "topic" result else topic)
      as [| |b|n|name|items|props]; try by split_and!; [|constructor|].
    destruct (JsMap.get name (channels this)) as [channel|] eqn:Hchannel;
      [|by split_and!; [|constructor|]].
    case_bool_decide as Hready.
    + split_and!; [done| |done]. apply Forall_singleton. by eapply E_publish.
    + split_and!; [|constructor|done]. by eapply I_queued.
  - by destruct (Hs topic channel).
  - apply sound_log. allowed.
  - unfold listen. destruct (nullish event); [by apply sound_throw|].
    apply step_handleMessage.
  - apply step_handleMessage.
  - unfold destroy. apply sound_bind; [apply step_disconnect_unawaited|intros _].
    apply sound_log. allowed.
  - unfold settle. apply sound_get. intros this past HI. step_at.
    apply sound_bind; [apply sound_put; by apply I_suspended|intros _].
    apply sound_for_each. intros task _.
    apply sound_bind; [|intros _; apply sound_ret].
    apply (sound_attempt _ _ _ (λ _, True)). destruct task as [before|]; simpl.
    + apply (sound_try_catch _ _ _ (λ _, True)); [|intros; apply step_disconnect_catch].
      apply sound_bind; [by apply sound_lift|intros _]. apply step_disconnect_rest.
    + apply sound_log. allowed.
Qed.

Lemma history_run_sound steps : ∀ past this,
  (∀ s, s ∈ steps → sound I E (λ _, True) (step backend s)) →
  I this → Forall E past →
  I (run backend steps past this).1 ∧ Forall E (run backend steps past this).2.
Proof.
  induction steps as [|s steps IH]; intros past this Hsteps HI Hpast; [done|].
  destruct (Hsteps s (list_elem_of_here _ _) past this HI) as (HI' & Hcalls & _).
  simpl. apply IH; [|done|by apply Forall_app].
  intros s' Hs'. apply Hsteps. by right.
Qed.

End EchoHistorySteps.

Section EchoHistories.

Import LaravelEchoAdapter.

Variable backend : Backend.

Implicit Types (this : LaravelEchoAdapter.t) (past : list Event).

Lemma channel_name_inj topic topic' :
  _getChannelName topic = _getChannelName topic' → topic = topic'.
Proof. unfold _getChannelName. cbn. intros Hname. by simplify_eq. Qed.

Lemma subscribed_or_not (s : Step) :
  (∃ topic channel, s = Subscribed topic channel)
  ∨ (∀ topic channel, s ≠ Subscribed topic channel).
Proof. destruct s; eauto. Qed.

Lemma named_removed this topic : channels_named this → channels_named (removed topic this).
Proof.
  intros Hnamed topic' channel. simpl. rewrite jsmap_get_delete.
  destruct (decide (topic' = topic)); [done|]. apply Hnamed.
Qed.

Lemma named_opened this topic :
  channels_named this →
  channels_named (set_channels
           (JsMap.set topic {| channel_name := _getChannelName topic |} (channels this)) this).
Proof.
  intros Hnamed topic' channel. simpl.
  destruct (decide (topic' = topic)) as [->|Hne].
  - rewrite jsmap_get_set. by intros [= <-].
  - rewrite jsmap_get_set_ne by done. apply Hnamed.
Qed.

(** X20: whatever is done with a newly built [LaravelEchoAdapter] (calls
    of its methods with any hooks and backend, callbacks of its channels,
    runs of the suspended calls and timers), the adapter keeps the Echo
    instance and the hooks it was built with, its [connected] flag equals
    [shouldConnect], every channel of its table bears the name 'y-webrtc.'
    followed by its topic, and an adapter without Echo instance has no
    channel. *)
Theorem echo_history_invariants echoInstance table steps :
  let this := (run backend steps [] (LaravelEchoAdapter.new echoInstance table)).1 in
  echo this = echoInstance
  ∧ hooks this = table
  ∧ connected this = shouldConnect this
  ∧ (∀ topic channel,
       JsMap.get topic (channels this) = Some channel →
       channel_name channel = "y-webrtc." +:+ topic)
  ∧ (echo this = None → channels this = []).
Proof.
  cbv zeta.
  set (I := λ this, echo this = echoInstance ∧ hooks this = table
                    ∧ connected this = shouldConnect this
                    ∧ channels_named this ∧ (echo this = None → channels this = [])).
  cut (I (run backend steps [] (LaravelEchoAdapter.new echoInstance table)).1).
  { intros (? & ? & ? & ? & ?). done. }
  apply (history_run_sound backend I (λ _, True));
    [|unfold I; split_and!; done|constructor].
  intros s _.
  assert (∀ this topic, I this → I (removed topic this)) as Hremoved.
  { intros this topic (? & ? & ? & Hnamed & Hnone).
    split_and!; [done..|by apply named_removed|].
    intros Hecho. simpl. by rewrite (Hnone Hecho). }
  destruct (subscribed_or_not s) as [(topic & channel & ->)|Hs].
  - intros past this (? & ? & ? & ? & ?). cbn [step]. rewrite subscribed_run.
    split_and!; [by split_and!|by apply Forall_true|done].
  - apply history_step_sound; try done.
    + intros this b (? & ? & ? & Hnamed & ?). split_and!; [done..|exact Hnamed|done].
    + intros this (? & ? & ? & ? & ?). by split_and!.
    + intros this topic (? & ? & ? & Hnamed & Hnone) [e He].
      split_and!; [done..|by apply named_opened|].
      simpl. intros Hecho. by rewrite Hecho in He.
Qed.

(** X21: whatever is done with a newly built [LaravelEchoAdapter], as
    long as the backend has not acknowledged the subscription of a topic
    (the [subscribed] callbacks that ran were those of other topics, each
    on the channel [_doSubscribe] opened for its topic), that topic is
    not ready and nothing has been whispered on the channel that bears its
    name: no message published to the topic has been sent. *)
Theorem no_whisper_before_acknowledgement echoInstance table steps topic :
  (∀ topic' channel,
     Subscribed topic' channel ∈ steps →
     topic' ≠ topic ∧ channel_name channel = "y-webrtc." +:+ topic') →
  let r := run backend steps [] (LaravelEchoAdapter.new echoInstance table) in
  (topic ∉ readyChannels r.1)
  ∧ ∀ data, Whisper ("y-webrtc." +:+ topic) "signaling" data ∉ r.2.
Proof.
  intros Hsteps. cbv zeta.
  set (I := λ this, channels_named this ∧ topic ∉ readyChannels this).
  set (E := λ ev, ∀ data, ev ≠ Whisper (_getChannelName topic) "signaling" data).
  cut (I (run backend steps [] (LaravelEchoAdapter.new echoInstance table)).1
       ∧ Forall E (run backend steps [] (LaravelEchoAdapter.new echoInstance table)).2).
  { intros [[_ Hready] Hcalls]. split; [done|]. intros data Hin.
    rewrite Forall_forall in Hcalls. by apply (Hcalls _ Hin data). }
  apply (history_run_sound backend I E);
    [|split; [done|apply not_elem_of_empty]|constructor].
  intros s Hs.
  destruct (subscribed_or_not s) as [(topic' & channel & ->)|Hother].
  - destruct (Hsteps topic' channel Hs) as [Hne Hname].
    intros past this [Hnamed Hready]. cbn [step]. rewrite subscribed_run.
    unfold final, calls, outcome. cbn [fst snd]. split_and!; [|..|done].
    + split; [done|]. simpl.
      rewrite elem_of_union, elem_of_singleton. intros [?|?]; by subst.
    + apply Forall_fmap, Forall_true. intros queued data. simpl. rewrite Hname.
      change ("y-webrtc." +:+ topic') with (_getChannelName topic').
      intros Heq.
      assert (_getChannelName topic' = _getChannelName topic) as Hsame%channel_name_inj
          by congruence.
      done.
  - apply history_step_sound; try done.
    + intros ev Hev data. apply Hev.
    + intros this topic' channel queued [Hnamed Hready] Hchannel Hin data.
      rewrite (Hnamed topic' channel Hchannel).
      intros Heq.
      assert (_getChannelName topic' = _getChannelName topic) as Hsame%channel_name_inj
          by congruence.
      by subst.
    + intros this topic' [Hnamed Hready]. split; [by apply named_removed|].
      simpl. by intros [? _]%elem_of_difference.
    + intros this topic' [Hnamed Hready] _. split; [by apply named_opened|done].
Qed.

End EchoHistories.

Lemma echo_history_invariants_witness :
  let steps :=
    [Connect "wss://unused"; Subscribe ["room"]; Publish (JStr "room") (JStr "offer");
     Disconnect] in
  let this :=
    (run stuck steps [] (LaravelEchoAdapter.new (Some LaravelEchoAdapter.EchoInstance)
                           no_hooks)).1 in
  connected this = LaravelEchoAdapter.shouldConnect this
  ∧ ∀ topic channel,
      JsMap.get topic (LaravelEchoAdapter.channels this) = Some channel →
      LaravelEchoAdapter.channel_name channel = "y-webrtc." +:+ topic.
Proof.
  destruct (echo_history_invariants stuck (Some LaravelEchoAdapter.EchoInstance) no_hooks
              [Connect "wss://unused"; Subscribe ["room"];
               Publish (JStr "room") (JStr "offer"); Disconnect])
    as (_ & _ & Hflags & Hnamed & _).
  split; [exact Hflags|exact Hnamed].
Defined.

Lemma no_whisper_before_acknowledgement_witness :
  let lobby := {| LaravelEchoAdapter.channel_name := "y-webrtc.lobby" |} in
  let steps :=
    [Connect "wss://unused"; Subscribe ["room"; "lobby"];
     Publish (JStr "room") (JStr "offer"); Subscribed "lobby" lobby;
     Publish (JStr "lobby") (JStr "hello")] in
  let r :=
    run reliable steps [] (LaravelEchoAdapter.new (Some LaravelEchoAdapter.EchoInstance)
                             no_hooks) in
  ("room" ∉ LaravelEchoAdapter.readyChannels r.1)
  ∧ ∀ data, Whisper "y-webrtc.room" "signaling" data ∉ r.2.
Proof.
  apply (no_whisper_before_acknowledgement reliable (Some LaravelEchoAdapter.EchoInstance)
           no_hooks
           [Connect "wss://unused"; Subscribe ["room"; "lobby"];
            Publish (JStr "room") (JStr "offer");
            Subscribed "lobby" {| LaravelEchoAdapter.channel_name := "y-webrtc.lobby" |};
            Publish (JStr "lobby") (JStr "hello")] "room").
  intros topic' channel Hin.
  repeat (apply elem_of_cons in Hin as [Hin|Hin]; [try discriminate Hin|]).
  - injection Hin as -> ->. split; [discriminate|reflexivity].
  - by apply elem_of_nil in Hin.
Defined.

(** ** Adapters as the factory builds them *)

Lemma echo_subscribe_gated_around topics past (this : LaravelEchoAdapter.t) :
  LaravelEchoAdapter.shouldConnect this = false ∨ LaravelEchoAdapter.echo this = None →
  LaravelEchoAdapter.subscribe topics past this
  = hooks_around "onBeforeSubscribe" [js_topics topics] (λ _, [])
      "onAfterSubscribe" (λ _, [js_topics topics]) past this.
Proof.
  intros Hgate. rewrite (echo_subscribe_gated topics past this Hgate).
  unfold hooks_around. cbv zeta. cbn [app]. by rewrite app_nil_r.
Qed.

(** X22: an adapter that [createSignalingAdapter] builds (from a url, a
    configuration object or anything that is not an adapter already) is
    not connected and holds no websocket and no channel, whatever url the
    configuration names: the factory does not connect.  Until [connect]
    is called on it, a [subscribe] or a [publish] is the run of its own
    two hooks with nothing in between: it leaves the adapter as it is,
    calls its before hook and (when that hook returns) its after hook and
    nothing else, and fails exactly when one of these two calls throws. *)
Theorem created_adapter_waits_for_connect config adapter topics (topic data : JsVal) past :
  (∀ instance, config ≠ CInstance instance) →
  createSignalingAdapter config = Return adapter →
  match adapter with
  | IsDefault this =>
      connected this = false
      ∧ DefaultSignalingAdapter.ws this = None
      ∧ DefaultSignalingAdapter.url this = ""
      ∧ DefaultSignalingAdapter.subscribe topics past this
        = hooks_around "onBeforeSubscribe" [js_topics topics] (λ _, [])
            "onAfterSubscribe" (λ _, [js_topics topics]) past this
      ∧ DefaultSignalingAdapter.publish topic data past this
        = hooks_around "onBeforePublish" [topic; data] (λ _, [])
            "onAfterPublish" (pair_args topic data) past this
  | IsEcho this =>
      connected this = false
      ∧ LaravelEchoAdapter.channels this = []
      ∧ LaravelEchoAdapter.subscribe topics past this
        = hooks_around "onBeforeSubscribe" [js_topics topics] (λ _, [])
            "onAfterSubscribe" (λ _, [js_topics topics]) past this
      ∧ LaravelEchoAdapter.publish topic data past this
        = hooks_around "onBeforePublish" [topic; data] (λ _, [])
            "onAfterPublish" (pair_args topic data) past this
  | IsOther _ _ => False
  end.
Proof.
  intros Hnew Hcreated.
  assert (∀ table,
            let this := DefaultSignalingAdapter.new table in
            connected this = false
            ∧ DefaultSignalingAdapter.ws this = None
            ∧ DefaultSignalingAdapter.url this = ""
            ∧ DefaultSignalingAdapter.subscribe topics past this
              = hooks_around "onBeforeSubscribe" [js_topics topics] (λ _, [])
                  "onAfterSubscribe" (λ _, [js_topics topics]) past this
            ∧ DefaultSignalingAdapter.publish topic data past this
              = hooks_around "onBeforePublish" [topic; data] (λ _, [])
                  "onAfterPublish" (pair_args topic data) past this) as Hdefault.
  { intros table this. split_and!; [done..| |].
    - by rewrite default_subscribe_around.
    - by rewrite default_publish_around. }
  assert (∀ e table,
            let this := LaravelEchoAdapter.new (Some e) table in
            connected this = false
            ∧ LaravelEchoAdapter.channels this = []
            ∧ LaravelEchoAdapter.subscribe topics past this
              = hooks_around "onBeforeSubscribe" [js_topics topics] (λ _, [])
                  "onAfterSubscribe" (λ _, [js_topics topics]) past this
            ∧ LaravelEchoAdapter.publish topic data past this
              = hooks_around "onBeforePublish" [topic; data] (λ _, [])
                  "onAfterPublish" (pair_args topic data) past this) as Hecho.
  { intros e table this. split_and!; [done..| |].
    - apply echo_subscribe_gated_around. by left.
    - by apply publish_no_channel_around. }
  destruct config as [instance|url|o| | |b|n]; simpl in Hcreated.
  - by destruct (Hnew instance).
  - injection Hcreated as <-. apply Hdefault.
  - destruct (type o) as [| |b|n|str|items|props];
      try (injection Hcreated as <-; apply Hdefault).
    repeat case_match; try (injection Hcreated as <-; apply Hdefault); try done.
    injection Hcreated as <-. apply Hecho.
  - injection Hcreated as <-. apply Hdefault.
  - injection Hcreated as <-. apply Hdefault.
  - injection Hcreated as <-. apply Hdefault.
  - injection Hcreated as <-. apply Hdefault.
Qed.

Lemma created_adapter_waits_for_connect_witness :
  let this := LaravelEchoAdapter.new (Some LaravelEchoAdapter.EchoInstance) no_hooks in
  connected this = false
  ∧ LaravelEchoAdapter.channels this = []
  ∧ LaravelEchoAdapter.subscribe ["room"] [] this
    = hooks_around "onBeforeSubscribe" [js_topics ["room"]] (λ _, [])
        "onAfterSubscribe" (λ _, [js_topics ["room"]]) [] this
  ∧ LaravelEchoAdapter.publish (JStr "room") (JStr "offer") [] this
    = hooks_around "onBeforePublish" [JStr "room"; JStr "offer"] (λ _, [])
        "onAfterPublish" (pair_args (JStr "room") (JStr "offer")) [] this.
Proof.
  apply (created_adapter_waits_for_connect (CObject echo_config_complete)
           (IsEcho (LaravelEchoAdapter.new (Some LaravelEchoAdapter.EchoInstance) no_hooks))
           ["room"] (JStr "room") (JStr "offer") []).
  - discriminate.
  - reflexivity.
Defined.

(** ** The default adapter and its earlier revision *)

Section Legacy.

Variable backend : Backend.

Implicit Types (this : DefaultSignalingAdapter.t) (past : list Event).

Lemma no_hooks_run hookName args past :
  hook_run no_hooks hookName args past = (Return JUndefined, []).
Proof. done. Qed.

Lemma legacy_guarded_send msg past this :
  (let* this := get in
   if bool_decide (is_Some (LegacyDefaultSignalingAdapter.ws this))
      && LegacyDefaultSignalingAdapter.connected this
   then LegacyDefaultSignalingAdapter.ws_send msg else ret tt) past (legacy_fields this)
  = (Return tt, legacy_fields this, DefaultSignalingAdapter.sent this msg).
Proof.
  rewrite bind_get. unfold DefaultSignalingAdapter.sent, LegacyDefaultSignalingAdapter.ws_send.
  simpl. destruct (DefaultSignalingAdapter.ws this) as [w|] eqn:Hws; [|done].
  destruct (DefaultSignalingAdapter.this_connected this); [|done].
  rewrite bool_decide_true by eauto. cbn [andb]. rewrite bind_get. simpl. by rewrite Hws.
Qed.

(** X23: a [DefaultSignalingAdapter] built without hooks behaves like the
    adapter of the earlier revision, which had none.  [subscribe],
    [unsubscribe], [publish], an awaited [disconnect] and, on an adapter
    that holds no websocket, [connect] end the same way (with the same
    error, if the backend throws one), make the same calls on the backend
    and leave the same [connected], [ws] and [url]. *)
Theorem hookless_adapter_matches_legacy this past topics (topic data : JsVal) url :
  hooks this = no_hooks →
  same_behaviour (DefaultSignalingAdapter.subscribe topics past this)
    (LegacyDefaultSignalingAdapter.subscribe topics past (legacy_fields this))
  ∧ same_behaviour (DefaultSignalingAdapter.unsubscribe topics past this)
      (LegacyDefaultSignalingAdapter.unsubscribe topics past (legacy_fields this))
  ∧ same_behaviour (DefaultSignalingAdapter.publish topic data past this)
      (LegacyDefaultSignalingAdapter.publish topic data past (legacy_fields this))
  ∧ same_behaviour (DefaultSignalingAdapter.disconnect backend past this)
      (LegacyDefaultSignalingAdapter.disconnect backend past (legacy_fields this))
  ∧ (DefaultSignalingAdapter.ws this = None →
     same_behaviour (DefaultSignalingAdapter.connect backend url past this)
       (LegacyDefaultSignalingAdapter.connect backend url past (legacy_fields this))).
Proof.
  intros Hhooks. pose proof Hhooks as Hhooks'. simpl in Hhooks'.
  split; [|split; [|split; [|split]]].
  - rewrite subscribe_run. cbv zeta. rewrite Hhooks, !no_hooks_run. cbn [fst snd app].
    unfold LegacyDefaultSignalingAdapter.subscribe. rewrite legacy_guarded_send.
    unfold same_behaviour, outcome, calls, final. cbn [fst snd]. by rewrite app_nil_r.
  - rewrite unsubscribe_run. cbv zeta. rewrite Hhooks, !no_hooks_run. cbn [fst snd app].
    unfold LegacyDefaultSignalingAdapter.unsubscribe. rewrite legacy_guarded_send.
    unfold same_behaviour, outcome, calls, final. cbn [fst snd]. by rewrite app_nil_r.
  - rewrite default_publish_run. cbv zeta. rewrite Hhooks, !no_hooks_run. cbn [fst snd app].
    unfold LegacyDefaultSignalingAdapter.publish. rewrite legacy_guarded_send.
    unfold same_behaviour, outcome, calls, final. cbn [fst snd]. by rewrite app_nil_r.
  - unfold DefaultSignalingAdapter.disconnect, DefaultSignalingAdapter.disconnect_catch.
    rewrite try_rethrow_run. cbv zeta.
    unfold DefaultSignalingAdapter.disconnect_rest.
    rewrite (body_run _ _ _ _ _ _ (disconnect_effect_hooks backend)). cbv zeta.
    rewrite Hhooks, !no_hooks_run. cbn [fst snd app]. rewrite app_nil_r.
    rewrite disconnect_effect_run.
    unfold LegacyDefaultSignalingAdapter.disconnect. rewrite bind_get.
    unfold same_behaviour, legacy_fields.
    destruct (DefaultSignalingAdapter.ws this) as [w|] eqn:Hws;
      [destruct (ws_disconnect_throws backend past (DefaultSignalingAdapter.ws_url w))
         as [e|] eqn:Hclose|];
      unfold outcome, calls, final, bind, call, modify, ret; simpl;
      rewrite ?Hws, ?Hclose; simpl; rewrite ?Hhooks', ?Hws; simpl; rewrite ?Hws; done.
  - intros Hws. rewrite default_connect_run. cbv zeta.
    rewrite (body_run _ _ _ _ _ _ (connect_effect_hooks backend url)). cbv zeta.
    rewrite Hhooks, !no_hooks_run. cbn [fst snd app]. rewrite app_nil_r.
    rewrite connect_effect_run, Hws. cbv zeta. rewrite app_nil_r.
    unfold LegacyDefaultSignalingAdapter.connect. rewrite bind_get.
    unfold same_behaviour, legacy_fields.
    destruct (ws_new_throws backend past url) as [e|] eqn:Hnew;
      unfold outcome, calls, final, bind, call, modify, ret; simpl;
      rewrite ?Hws, ?Hnew; simpl; rewrite ?app_nil_r, ?Hhooks', ?Hws, ?Hnew; simpl;
      rewrite ?Hws; done.
Qed.

(** X24: in the earlier revision, [connect(url)] on an adapter that holds
    a websocket client runs [disconnect] to its end first: the client the
    adapter holds is closed, then the new client is built, and the
    adapter holds the new one, not connected until that client reports
    'connect'. *)
Theorem legacy_reconnect_replaces_client (this : LegacyDefaultSignalingAdapter.t) w url past :
  LegacyDefaultSignalingAdapter.ws this = Some w →
  ws_disconnect_throws backend past (DefaultSignalingAdapter.ws_url w) = None →
  ws_new_throws backend (past ++ [WsDisconnect (DefaultSignalingAdapter.ws_url w)]) url = None →
  LegacyDefaultSignalingAdapter.connect backend url past this
  = (Return tt,
     {| LegacyDefaultSignalingAdapter.connected := false;
        LegacyDefaultSignalingAdapter.ws := Some {| DefaultSignalingAdapter.ws_url := url |};
        LegacyDefaultSignalingAdapter.url := url |},
     [WsDisconnect (DefaultSignalingAdapter.ws_url w); WsNew url]).
Proof.
  intros Hws Hclose Hnew.
  unfold LegacyDefaultSignalingAdapter.connect, LegacyDefaultSignalingAdapter.disconnect.
  rewrite bind_get, Hws, bind_run, bind_get, Hws.
  unfold bind, call, modify, ret. rewrite Hclose. simpl.
  rewrite ?app_nil_r, Hnew. done.
Qed.

End Legacy.

Lemma hookless_adapter_matches_legacy_witness :
  same_behaviour
    (DefaultSignalingAdapter.subscribe ["room"] [] (online no_hooks))
    (LegacyDefaultSignalingAdapter.subscribe ["room"] [] (legacy_fields (online no_hooks)))
  ∧ calls (DefaultSignalingAdapter.subscribe ["room"] [] (online no_hooks))
    = [WsSend "wss://signaling" (MsgSubscribe ["room"])].
Proof.
  destruct (hookless_adapter_matches_legacy reliable (online no_hooks) [] ["room"]
              (JStr "room") JNull "wss://other" eq_refl) as [Hsubscribe _].
  split; [exact Hsubscribe|reflexivity].
Defined.

Lemma legacy_reconnect_replaces_client_witness :
  LegacyDefaultSignalingAdapter.connect reliable "wss://other" []
    (legacy_fields (online no_hooks))
  = (Return tt,
     {| LegacyDefaultSignalingAdapter.connected := false;
        LegacyDefaultSignalingAdapter.ws :=
          Some {| DefaultSignalingAdapter.ws_url := "wss://other" |};
        LegacyDefaultSignalingAdapter.url := "wss://other" |},
     [WsDisconnect "wss://signaling"; WsNew "wss://other"]).
Proof.
  exact (legacy_reconnect_replaces_client reliable (legacy_fields (online no_hooks))
           {| DefaultSignalingAdapter.ws_url := "wss://signaling" |} "wss://other" []
           eq_refl eq_refl eq_refl).
Defined.

(** ** Events of the websocket client, acknowledgements of the backend *)

Section Events.

Variable backend : Backend.

(** X25: the 'disconnect' and 'connect' events of the websocket client
    only set the [connected] flag of a [DefaultSignalingAdapter] and
    re-emit the event: the adapter keeps its client.  After 'disconnect'
    the adapter sends nothing ([subscribe] only calls its hooks); after
    'connect' it sends again, on the same client. *)
Theorem websocket_events_gate_sending (this : DefaultSignalingAdapter.t) w topics past past' :
  DefaultSignalingAdapter.ws this = Some w →
  let offline := DefaultSignalingAdapter.on_disconnect past this in
  let online := DefaultSignalingAdapter.on_connect past this in
  offline = (Return tt, DefaultSignalingAdapter.set_connected false this,
             [Emit "disconnect" []])
  ∧ online = (Return tt, DefaultSignalingAdapter.set_connected true this,
              [Emit "connect" []])
  ∧ DefaultSignalingAdapter.ws (final offline) = Some w
  ∧ quiet (final offline) (DefaultSignalingAdapter.subscribe topics past' (final offline))
  ∧ (outcome (DefaultSignalingAdapter.subscribe topics past' (final online)) = Return tt →
     WsSend (DefaultSignalingAdapter.ws_url w) (MsgSubscribe topics)
     ∈ calls (DefaultSignalingAdapter.subscribe topics past' (final online))).
Proof.
  intros Hws. cbv zeta. split_and!; [done|done|done|..].
  - unfold final. cbn [fst snd]. rewrite subscribe_run. cbv zeta.
    rewrite (sent_offline (DefaultSignalingAdapter.set_connected false this) _
               (or_intror eq_refl)).
    apply (hooks_only_quiet _ _ _ (λ _, [js_topics topics])).
  - unfold final. cbn [fst snd]. rewrite subscribe_run. cbv zeta.
    rewrite (sent_online (DefaultSignalingAdapter.set_connected true this) w _ Hws eq_refl).
    destruct (hook_run _ "onBeforeSubscribe" _ past') as [[v|e] t1]; cbn [fst snd]; [|done].
    intros _. unfold calls. cbn [fst snd]. rewrite !elem_of_app, list_elem_of_singleton. auto.
Qed.

(** X26: [disconnect()] on a [DefaultSignalingAdapter] whose websocket
    client cannot be closed ([ws.disconnect()] throws [e]): the adapter
    is left exactly as it was, still holding the client and with its
    [connected] flag unchanged; [onAfterDisconnect] is not called,
    [onDisconnectError] is called with [e], and the call fails (with [e]
    when the error hook returns). *)
Theorem failed_disconnect_keeps_websocket (this : DefaultSignalingAdapter.t) w past v e :
  DefaultSignalingAdapter.ws this = Some w →
  (hook_run (hooks this) "onBeforeDisconnect" [] past).1 = Return v →
  ws_disconnect_throws backend
    (past ++ (hook_run (hooks this) "onBeforeDisconnect" [] past).2)
    (DefaultSignalingAdapter.ws_url w) = Some e →
  let hb := hook_run (hooks this) "onBeforeDisconnect" [] past in
  let closing := WsDisconnect (DefaultSignalingAdapter.ws_url w) in
  let he := hook_run (hooks this) "onDisconnectError" [e] (past ++ hb.2 ++ [closing]) in
  let run := DefaultSignalingAdapter.disconnect backend past this in
  final run = this
  ∧ calls run = hb.2 ++ [closing] ++ he.2
  ∧ outcome run = match he.1 with Return _ => Throw e | Throw e' => Throw e' end.
Proof.
  intros Hws Hbefore Hclose. cbv zeta.
  unfold DefaultSignalingAdapter.disconnect, DefaultSignalingAdapter.disconnect_catch,
    DefaultSignalingAdapter.disconnect_rest.
  rewrite try_rethrow_run. cbv zeta.
  rewrite (body_run _ _ _ _ _ _ (disconnect_effect_hooks backend)). cbv zeta.
  rewrite Hbefore, disconnect_effect_run, Hws, Hclose.
  unfold outcome, final, calls. cbn [fst snd]. by rewrite <- app_assoc.
Qed.

Import LaravelEchoAdapter.

(** X27: the acknowledgement of a subscription on a [LaravelEchoAdapter]
    concerns its topic only: the channel table is not touched, and the
    queues and ready flags of the other topics are as they were.  An
    acknowledgement that comes a second time sends nothing and changes
    nothing: the queue was dropped by the first, so no message is sent
    twice. *)
Theorem acknowledgement_is_per_topic topic channel past (this : LaravelEchoAdapter.t) :
  let ack := subscribed topic channel past this in
  channels (final ack) = channels this
  ∧ (∀ topic', topic' ≠ topic →
       messageQueue (final ack) !! topic' = messageQueue this !! topic'
       ∧ (topic' ∈ readyChannels (final ack) ↔ topic' ∈ readyChannels this))
  ∧ ∀ channel' past',
      let again := subscribed topic channel' past' (final ack) in
      calls again = [] ∧ final again = final ack.
Proof.
  cbv zeta. rewrite subscribed_run. unfold final, calls. cbn [fst snd].
  split_and!; [done| |].
  - intros topic' Hne. simpl. rewrite lookup_delete_ne by done.
    rewrite elem_of_union, elem_of_singleton. tauto.
  - intros channel' past'. rewrite subscribed_run. cbn [fst snd]. simpl.
    rewrite lookup_delete_eq. split; [done|].
    rewrite delete_delete_eq, (assoc_L (∪)), union_idemp_L. done.
Qed.

End Events.

Lemma websocket_events_gate_sending_witness :
  let offline := DefaultSignalingAdapter.on_disconnect [] (online no_hooks) in
  DefaultSignalingAdapter.ws (final offline)
  = Some {| DefaultSignalingAdapter.ws_url := "wss://signaling" |}
  ∧ quiet (final offline) (DefaultSignalingAdapter.subscribe ["room"] [] (final offline)).
Proof.
  destruct (websocket_events_gate_sending (online no_hooks)
              {| DefaultSignalingAdapter.ws_url := "wss://signaling" |} ["room"] [] []
              eq_refl) as (_ & _ & Hws & Hquiet & _).
  split; [exact Hws|exact Hquiet].
Defined.

Lemma failed_disconnect_keeps_websocket_witness :
  let run := DefaultSignalingAdapter.disconnect jammed [] (online no_hooks) in
  final run = online no_hooks
  ∧ calls run = [WsDisconnect "wss://signaling"]
  ∧ outcome run = Throw (js_Error "cannot close").
Proof.
  exact (failed_disconnect_keeps_websocket jammed (online no_hooks)
           {| DefaultSignalingAdapter.ws_url := "wss://signaling" |} [] JUndefined
           (js_Error "cannot close") eq_refl eq_refl eq_refl).
Defined.

Lemma failed_unsubscribe_stops_witness :
  LaravelEchoAdapter.unsubscribe stuck ["room"; "lobby"] [] (waiting no_hooks)
  = (Throw (js_Error "cannot leave"), waiting no_hooks, [EchoLeave "y-webrtc.room"]).
Proof.
  exact (failed_unsubscribe_stops stuck "room"
           {| LaravelEchoAdapter.channel_name := "y-webrtc.room" |} ["lobby"] []
           (waiting no_hooks) JUndefined (js_Error "cannot leave") eq_refl
           (ex_intro _ LaravelEchoAdapter.EchoInstance eq_refl) eq_refl eq_refl).
Defined.

Lemma unsubscribe_undoes_subscribe_witness :
  let this := waiting no_hooks in
  let subscribed_to := final (LaravelEchoAdapter.subscribe ["lobby"; "hall"] [] this) in
  let back :=
    final (LaravelEchoAdapter.unsubscribe reliable ["lobby"; "hall"] [] subscribed_to) in
  (∀ topic, topic ∈ ["lobby"; "hall"] →
     is_Some (JsMap.get topic (LaravelEchoAdapter.channels subscribed_to)))
  ∧ (∀ topic,
       JsMap.get topic (LaravelEchoAdapter.channels back)
       = JsMap.get topic (LaravelEchoAdapter.channels this))
  ∧ LaravelEchoAdapter.readyChannels back = LaravelEchoAdapter.readyChannels this
  ∧ LaravelEchoAdapter.messageQueue back = LaravelEchoAdapter.messageQueue this.
Proof.
  apply (unsubscribe_undoes_subscribe reliable ["lobby"; "hall"] [] [] (waiting no_hooks)
           JUndefined JUndefined eq_refl
           (ex_intro _ LaravelEchoAdapter.EchoInstance eq_refl) (λ _ _, eq_refl)).
  - intros topic Hin.
    repeat (apply elem_of_cons in Hin as [->|Hin];
            [split_and!; [reflexivity|apply not_elem_of_empty|reflexivity]|]).
    by apply elem_of_nil in Hin.
  - reflexivity.
  - reflexivity.
Defined.
